(** * Round lifecycle of the red-or-black game server (src/server.js)

    The source file holds two variants of the server, one after the other:
    - the first (lines 1-727) keeps a single countdown [serverTimeLeft] and
      the functions [ensureCurrentRound], [endVotingPhase], [selectWinner],
      [startNextRound], [startRoundTimer];
    - the second (lines 729-1524) adds the in-memory [currentPhase] and
      [phaseTimeLeft] and the functions [startVerificationPhase],
      [endVotingPhase], [performAutomaticSpin].
    They are embedded as the modules [V1] and [V2] over common documents.

    Modelling choices.
    - MongoDB collections: [Round] has a unique index on [roundNumber], so
      the collection is a finite map from round numbers to documents;
      [Vote] has no unique index and [Vote.find] returns documents in
      insertion order, so it is a list; [Participant] is unique on
      [walletAddress], a finite map.
    - [currentGameState] is the mongoose document of the single [GameState]
      record; it is saved after each mutation, so one optional record stands
      for both ([None]: not yet created or loaded).
    - JavaScript numbers: counters are integers ([Z]); in [V1] and [V2]
      amounts and the countdown of the first variant, which is
      [ROUND_DURATION / 1000], are exact rationals ([Qc]), and
      [Math.random()] is an input of the handler that calls it, a rational
      [u] expected in [0, 1).  In [Live] amounts and draws are binary64
      numbers.
    - [roundId] is [roundNumber.toString()], injective on integers: it is
      kept as the number.
    - [new Date()] is an input [now] of the handler that calls it.
    - [V1] and [V2] take each handler as one step, from its start to its
      end: they show what the timer chain and a single request do.  The
      module [Live] follows the handlers [await] by [await], with the
      requests in flight together, the calls the database fails and the
      restarts of the process, and with the amounts as binary64 numbers: it
      is used where the interleaving or the rounding matters.
    - Sockets and logging do not touch the state and are left out. *)

From Stdlib Require Import ZArith QArith Qround Qcanon Floats Uint63.
From stdpp Require Import base numbers list strings gmap fin_maps sorting.

Local Open Scope Z_scope.

(** ** Documents (the mongoose schemas) *)

(** [color: { enum: ["red", "black"] }] *)
Inductive Color := Red | Black.

(** [status: { enum: ["voting", "spinning", "completed"] }] *)
Inductive Status := voting | spinning | completed.

#[global] Instance Color_eq_dec : EqDecision Color.
Proof. solve_decision. Defined.

#[global] Instance Status_eq_dec : EqDecision Status.
Proof. solve_decision. Defined.

(** [voteSchema] *)
Record Vote := mkVote {
  walletAddress : string;
  roundId : Z;
  color : Color;
  timestamp : Z
}.

(** [votes: { red, black }] of [roundSchema] *)
Record Tally := mkTally { red : Z; black : Z }.

(** [roundSchema] *)
Record Round := mkRound {
  roundNumber : Z;
  status : Status;
  startTime : Z;
  endTime : option Z;
  votes : Tally;
  participants : list string;
  winningColor : option Color;
  winner : option string;
  prizeAmount : Qc
}.

(** [gameStateSchema]; [nextRoundStartTime] is never assigned by the code. *)
Record GameState := mkGameState {
  currentRound : Z;
  totalPrizesGiven : Qc;
  lastWinner : option string;
  lastPrizeAmount : Qc;
  isActive : bool;
  totalRoundsPlayed : Z;
  lastUpdated : Z
}.

(** [participantSchema], keyed by [walletAddress] *)
Record Participant := mkParticipant {
  tokenBalance : Z;
  isVerified : bool;
  lastVerified : Z
}.

(** [CONFIG]; both fields are [parseInt(env) || default]. *)
Record Config := mkConfig {
  MIN_TOKEN_BALANCE : Z;
  ROUND_DURATION : Z
}.

(** ** Helpers shared by the two variants *)

(** [Math.max(a, b)] on exact rationals *)
Definition Qcmax (a b : Qc) : Qc := if decide (a ≤ b)%Qc then b else a.

(** [Math.random() < 0.5 ? "red" : "black"] *)
Definition chooseColor (u : Q) : Color :=
  if Qlt_le_dec u (1 # 2) then Red else Black.

(** [Math.floor(Math.random() * winningVotes.length)] *)
Definition randomIndex (u : Q) (len : nat) : Z :=
  Qfloor (u * inject_Z (Z.of_nat len)).

(** [a[i]] for a number [i]: [undefined] outside the array *)
Definition nthZ {A} (l : list A) (i : Z) : option A :=
  if decide (0 ≤ i) then l !! Z.to_nat i else None.

(** [Vote.find({ roundId, color })]; a round without [winningColor] matches
    no vote, since every vote has a colour. *)
Definition findVotes (rid : Z) (c : option Color) (l : list Vote) : list Vote :=
  filter (λ v, roundId v = rid ∧ Some (color v) = c) l.

(** [Vote.findOne({ walletAddress, roundId })] *)
Definition findVote (w : string) (rid : Z) (l : list Vote) : option Vote :=
  snd <$> list_find (λ v, walletAddress v = w ∧ roundId v = rid) l.

(** The draw of the winner, as [selectWinner] and [performAutomaticSpin]
    write it: [null] for no winning vote, else the wallet at the random
    index.  The outer [None] is the [TypeError] of reading [.walletAddress]
    of [undefined], when the index misses the array. *)
Definition drawWinner (u : Q) (winningVotes : list Vote) : option (option string) :=
  match winningVotes with
  | [] => Some None
  | _ => v ← nthZ winningVotes (randomIndex u (length winningVotes));
         Some (Some (walletAddress v))
  end.

(** [["red", "black"].includes(color)], with the colour it names *)
Definition parseColor (c : string) : option Color :=
  if decide (c = "red"%string) then Some Red
  else if decide (c = "black"%string) then Some Black
  else None.

(** [currentRound.votes[color] += 1] *)
Definition incrVotes (c : Color) (t : Tally) : Tally :=
  match c with
  | Red => mkTally (red t + 1) (black t)
  | Black => mkTally (red t) (black t + 1)
  end.

(** [if (!participants.includes(w)) participants.push(w)] *)
Definition pushParticipant (w : string) (l : list string) : list string :=
  if decide (w ∈ l) then l else l ++ [w].

(** [Participant.findOne({ walletAddress, isVerified: true })] finds one *)
Definition verified (w : string) (ps : gmap string Participant) : bool :=
  match ps !! w with
  | Some p => isVerified p
  | None => false
  end.

(** [!round.winner]: [null], [undefined] and the empty string are falsy *)
Definition noWinner (w : option string) : bool :=
  match w with
  | None => true
  | Some a => bool_decide (a = ""%string)
  end.

(** Field updates of the documents *)
Definition setRoundVoting (now : Z) (r : Round) : Round :=
  mkRound (roundNumber r) voting now (endTime r) (mkTally 0 0) []
          (winningColor r) (winner r) (prizeAmount r).

Definition setRoundSpinning (c : Color) (r : Round) : Round :=
  mkRound (roundNumber r) spinning (startTime r) (endTime r) (votes r)
          (participants r) (Some c) (winner r) (prizeAmount r).

Definition setRoundCompleted (now : Z) (w : option string) (r : Round) : Round :=
  mkRound (roundNumber r) completed (startTime r) (Some now) (votes r)
          (participants r) (winningColor r) w (prizeAmount r).

Definition setRoundVote (w : string) (c : Color) (r : Round) : Round :=
  mkRound (roundNumber r) (status r) (startTime r) (endTime r)
          (incrVotes c (votes r)) (pushParticipant w (participants r))
          (winningColor r) (winner r) (prizeAmount r).

Definition setRoundPrize (p : Qc) (r : Round) : Round :=
  mkRound (roundNumber r) (status r) (startTime r) (endTime r) (votes r)
          (participants r) (winningColor r) (winner r) p.

(** [new Round({ roundNumber, status: "voting", startTime, prizeAmount: 0 })]
    with the schema defaults for the other fields *)
Definition newRound (n now : Z) : Round :=
  mkRound n voting now None (mkTally 0 0) [] None None 0%Qc.

(** [new GameState({ currentRound: 1, totalPrizesGiven: 0 })] *)
Definition newGameState (now : Z) : GameState :=
  mkGameState 1 0%Qc None 0%Qc true 0 now.

(** The update of the aggregate at the end of [selectWinner] *)
Definition gameStateCompleted (now : Z) (w : option string) (g : GameState) : GameState :=
  mkGameState (currentRound g + 1) (totalPrizesGiven g) w (lastPrizeAmount g)
              (isActive g) (totalRoundsPlayed g + 1) now.

(** The update of the aggregate in [/api/admin/mark-paid] *)
Definition gameStatePaid (p : Qc) (g : GameState) : GameState :=
  mkGameState (currentRound g) (totalPrizesGiven g + p)%Qc (lastWinner g) p
              (isActive g) (totalRoundsPlayed g) (lastUpdated g).

(** Answers of [/api/vote]; of [voteData] the colour, the round number, the
    tally and the number of voters are kept. *)
Inductive VoteResponse :=
| VotePhaseClosed          (* 400 "Voting is not active. Current phase: ..." *)
| VoteInvalidData          (* 400 "Invalid vote data. Choose 'red' or 'black'" *)
| VoteNotVerified          (* 400 "Wallet not verified. ..." *)
| VoteAlreadyVoted (previousVote : Color)   (* 400 "Already voted this round" *)
| VoteNotActive            (* 400 "Voting is not currently active" *)
| VoteServerError          (* 500, from the catch block *)
| VoteOk (c : Color) (n : Z) (t : Tally) (totalVoters : nat).

(** Answers of the admin routes *)
Inductive AdminResponse :=
| AdminInvalid             (* 400 "Invalid prize amount" *)
| AdminNotFound            (* 404 *)
| AdminServerError         (* 500 *)
| AdminOk.

(** [.sort({ roundNumber: -1 })] *)
Definition byNumberDesc (a b : Round) : Prop := roundNumber b ≤ roundNumber a.

#[global] Instance byNumberDesc_dec : RelDecision byNumberDesc.
Proof. intros a b. unfold byNumberDesc. apply _. Defined.

(** [/api/history]: the completed rounds, highest number first, at most 50
    (the documents are listed whole, where the route selects seven fields) *)
Definition history (rs : gmap Z Round) : list Round :=
  take 50 (merge_sort byNumberDesc
             (filter (λ r, status r = completed) (snd <$> map_to_list rs))).

(** Answers of [/api/verify-wallet] *)
Inductive VerifyResponse :=
| VerifyInvalidAddress
| VerifyInsufficient (balance : Z)
| VerifyOk (balance : Z).

(** The [roundData] part of [getCurrentGameData]; the [config] part is the
    constant [CONFIG]. *)
Record RoundData := mkRoundData {
  rd_status : Status;
  rd_votes : Tally;
  rd_participants : nat;
  rd_winningColor : option Color;
  rd_winner : option string;
  rd_prizeAmount : Qc;
  rd_startTime : Z
}.

(** [currentRound ? { ... } : { status: "voting", votes: { red: 0, black: 0 },
    participants: 0, winningColor: null, winner: null, prizeAmount: 0, ... }] *)
Definition roundDataOf (now : Z) (o : option Round) : RoundData :=
  match o with
  | Some r => mkRoundData (status r) (votes r) (length (participants r))
                (winningColor r) (winner r) (prizeAmount r) (startTime r)
  | None => mkRoundData voting (mkTally 0 0) 0 None None 0%Qc now
  end.

(** The draws of an event are results of [Math.random()], in [0, 1). *)
Definition goodDraw (u : Q) : Prop := (0 <= u)%Q ∧ (u < 1)%Q.

(** ** The database and the code both variants run on it

    The two variants hold the same text for the database part of the
    handlers below; the line numbers of both copies are given. *)

Record Db := mkDb {
  roundDocs : gmap Z Round;
  voteDocs : list Vote;
  participantDocs : gmap string Participant;
  currentGameState : option GameState
}.

Definition emptyDb : Db := mkDb ∅ [] ∅ None.

Definition withRounds (rs : gmap Z Round) (d : Db) : Db :=
  mkDb rs (voteDocs d) (participantDocs d) (currentGameState d).

Definition withGameState (g : GameState) (d : Db) : Db :=
  mkDb (roundDocs d) (voteDocs d) (participantDocs d) (Some g).

(** [currentGameState = await GameState.findOne(); if (!currentGameState)
    { currentGameState = new GameState(...); save }] (lines 229-236, 980-987) *)
Definition loadGameState (now : Z) (d : Db) : Db :=
  match currentGameState d with
  | Some _ => d
  | None => withGameState (newGameState now) d
  end.

(** [Round.findOne({ roundNumber: currentGameState.currentRound, status })] *)
Definition findCurrentRound (st : Status) (d : Db) : option (GameState * Round) :=
  g ← currentGameState d;
  r ← roundDocs d !! currentRound g;
  if decide (status r = st) then Some (g, r) else None.

(** The database part of [endVotingPhase()] (lines 273-284, 1065-1076):
    the current round, if it is in voting, gets its colour and goes to
    spinning. *)
Definition closeVoting (u : Q) (d : Db) : Db :=
  match findCurrentRound voting d with
  | Some (g, currentRound_) =>
      withRounds (<[currentRound g := setRoundSpinning (chooseColor u) currentRound_]>
                    (roundDocs d)) d
  | None => d
  end.

(** The database part of [selectWinner()] (lines 298-330) and of
    [performAutomaticSpin()] (lines 1104-1140).  Nothing is saved when no
    round is in spinning, or when the draw throws. *)
Definition completeRound (now : Z) (u : Q) (d : Db) : Db :=
  match findCurrentRound spinning d with
  | Some (g, currentRound_) =>
      let winningVotes :=
        findVotes (roundNumber currentRound_) (winningColor currentRound_) (voteDocs d) in
      match drawWinner u winningVotes with
      | Some winner_ =>
          mkDb (<[currentRound g := setRoundCompleted now winner_ currentRound_]> (roundDocs d))
               (voteDocs d) (participantDocs d)
               (Some (gameStateCompleted now winner_ g))
      | None => d
      end
  | None => d
  end.

(** [app.post("/api/verify-wallet")] (lines 402-456, 1188-1244); [valid] is
    the answer of [isValidSolanaAddress], [balance] of [getTokenBalance]. *)
Definition verifyWallet (minBalance : Z) (w : string) (valid : bool) (balance now : Z)
    (d : Db) : VerifyResponse * Db :=
  if decide (w = ""%string ∨ valid = false) then (VerifyInvalidAddress, d)
  else if decide (balance < minBalance) then (VerifyInsufficient balance, d)
  else (VerifyOk balance,
        mkDb (roundDocs d) (voteDocs d)
             (<[w := mkParticipant balance true now]> (participantDocs d))
             (currentGameState d)).

(** [app.post("/api/vote")] from the check of the body on (lines 463-523,
    1261-1321) *)
Definition castVote (w c : string) (now : Z) (d : Db) : VoteResponse * Db :=
  match (if decide (w = ""%string) then None else parseColor c) with
  | None => (VoteInvalidData, d)
  | Some col =>
      if negb (verified w (participantDocs d)) then (VoteNotVerified, d)
      else
        match currentGameState d with
        | None => (VoteServerError, d)
        | Some g =>
            match findVote w (currentRound g) (voteDocs d) with
            | Some existingVote => (VoteAlreadyVoted (color existingVote), d)
            | None =>
                match findCurrentRound voting d with
                | Some (_, currentRound_) =>
                    let r' := setRoundVote w col currentRound_ in
                    (VoteOk col (currentRound g) (votes r') (length (participants r')),
                     mkDb (<[currentRound g := r']> (roundDocs d))
                          (voteDocs d ++ [mkVote w (currentRound g) col now])
                          (participantDocs d) (currentGameState d))
                | None => (VoteNotActive, d)
                end
            end
        end
  end.

(** [app.post("/api/admin/set-prize")] (lines 550-584, 1345-1379) *)
Definition setPrize (p : Qc) (d : Db) : AdminResponse * Db :=
  if decide (p ≤ 0)%Qc then (AdminInvalid, d)
  else
    match currentGameState d with
    | None => (AdminServerError, d)
    | Some g =>
        match roundDocs d !! currentRound g with
        | Some currentRound_ =>
            (AdminOk, withRounds (<[currentRound g := setRoundPrize p currentRound_]>
                                    (roundDocs d)) d)
        | None => (AdminNotFound, d)
        end
    end.

(** [app.post("/api/admin/mark-paid")] (lines 587-616, 1382-1411) *)
Definition markPaid (n : Z) (d : Db) : AdminResponse * Db :=
  match roundDocs d !! n with
  | None => (AdminNotFound, d)
  | Some round =>
      if noWinner (winner round) then (AdminNotFound, d)
      else
        match currentGameState d with
        | None => (AdminServerError, d)
        | Some g => (AdminOk, withGameState (gameStatePaid (prizeAmount round) g) d)
        end
  end.

(** ** First variant (lines 1-727) *)
Module V1.

(** The database and the countdown [serverTimeLeft] *)
Record State := mkState {
  db : Db;
  serverTimeLeft : Qc
}.

(** The process before [server.listen], on an empty database:
    [currentGameState = null], [serverTimeLeft = 600]. *)
Definition initial : State := mkState emptyDb (Qc_of_Z 600).

(** The [gameState] part of [getCurrentGameData] *)
Record GameView := mkGameView {
  gv_currentRound : Z;
  gv_timeLeft : Qc;
  gv_totalPrizesGiven : Qc;
  gv_totalRoundsPlayed : Z;
  gv_lastWinner : option string;
  gv_lastPrizeAmount : Qc;
  gv_isActive : bool
}.

(** [getCurrentGameData()] (lines 153-196); [None] when [currentGameState]
    is [null] (the property read throws). *)
Definition getCurrentGameData (now : Z) (s : State) : option (GameView * RoundData) :=
  g ← currentGameState (db s);
  Some (mkGameView (currentRound g) (serverTimeLeft s) (totalPrizesGiven g)
          (totalRoundsPlayed g) (lastWinner g) (lastPrizeAmount g) (isActive g),
        roundDataOf now (roundDocs (db s) !! currentRound g)).

(** [ensureCurrentRound()] (lines 242-270): create the round numbered
    [currentGameState.currentRound] when there is none; reset it to voting,
    with an empty tally, when it exists in another status. *)
Definition ensureCurrentRound (now : Z) (d : Db) : Db :=
  match currentGameState d with
  | None => d
  | Some g =>
      match roundDocs d !! currentRound g with
      | None =>
          withRounds (<[currentRound g := newRound (currentRound g) now]> (roundDocs d)) d
      | Some existingRound =>
          if decide (status existingRound ≠ voting)
          then withRounds (<[currentRound g := setRoundVoting now existingRound]>
                             (roundDocs d)) d
          else d
      end
  end.

Section WithConfig.

Variable CONFIG : Config.

(** [startRoundTimer()] (lines 352-387), the part that runs at once:
    [serverTimeLeft = CONFIG.ROUND_DURATION / 1000]. *)
Definition startRoundTimer (s : State) : State :=
  mkState (db s) (Qc_of_Z (ROUND_DURATION CONFIG) / Qc_of_Z 1000)%Qc.

(** [initializeGameState()] (lines 228-240) *)
Definition initializeGameState (now : Z) (s : State) : State :=
  startRoundTimer (mkState (ensureCurrentRound now (loadGameState now (db s)))
                           (serverTimeLeft s)).

(** [endVotingPhase()] (lines 272-295) *)
Definition endVotingPhase (u : Q) (s : State) : State :=
  mkState (closeVoting u (db s)) (serverTimeLeft s).

(** [selectWinner()] (lines 297-343) *)
Definition selectWinner (now : Z) (u : Q) (s : State) : State :=
  mkState (completeRound now u (db s)) (serverTimeLeft s).

(** [startNextRound()] (lines 345-350); with [currentGameState = null]
    [ensureCurrentRound] throws and the timer is not started. *)
Definition startNextRound (now : Z) (s : State) : State :=
  match currentGameState (db s) with
  | None => s
  | Some _ => startRoundTimer (mkState (ensureCurrentRound now (db s)) (serverTimeLeft s))
  end.

(** The callback of [setInterval] in [startRoundTimer] (lines 365-384) *)
Definition timerTick (u : Q) (s : State) : State :=
  let s1 := mkState (db s) (Qcmax 0 (serverTimeLeft s - 1))%Qc in
  if decide (serverTimeLeft s1 ≤ 0)%Qc then endVotingPhase u s1 else s1.

(** [app.post("/api/vote")] (lines 459-547) *)
Definition apiVote (w c : string) (now : Z) (s : State) : VoteResponse * State :=
  let '(resp, d) := castVote w c now (db s) in (resp, mkState d (serverTimeLeft s)).

Definition onDb (f : Db → Db) (s : State) : State :=
  mkState (f (db s)) (serverTimeLeft s).

(** What can happen to the server *)
Inductive Event :=
| ServerStart (now : Z)                    (* the [server.listen] callback *)
| TimerTick (u : Q)                        (* the 1 s interval *)
| SelectWinnerTimeout (now : Z) (u : Q)    (* 3 s after [endVotingPhase] *)
| NextRoundTimeout (now : Z)               (* 5 s after [selectWinner] *)
| VerifyWallet (w : string) (valid : bool) (balance now : Z)
| CastVote (w c : string) (now : Z)
| SetPrize (p : Qc)
| MarkPaid (n : Z).

Definition step (e : Event) (s : State) : State :=
  match e with
  | ServerStart now => initializeGameState now s
  | TimerTick u => timerTick u s
  | SelectWinnerTimeout now u => selectWinner now u s
  | NextRoundTimeout now => startNextRound now s
  | VerifyWallet w valid balance now =>
      onDb (λ d, snd (verifyWallet (MIN_TOKEN_BALANCE CONFIG) w valid balance now d)) s
  | CastVote w c now => snd (apiVote w c now s)
  | SetPrize p => onDb (λ d, snd (setPrize p d)) s
  | MarkPaid n => onDb (λ d, snd (markPaid n d)) s
  end.

Definition goodEvent (e : Event) : Prop :=
  match e with
  | TimerTick u | SelectWinnerTimeout _ u => goodDraw u
  | _ => True
  end.

Definition run (es : list Event) (s : State) : State :=
  foldl (λ s e, step e s) s es.

(** States of a server started on an empty database *)
Inductive reachable : State → Prop :=
| reachable_initial : reachable initial
| reachable_step e s : reachable s → goodEvent e → reachable (step e s).

End WithConfig.

End V1.

(** ** Second variant (lines 729-1524) *)
Module V2.

(** [currentPhase]: ['voting'], ['spinning'] or ['results'] *)
Inductive Phase := phase_voting | phase_spinning | phase_results.

#[global] Instance Phase_eq_dec : EqDecision Phase.
Proof. solve_decision. Defined.

(** The database, [currentPhase] and [phaseTimeLeft] *)
Record State := mkState {
  db : Db;
  currentPhase : Phase;
  phaseTimeLeft : Z
}.

(** The process before [server.listen], on an empty database *)
Definition initial : State := mkState emptyDb phase_voting 0.

(** The [gameState] part of [getCurrentGameData] *)
Record GameView := mkGameView {
  gv_currentRound : Z;
  gv_timeLeft : Z;
  gv_currentPhase : Phase;
  gv_totalPrizesGiven : Qc;
  gv_totalRoundsPlayed : Z;
  gv_lastWinner : option string;
  gv_lastPrizeAmount : Qc;
  gv_isActive : bool
}.

(** [getCurrentGameData()] (lines 874-946), with the database at hand *)
Definition getCurrentGameData (now : Z) (s : State) : option (GameView * RoundData) :=
  g ← currentGameState (db s);
  Some (mkGameView (currentRound g) (phaseTimeLeft s) (currentPhase s)
          (totalPrizesGiven g) (totalRoundsPlayed g) (lastWinner g)
          (lastPrizeAmount g) (isActive g),
        roundDataOf now (roundDocs (db s) !! currentRound g)).

(** [ensureCurrentRound()] (lines 1007-1029): the round is created when
    [Round.findOne({ roundNumber, status: { $in: ["voting", "spinning"] } })]
    finds none.  When a completed round has the number, the unique index
    refuses the new document and the [catch] block drops the error; it
    also drops the [TypeError] of [currentGameState = null]. *)
Definition ensureCurrentRound (now : Z) (d : Db) : Db :=
  match currentGameState d with
  | None => d
  | Some g =>
      match roundDocs d !! currentRound g with
      | None =>
          withRounds (<[currentRound g := newRound (currentRound g) now]> (roundDocs d)) d
      | Some existingRound => d
      end
  end.

(** [startVerificationPhase()] (lines 1032-1060), the part that runs at once *)
Definition startVerificationPhase (s : State) : State :=
  mkState (db s) phase_voting 300.

(** [initializeGameState()] (lines 978-1005), with the database at hand *)
Definition initializeGameState (now : Z) (s : State) : State :=
  startVerificationPhase
    (mkState (ensureCurrentRound now (loadGameState now (db s)))
             (currentPhase s) (phaseTimeLeft s)).

(** [endVotingPhase()] (lines 1061-1098) *)
Definition endVotingPhase (u : Q) (s : State) : State :=
  mkState (closeVoting u (db s)) phase_spinning 5.

(** [performAutomaticSpin()] (lines 1100-1166) *)
Definition performAutomaticSpin (now : Z) (u : Q) (s : State) : State :=
  mkState (completeRound now u (db s)) phase_results 10.

(** [startNextRound()] (lines 1168-1173) *)
Definition startNextRound (now : Z) (s : State) : State :=
  startVerificationPhase
    (mkState (ensureCurrentRound now (db s)) (currentPhase s) (phaseTimeLeft s)).

(** The countdown of the spinning and results phases (lines 1083-1090,
    1151-1158): [phaseTimeLeft = Math.max(0, phaseTimeLeft - 1)] *)
Definition countdownTick (s : State) : State :=
  mkState (db s) (currentPhase s) (Z.max 0 (phaseTimeLeft s - 1)).

(** The countdown of the voting phase (lines 1044-1057) *)
Definition votingTick (u : Q) (s : State) : State :=
  let s1 := countdownTick s in
  if decide (phaseTimeLeft s1 ≤ 0) then endVotingPhase u s1 else s1.

(** [app.post("/api/vote")] (lines 1247-1342) *)
Definition apiVote (w c : string) (now : Z) (s : State) : VoteResponse * State :=
  if decide (currentPhase s ≠ phase_voting) then (VotePhaseClosed, s)
  else
    let '(resp, d) := castVote w c now (db s) in
    (resp, mkState d (currentPhase s) (phaseTimeLeft s)).

(** What can happen to the server *)
Inductive Event :=
| ServerStart (now : Z)                    (* the [server.listen] callback *)
| VotingTick (u : Q)                       (* the 1 s interval of voting *)
| CountdownTick                            (* the 1 s interval of the other phases *)
| SpinTimeout (now : Z) (u : Q)            (* 5 s after [endVotingPhase] *)
| NextRoundTimeout (now : Z)               (* 10 s after [performAutomaticSpin] *)
| VerifyWallet (w : string) (valid : bool) (balance now : Z)
| CastVote (w c : string) (now : Z)
| SetPrize (p : Qc)
| MarkPaid (n : Z).

Definition onDb (f : Db → Db) (s : State) : State :=
  mkState (f (db s)) (currentPhase s) (phaseTimeLeft s).

Section WithConfig.

Variable CONFIG : Config.

Definition step (e : Event) (s : State) : State :=
  match e with
  | ServerStart now => initializeGameState now s
  | VotingTick u => votingTick u s
  | CountdownTick => countdownTick s
  | SpinTimeout now u => performAutomaticSpin now u s
  | NextRoundTimeout now => startNextRound now s
  | VerifyWallet w valid balance now =>
      onDb (λ d, snd (verifyWallet (MIN_TOKEN_BALANCE CONFIG) w valid balance now d)) s
  | CastVote w c now => snd (apiVote w c now s)
  | SetPrize p => onDb (λ d, snd (setPrize p d)) s
  | MarkPaid n => onDb (λ d, snd (markPaid n d)) s
  end.

Definition goodEvent (e : Event) : Prop :=
  match e with
  | VotingTick u | SpinTimeout _ u => goodDraw u
  | _ => True
  end.

Definition run (es : list Event) (s : State) : State :=
  foldl (λ s e, step e s) s es.

(** States of a server started on an empty database *)
Inductive reachable : State → Prop :=
| reachable_initial : reachable initial
| reachable_step e s : reachable s → goodEvent e → reachable (step e s).

End WithConfig.

End V2.

(** ** What holds of the database in every state the server reaches *)

Record Inv (d : Db) : Prop := mkInv {
  (* a round document is stored under its own number *)
  inv_keyed : ∀ k r, roundDocs d !! k = Some r → roundNumber r = k;
  (* rounds exist only once the aggregate does, up to its current round *)
  inv_bounded : ∀ k r, roundDocs d !! k = Some r →
                ∃ g, currentGameState d = Some g ∧ k ≤ currentRound g;
  (* a vote comes from a verified, non-empty wallet *)
  inv_votes : ∀ v, v ∈ voteDocs d →
              walletAddress v ≠ ""%string
              ∧ verified (walletAddress v) (participantDocs d) = true;
  (* one vote per wallet and round *)
  inv_unique : ∀ v v', v ∈ voteDocs d → v' ∈ voteDocs d →
               walletAddress v = walletAddress v' → roundId v = roundId v' → v = v';
  (* a stored winner is the wallet of a vote *)
  inv_winner : ∀ k r w, roundDocs d !! k = Some r → winner r = Some w →
               ∃ v, v ∈ voteDocs d ∧ walletAddress v = w
}.

(** A completed round lies before the current one, and its winner is absent
    when no vote of the round has the winning colour, else the wallet of
    such a vote. *)
Definition winnerOk (votesOfDb : list Vote) (r : Round) : Prop :=
  match winner r with
  | None => findVotes (roundNumber r) (winningColor r) votesOfDb = []
  | Some w => ∃ v, v ∈ findVotes (roundNumber r) (winningColor r) votesOfDb
                 ∧ walletAddress v = w
  end.

Definition CompletedOk (d : Db) : Prop :=
  ∀ k r, roundDocs d !! k = Some r → status r = completed →
    (∃ g, currentGameState d = Some g ∧ k < currentRound g) ∧ winnerOk (voteDocs d) r.

(** ** The checks of [/api/vote], one by one

    Each check answers [None] when it passes and the rejection when it
    fails. *)

(** [!walletAddress || !color || !["red", "black"].includes(color)]
    (lines 463, 1261) *)
Definition checkData (w c : string) : option VoteResponse :=
  if decide (w = ""%string ∨ parseColor c = None) then Some VoteInvalidData else None.

(** [if (!participant)] (lines 476, 1274) *)
Definition checkVerified (w : string) (d : Db) : option VoteResponse :=
  if verified w (participantDocs d) then None else Some VoteNotVerified.

(** [if (existingVote)] (lines 489, 1287); reading
    [currentGameState.currentRound] for the query throws when the aggregate
    is not loaded. *)
Definition checkDuplicate (w : string) (d : Db) : option VoteResponse :=
  match currentGameState d with
  | None => Some VoteServerError
  | Some g => (λ v, VoteAlreadyVoted (color v)) <$> findVote w (currentRound g) (voteDocs d)
  end.

(** [if (!currentRound)] (lines 503, 1301) *)
Definition checkRound (d : Db) : option VoteResponse :=
  match findCurrentRound voting d with
  | Some _ => None
  | None => Some VoteNotActive
  end.

(** [if (currentPhase !== 'voting')] (line 1252), second variant only *)
Definition checkPhase (s : V2.State) : option VoteResponse :=
  if decide (V2.currentPhase s ≠ V2.phase_voting) then Some VotePhaseClosed else None.

(** The rejection of the first check that fails *)
Fixpoint firstFailure (checks : list (option VoteResponse)) : option VoteResponse :=
  match checks with
  | [] => None
  | Some r :: _ => Some r
  | None :: rest => firstFailure rest
  end.

(** The order the spec gives: the round is the active one and in voting,
    then the category is valid, then the voter has not voted yet. *)
Definition claimedVoteChecks (w c : string) (d : Db) : list (option VoteResponse) :=
  [checkRound d; checkData w c; checkDuplicate w d].

(** The order of the first variant (lines 463-508) *)
Definition V1_voteChecks (w c : string) (s : V1.State) : list (option VoteResponse) :=
  [checkData w c; checkVerified w (V1.db s); checkDuplicate w (V1.db s); checkRound (V1.db s)].

(** The order of the second variant (lines 1252-1306) *)
Definition V2_voteChecks (w c : string) (s : V2.State) : list (option VoteResponse) :=
  [checkPhase s; checkData w c; checkVerified w (V2.db s); checkDuplicate w (V2.db s);
   checkRound (V2.db s)].

(** The [2 * n] equally spaced values [k / (2 * n)] of [0, 1) *)
Definition evenDraws (n : nat) : list Q :=
  (λ k, Z.of_nat k # Pos.of_nat (2 * n)) <$> seq 0 (2 * n).

(** ** Counts of votes *)


(** The number of votes of a round for a colour *)
Definition countVotes (rid : Z) (c : Color) (l : list Vote) : Z :=
  Z.of_nat (length (findVotes rid (Some c) l)).


(** ** The writes of the handlers, one at a time

    Every handler leaves the database as it is or does one of the writes
    below ([initializeGameState] may do two: the aggregate, then the
    round).  [reset] tells whether the reset of a round to voting, which
    only [ensureCurrentRound] of the first variant does, is among them. *)
Inductive dbMove (reset : bool) : Db → Db → Prop :=
| move_load now d :
    currentGameState d = None →
    dbMove reset d (withGameState (newGameState now) d)
| move_create now d g :
    currentGameState d = Some g → roundDocs d !! currentRound g = None →
    dbMove reset d
      (withRounds (<[currentRound g := newRound (currentRound g) now]> (roundDocs d)) d)
| move_reset now d g r :
    reset = true →
    currentGameState d = Some g → roundDocs d !! currentRound g = Some r →
    status r ≠ voting →
    dbMove reset d (withRounds (<[currentRound g := setRoundVoting now r]> (roundDocs d)) d)
| move_close c d g r :
    findCurrentRound voting d = Some (g, r) →
    dbMove reset d (withRounds (<[currentRound g := setRoundSpinning c r]> (roundDocs d)) d)
| move_complete now w d g r :
    findCurrentRound spinning d = Some (g, r) →
    winnerOk (voteDocs d) (setRoundCompleted now w r) →
    dbMove reset d
      (mkDb (<[currentRound g := setRoundCompleted now w r]> (roundDocs d))
            (voteDocs d) (participantDocs d) (Some (gameStateCompleted now w g)))
| move_vote w col now d g r :
    w ≠ ""%string → verified w (participantDocs d) = true →
    findVote w (currentRound g) (voteDocs d) = None →
    findCurrentRound voting d = Some (g, r) →
    dbMove reset d
      (mkDb (<[currentRound g := setRoundVote w col r]> (roundDocs d))
            (voteDocs d ++ [mkVote w (currentRound g) col now])
            (participantDocs d) (currentGameState d))
| move_prize p d g r :
    (0 < p)%Qc →
    currentGameState d = Some g → roundDocs d !! currentRound g = Some r →
    dbMove reset d (withRounds (<[currentRound g := setRoundPrize p r]> (roundDocs d)) d)
| move_paid n d g r :
    roundDocs d !! n = Some r → noWinner (winner r) = false →
    currentGameState d = Some g →
    dbMove reset d (withGameState (gameStatePaid (prizeAmount r) g) d)
| move_verify w balance now d :
    w ≠ ""%string →
    dbMove reset d
      (mkDb (roundDocs d) (voteDocs d)
            (<[w := mkParticipant balance true now]> (participantDocs d))
            (currentGameState d)).

(** No write or one *)
Definition dbMove01 (reset : bool) (d d' : Db) : Prop := d' = d ∨ dbMove reset d d'.

(** ** More of what holds in every state the server reaches *)

(** The numbering of the rounds *)
Record Numbered (d : Db) : Prop := mkNumbered {
  (* nothing is stored before the aggregate *)
  num_fresh : currentGameState d = None → voteDocs d = [];
  (* the current round is at least 1 and counts the rounds played *)
  num_pos : ∀ g, currentGameState d = Some g →
            1 ≤ currentRound g ∧ totalRoundsPlayed g = currentRound g - 1;
  (* round numbers start at 1 *)
  num_keys : ∀ k r, roundDocs d !! k = Some r → 1 ≤ k;
  (* every round before the current one exists and is completed *)
  num_below : ∀ g k, currentGameState d = Some g → 1 ≤ k < currentRound g →
              ∃ r, roundDocs d !! k = Some r ∧ status r = completed;
  (* the last winner is that of the round before the current one *)
  num_last : ∀ g, currentGameState d = Some g →
             if decide (currentRound g = 1) then lastWinner g = None
             else ∃ r, roundDocs d !! (currentRound g - 1) = Some r
                     ∧ lastWinner g = winner r;
  (* a vote belongs to a stored round *)
  num_votes : ∀ v, v ∈ voteDocs d → is_Some (roundDocs d !! roundId v)
}.

(** The tally and the participants of a round stored under [k], against
    the votes [l]: each count is at most the number of votes of the round
    for the colour, the participants are distinct voters of the round, as
    many as the two counts together, and the prize is not negative. *)
Definition roundLedger (k : Z) (l : list Vote) (r : Round) : Prop :=
  0 ≤ red (votes r) ≤ countVotes k Red l
  ∧ 0 ≤ black (votes r) ≤ countVotes k Black l
  ∧ NoDup (participants r)
  ∧ Z.of_nat (length (participants r)) = red (votes r) + black (votes r)
  ∧ (∀ w, w ∈ participants r → ∃ v, v ∈ l ∧ walletAddress v = w ∧ roundId v = k)
  ∧ (0 ≤ prizeAmount r)%Qc.

Record Ledger (d : Db) : Prop := mkLedger {
  led_rounds : ∀ k r, roundDocs d !! k = Some r → roundLedger k (voteDocs d) r;
  led_total : ∀ g, currentGameState d = Some g →
              (0 ≤ totalPrizesGiven g)%Qc ∧ (0 ≤ lastPrizeAmount g)%Qc
}.


(** The two invariants of the claims together *)
Definition Sound (d : Db) : Prop := Inv d ∧ CompletedOk d.

(** What identifies a vote: [(walletAddress, roundId)] *)
Definition voteKey (v : Vote) : string * Z := (walletAddress v, roundId v).

(** All the invariants together *)
Definition Healthy (d : Db) : Prop :=
  Sound d ∧ Numbered d ∧ Ledger d ∧ NoDup (voteKey <$> voteDocs d).




(** The last payment is part of the total paid. *)
Definition PaidWithin (d : Db) : Prop :=
  ∀ g, currentGameState d = Some g → (lastPrizeAmount g ≤ totalPrizesGiven g)%Qc.

(** The seconds each phase of the second variant starts with (lines 1034,
    1063, 1102) *)
Definition phaseWindow (ph : V2.Phase) : Z :=
  match ph with
  | V2.phase_voting => 300
  | V2.phase_spinning => 5
  | V2.phase_results => 10
  end.

(** * The handlers await by await

    The handlers of [src/server.js] are [async] functions: each [await] of
    a database call lets other handlers and timer callbacks run.  The
    module [Live] follows the source at that grain.  A handler in flight
    is a task: the database operation it awaits, not yet executed, or the
    result of that operation, not yet taken up by the code after the
    [await].  The in-memory variables of the process ([currentGameState],
    [serverTimeLeft], [currentPhase], [phaseTimeLeft]) are apart from the
    database, and a restart of the process clears them and leaves the
    database as it is.

    What is taken from mongoose and MongoDB:
    - one database operation is atomic;
    - [doc.save()] writes the paths the handler assigned, with the values
      assigned, to the stored document of the same [_id]:
      [votes[color] += 1] sets that one count, [participants.push(w)] is a
      [$push];
    - an operation may fail (the promise rejects) without being applied,
      be it the database that fails it or mongoose that refuses it, as it
      does for a second [save()] of a document while one is under way;
    - saving a round whose [roundNumber] is taken fails (unique index);
    - an operation sent by a process that has gone may still be applied;
    - the save of a document that is not stored writes nothing (mongoose
      inserts the aggregate whose first save has failed: no statement
      below is about the stored aggregate in that case).

    The timers are not followed: the callback of a timer may run at any
    time, also where the source has not set it or has cleared it, and a
    call may fail or the process be started again at any step.  The runs
    of the source are among the runs of [Live], so that what holds of
    every run of [Live] holds of them; the runs given as examples keep to
    the order of the timers of the source.

    JavaScript numbers are binary64 floating point numbers: amounts and
    random draws are [float]s.  Counters, round numbers and dates stay
    integers, and the countdown of the first variant a rational, as in
    [V1]. *)

(** ** JavaScript numbers *)

(** [!x] for a number: zero and [NaN] are falsy *)
Definition jsFalsy (x : float) : bool := PrimFloat.eqb x 0 || PrimFloat.is_nan x.

(** [Math.floor(x)], for a finite [x] *)
Definition floatFloor (x : float) : option Z :=
  match Prim2SF x with
  | S754_zero _ => Some 0
  | S754_finite s m e =>
      if decide (0 ≤ e) then Some ((if s then -1 else 1) * (Z.pos m * 2 ^ e))
      else Some ((if s then Z.neg m else Z.pos m) `div` 2 ^ (- e))
  | _ => None
  end.

(** The length of an array as a number *)
Definition floatOfNat (n : nat) : float := PrimFloat.of_uint63 (Uint63.of_Z (Z.of_nat n)).

(** [Math.random()] gives a number of [0, 1). *)
Definition goodFloat (u : float) : Prop := PrimFloat.leb 0 u && PrimFloat.ltb u 1 = true.

Module Live.

(** Which of the two servers of the source file *)
Inductive Variant := First | Second.

#[global] Instance Variant_eq_dec : EqDecision Variant.
Proof. solve_decision. Defined.

(** ** Documents *)

(** [roundSchema] (lines 89-106, 807-824) *)
Record Round := mkRound {
  roundNumber : Z;
  status : Status;
  startTime : Z;
  endTime : option Z;
  votes : Tally;
  participants : list string;
  winningColor : option Color;
  winner : option string;
  prizeAmount : float
}.

(** [gameStateSchema] (lines 108-117, 826-835) and the object of the same
    fields that the second variant makes up when the database fails *)
Record GameState := mkGameState {
  currentRound : Z;
  totalPrizesGiven : float;
  lastWinner : option string;
  lastPrizeAmount : float;
  isActive : bool;
  totalRoundsPlayed : Z;
  lastUpdated : Z
}.

(** [Math.random() < 0.5 ? "red" : "black"] *)
Definition chooseColor (u : float) : Color :=
  if PrimFloat.ltb u 0.5 then Red else Black.

(** [Math.floor(Math.random() * winningVotes.length)] *)
Definition randomIndex (u : float) (len : nat) : option Z :=
  floatFloor (u * floatOfNat len).

(** The draw of the winner: [null] for no winning vote, else the wallet at
    the random index; the outer [None] is the [TypeError] of reading
    [.walletAddress] of [undefined]. *)
Definition drawWinner (u : float) (winningVotes : list Vote) : option (option string) :=
  match winningVotes with
  | [] => Some None
  | _ => i ← randomIndex u (length winningVotes);
         v ← nthZ winningVotes i;
         Some (Some (walletAddress v))
  end.

(** The count of a colour in a tally, and a tally with one count replaced *)
Definition count (c : Color) (t : Tally) : Z :=
  match c with Red => red t | Black => black t end.

Definition setCount (c : Color) (n : Z) (t : Tally) : Tally :=
  match c with
  | Red => mkTally n (black t)
  | Black => mkTally (red t) n
  end.

(** [new Round({ roundNumber, status: "voting", startTime, prizeAmount: 0 })] *)
Definition newRound (n now : Z) : Round :=
  mkRound n voting now None (mkTally 0 0) [] None None 0.

(** [new GameState({ currentRound: 1, totalPrizesGiven: 0 })] (lines 231-234,
    981-984), and the object of the demo mode (lines 994-1002) *)
Definition newGameState (now : Z) : GameState :=
  mkGameState 1 0 None 0 true 0 now.

(** ** The database *)

Record Store := mkStore {
  gameStateDocs : list (Z * GameState);   (* by [_id], in insertion order *)
  roundDocs : gmap Z Round;
  voteDocs : list Vote;
  participantDocs : gmap string Participant
}.

Definition emptyStore : Store := mkStore [] ∅ [] ∅.

(** The paths a handler assigns on a round before [save()] *)
Inductive RoundWrite :=
| WriteSpinning (c : Color)                      (* lines 282-284, 1074-1076 *)
| WriteCompleted (w : option string) (now : Z)   (* lines 320-323, 1130-1133 *)
| WriteReset (now : Z)                           (* lines 261-265 *)
| WriteVote (c : Color) (n : Z) (push : option string)   (* lines 519-523, 1317-1321 *)
| WritePrize (p : float).                        (* lines 566-567, 1361-1362 *)

Definition applyRoundWrite (w : RoundWrite) (r : Round) : Round :=
  match w with
  | WriteSpinning c =>
      mkRound (roundNumber r) spinning (startTime r) (endTime r) (votes r)
              (participants r) (Some c) (winner r) (prizeAmount r)
  | WriteCompleted w now =>
      mkRound (roundNumber r) completed (startTime r) (Some now) (votes r)
              (participants r) (winningColor r) w (prizeAmount r)
  | WriteReset now =>
      mkRound (roundNumber r) voting now (endTime r) (mkTally 0 0) []
              (winningColor r) (winner r) (prizeAmount r)
  | WriteVote c n push =>
      mkRound (roundNumber r) (status r) (startTime r) (endTime r)
              (setCount c n (votes r))
              (match push with Some w => participants r ++ [w] | None => participants r end)
              (winningColor r) (winner r) (prizeAmount r)
  | WritePrize p =>
      mkRound (roundNumber r) (status r) (startTime r) (endTime r) (votes r)
              (participants r) (winningColor r) (winner r) p
  end.

(** The paths a handler assigns on the aggregate before [save()] *)
Inductive GameWrite :=
| WriteCompletion (w : option string) (current played now : Z)   (* lines 326-330 *)
| WritePaid (total last : float).                               (* lines 601-603 *)

Definition applyGameWrite (w : GameWrite) (g : GameState) : GameState :=
  match w with
  | WriteCompletion w current played now =>
      mkGameState current (totalPrizesGiven g) w (lastPrizeAmount g) (isActive g) played now
  | WritePaid total last =>
      mkGameState (currentRound g) total (lastWinner g) last (isActive g)
                  (totalRoundsPlayed g) (lastUpdated g)
  end.

(** The awaited calls.  [TokenBalance] is [getTokenBalance], which asks
    the Solana node and not the database. *)
Inductive DbOp :=
| FindGameState
| InsertGameState (id : Z) (g : GameState)
| SaveGameState (id : Z) (w : GameWrite)
| FindRound (n : Z) (sts : list Status)
| InsertRound (r : Round)
| SaveRound (n : Z) (w : RoundWrite)
| FindParticipant (w : string)
| UpsertParticipant (w : string) (p : Participant)
| FindVote (w : string) (rid : Z)
| InsertVote (v : Vote)
| FindVotes (rid : Z) (c : option Color)
| TokenBalance (balance : Z).

Inductive DbResult :=
| Failed
| Saved
| FoundGameState (o : option (Z * GameState))
| FoundRound (o : option Round)
| FoundParticipant (o : option Participant)
| FoundVote (o : option Vote)
| FoundVotes (l : list Vote)
| Balance (b : Z).

Definition saveGameStateDoc (id : Z) (w : GameWrite) (d : Z * GameState) : Z * GameState :=
  if decide (fst d = id) then (fst d, applyGameWrite w (snd d)) else d.

(** One operation on the database *)
Definition exec (op : DbOp) (st : Store) : Store * DbResult :=
  match op with
  | FindGameState => (st, FoundGameState (head (gameStateDocs st)))
  | InsertGameState id g =>
      (mkStore (gameStateDocs st ++ [(id, g)]) (roundDocs st) (voteDocs st)
               (participantDocs st), Saved)
  | SaveGameState id w =>
      (mkStore (saveGameStateDoc id w <$> gameStateDocs st) (roundDocs st) (voteDocs st)
               (participantDocs st), Saved)
  | FindRound n sts =>
      (st, FoundRound (r ← roundDocs st !! n; if decide (status r ∈ sts) then Some r else None))
  | InsertRound r =>
      match roundDocs st !! roundNumber r with
      | Some _ => (st, Failed)
      | None =>
          (mkStore (gameStateDocs st) (<[roundNumber r := r]> (roundDocs st)) (voteDocs st)
                   (participantDocs st), Saved)
      end
  | SaveRound n w =>
      (mkStore (gameStateDocs st) (alter (applyRoundWrite w) n (roundDocs st)) (voteDocs st)
               (participantDocs st), Saved)
  | FindParticipant w =>
      (st, FoundParticipant (p ← participantDocs st !! w;
                             if isVerified p then Some p else None))
  | UpsertParticipant w p =>
      (mkStore (gameStateDocs st) (roundDocs st) (voteDocs st)
               (<[w := p]> (participantDocs st)), Saved)
  | FindVote w rid => (st, FoundVote (findVote w rid (voteDocs st)))
  | InsertVote v =>
      (mkStore (gameStateDocs st) (roundDocs st) (voteDocs st ++ [v]) (participantDocs st),
       Saved)
  | FindVotes rid c => (st, FoundVotes (findVotes rid c (voteDocs st)))
  | TokenBalance balance => (st, Balance balance)
  end.

(** What the awaiting code gets when the call fails: the rejection, but 0
    from [getTokenBalance], which catches its own errors (lines 212-215). *)
Definition failure (op : DbOp) : DbResult :=
  match op with
  | TokenBalance _ => Balance 0
  | _ => Failed
  end.

(** ** The process *)

(** The variables of lines 126-130 and 844-851 *)
Record Mem := mkMem {
  currentGameState : option GameState;
  documentId : option Z;     (* [_id] of [currentGameState]; none for the demo object *)
  serverTimeLeft : Qc;
  currentPhase : V2.Phase;
  phaseTimeLeft : Z
}.

Definition withGameState (g : GameState) (m : Mem) : Mem :=
  mkMem (Some g) (documentId m) (serverTimeLeft m) (currentPhase m) (phaseTimeLeft m).

Definition withPhase (ph : V2.Phase) (t : Z) (m : Mem) : Mem :=
  mkMem (currentGameState m) (documentId m) (serverTimeLeft m) ph t.

(** Answers of the routes; [VerifyServerError] is the 500 of verify-wallet. *)
Inductive Answer :=
| AnswerVote (r : VoteResponse)
| AnswerVerify (r : VerifyResponse)
| AnswerAdmin (r : AdminResponse)
| VerifyServerError.

(** Where a handler in flight stands: the call it awaits, with the local
    variables the code after the [await] uses. *)
Inductive Stage :=
(* initializeGameState *)
| InitFind (oid now : Z)
| InitInsert (oid : Z) (g : GameState) (now : Z)
(* ensureCurrentRound, followed by the start of the countdown *)
| EnsureFind (n now : Z)
| EnsureInsert (r : Round)
| EnsureReset (n now : Z)
(* endVotingPhase *)
| EndFind (n : Z) (u : float)
| EndSave (n : Z) (c : Color)
(* selectWinner, performAutomaticSpin *)
| SpinFind (n now : Z) (u : float)
| SpinVotes (r : Round) (now : Z) (u : float)
| SpinSaveRound (n : Z) (w : option string) (now : Z)
| SpinSaveState (id : Z) (wr : GameWrite)
(* /api/verify-wallet *)
| VerifyBalance (w : string) (balance now : Z)
| VerifyUpsert (w : string) (balance now : Z)
(* /api/vote *)
| VoteParticipant (w : string) (c : Color) (now : Z)
| VoteExisting (w : string) (c : Color) (now n : Z)
| VoteRound (w : string) (c : Color) (now n : Z)
| VoteInsert (w : string) (c : Color) (r : Round) (v : Vote)
| VoteSave (c : Color) (r : Round) (w : RoundWrite)
(* /api/admin/set-prize *)
| PrizeFind (n : Z) (p : float)
| PrizeSave (n : Z) (p : float)
(* /api/admin/mark-paid *)
| PaidFind (n : Z)
| PaidSave (id : Z) (wr : GameWrite)
(* an operation sent by a process that has gone *)
| Orphan (op : DbOp).

Inductive Task :=
| Pending (s : Stage)                  (* the call is not yet executed *)
| Ready (res : DbResult) (s : Stage).  (* its result is not yet taken up *)

(** What the code does after an [await]: go on to the next one, or end,
    with the answer of a route. *)
Inductive Next :=
| Await (s : Stage)
| Finish (a : option Answer).

(** What starts a handler *)
Inductive Request :=
| TimerTick (u : float)                           (* the 1 s interval of the voting *)
| CountdownTick                                   (* the intervals of lines 1083, 1151 *)
| SelectWinnerTimeout (now : Z) (u : float)       (* lines 292, 1095 *)
| NextRoundTimeout (now : Z)                      (* lines 340, 1163 *)
| VerifyWallet (w : string) (valid : bool) (balance now : Z)
| CastVote (w c : string) (now : Z)
| SetPrize (p : float)
| MarkPaid (n : Z).

Section WithConfig.

Variable variant : Variant.
Variable CONFIG : Config.

(** The statuses [ensureCurrentRound] looks for: any in the first variant
    (line 244), voting or spinning in the second (line 1011) *)
Definition ensureStatuses : list Status :=
  match variant with
  | First => [voting; spinning; completed]
  | Second => [voting; spinning]
  end.

(** The call a stage awaits *)
Definition opOf (s : Stage) : DbOp :=
  match s with
  | InitFind _ _ => FindGameState
  | InitInsert oid g _ => InsertGameState oid g
  | EnsureFind n _ => FindRound n ensureStatuses
  | EnsureInsert r => InsertRound r
  | EnsureReset n now => SaveRound n (WriteReset now)
  | EndFind n _ => FindRound n [voting]
  | EndSave n c => SaveRound n (WriteSpinning c)
  | SpinFind n _ _ => FindRound n [spinning]
  | SpinVotes r _ _ => FindVotes (roundNumber r) (winningColor r)
  | SpinSaveRound n w now => SaveRound n (WriteCompleted w now)
  | SpinSaveState id wr => SaveGameState id wr
  | VerifyBalance _ balance _ => TokenBalance balance
  | VerifyUpsert w balance now => UpsertParticipant w (mkParticipant balance true now)
  | VoteParticipant w _ _ => FindParticipant w
  | VoteExisting w _ _ n => FindVote w n
  | VoteRound _ _ _ n => FindRound n [voting]
  | VoteInsert _ _ _ v => InsertVote v
  | VoteSave _ r w => SaveRound (roundNumber r) w
  | PrizeFind n _ => FindRound n [voting; spinning; completed]
  | PrizeSave n p => SaveRound n (WritePrize p)
  | PaidFind n => FindRound n [voting; spinning; completed]
  | PaidSave id wr => SaveGameState id wr
  | Orphan op => op
  end.

(** The variables as the module is loaded *)
Definition initialMem : Mem :=
  match variant with
  | First => mkMem None None (Qc_of_Z 600) V2.phase_voting 0
  | Second => mkMem None None 0%Qc V2.phase_voting 0
  end.

(** [startRoundTimer()] (lines 352-387) and [startVerificationPhase()]
    (lines 1032-1060), the part that runs at once *)
Definition startTimer (m : Mem) : Mem :=
  match variant with
  | First =>
      mkMem (currentGameState m) (documentId m)
            (Qc_of_Z (ROUND_DURATION CONFIG) / Qc_of_Z 1000)%Qc
            (currentPhase m) (phaseTimeLeft m)
  | Second => withPhase V2.phase_voting 300 m
  end.

(** The end of a handler of the timers that threw: in the first variant
    the promise rejects and the caller stops; in the second
    [ensureCurrentRound] catches (line 1026) and its caller goes on to
    [startVerificationPhase()]. *)
Definition afterEnsureFailed (m : Mem) : Mem * Next :=
  match variant with
  | First => (m, Finish None)
  | Second => (startTimer m, Finish None)
  end.

(** [await ensureCurrentRound(); startRoundTimer()] up to its first
    [await] (lines 238-239, 243-245, 346-347; 989-990, 1008-1012,
    1169-1170) *)
Definition ensureCurrentRound (now : Z) (m : Mem) : Mem * Next :=
  match currentGameState m with
  | None => afterEnsureFailed m
  | Some g => (m, Await (EnsureFind (currentRound g) now))
  end.

(** The [catch] block of [initializeGameState] in the second variant
    (lines 991-1003); the first has none. *)
Definition afterInitFailed (now : Z) (m : Mem) : Mem * Next :=
  match variant with
  | First => (m, Finish None)
  | Second =>
      (startTimer (mkMem (Some (newGameState now)) None (serverTimeLeft m)
                         (currentPhase m) (phaseTimeLeft m)),
       Finish None)
  end.

(** [endVotingPhase()] up to its first [await] (lines 273-276, 1062-1068) *)
Definition endVotingPhase (u : float) (m : Mem) : Mem * Next :=
  let m1 := match variant with
            | First => m
            | Second => withPhase V2.phase_spinning 5 m
            end in
  match currentGameState m1 with
  | None => (m1, Finish None)
  | Some g => (m1, Await (EndFind (currentRound g) u))
  end.

(** The aggregate after [selectWinner] (lines 326-329, 1136-1139) and after
    mark-paid (lines 601-602, 1396-1397) *)
Definition gameStateCompleted (now : Z) (w : option string) (g : GameState) : GameState :=
  mkGameState (currentRound g + 1) (totalPrizesGiven g) w (lastPrizeAmount g)
              (isActive g) (totalRoundsPlayed g + 1) now.

Definition gameStatePaid (p : float) (g : GameState) : GameState :=
  mkGameState (currentRound g) (totalPrizesGiven g + p)%float (lastWinner g) p
              (isActive g) (totalRoundsPlayed g) (lastUpdated g).

(** [currentRound.votes[color] += 1; if (!participants.includes(w))
    participants.push(w)] on the round document the handler holds *)
Definition voteWrite (w : string) (c : Color) (r : Round) : RoundWrite :=
  WriteVote c (count c (votes r) + 1)
            (if decide (w ∈ participants r) then None else Some w).

Definition answer (a : Answer) : Next := Finish (Some a).

(** The code that starts a handler, up to its first [await] *)
Definition arrive (r : Request) (m : Mem) : Mem * Next :=
  match r with
  | TimerTick u =>
      match variant with
      | First =>
          (* lines 365-384 *)
          let m1 := mkMem (currentGameState m) (documentId m)
                          (Qcmax 0 (serverTimeLeft m - 1))%Qc
                          (currentPhase m) (phaseTimeLeft m) in
          if decide (serverTimeLeft m1 ≤ 0)%Qc then endVotingPhase u m1
          else (m1, Finish None)
      | Second =>
          (* lines 1044-1057 *)
          let m1 := withPhase (currentPhase m) (Z.max 0 (phaseTimeLeft m - 1)) m in
          if decide (phaseTimeLeft m1 ≤ 0) then endVotingPhase u m1
          else (m1, Finish None)
      end
  | CountdownTick =>
      match variant with
      | First => (m, Finish None)
      | Second =>
          (withPhase (currentPhase m) (Z.max 0 (phaseTimeLeft m - 1)) m, Finish None)
      end
  | SelectWinnerTimeout now u =>
      (* lines 298-301, 1101-1107 *)
      let m1 := match variant with
                | First => m
                | Second => withPhase V2.phase_results 10 m
                end in
      match currentGameState m1 with
      | None => (m1, Finish None)
      | Some g => (m1, Await (SpinFind (currentRound g) now u))
      end
  | NextRoundTimeout now => ensureCurrentRound now m
  | VerifyWallet w valid balance now =>
      (* lines 403-415, 1189-1201 *)
      if decide (w = ""%string ∨ valid = false)
      then (m, answer (AnswerVerify VerifyInvalidAddress))
      else (m, Await (VerifyBalance w balance now))
  | CastVote w c now =>
      (* lines 460-474, 1248-1272 *)
      if decide (variant = Second ∧ currentPhase m ≠ V2.phase_voting)
      then (m, answer (AnswerVote VotePhaseClosed))
      else
        match (if decide (w = ""%string) then None else parseColor c) with
        | None => (m, answer (AnswerVote VoteInvalidData))
        | Some col => (m, Await (VoteParticipant w col now))
        end
  | SetPrize p =>
      (* lines 551-563, 1346-1358 *)
      if jsFalsy p || PrimFloat.leb p 0 then (m, answer (AnswerAdmin AdminInvalid))
      else
        match currentGameState m with
        | None => (m, answer (AnswerAdmin AdminServerError))
        | Some g => (m, Await (PrizeFind (currentRound g) p))
        end
  | MarkPaid n => (m, Await (PaidFind n))   (* lines 588-591, 1383-1386 *)
  end.

(** The code after an [await], up to the next one *)
Definition resume (s : Stage) (res : DbResult) (m : Mem) : Mem * Next :=
  match s with
  | InitFind oid now =>
      (* lines 229-238, 979-989 *)
      match res with
      | FoundGameState (Some (id, g)) =>
          ensureCurrentRound now (mkMem (Some g) (Some id) (serverTimeLeft m)
                                        (currentPhase m) (phaseTimeLeft m))
      | FoundGameState None =>
          (mkMem (Some (newGameState now)) (Some oid) (serverTimeLeft m)
                 (currentPhase m) (phaseTimeLeft m),
           Await (InitInsert oid (newGameState now) now))
      | _ => afterInitFailed now m
      end
  | InitInsert _ _ now =>
      match res with
      | Saved => ensureCurrentRound now m
      | _ => afterInitFailed now m
      end
  | EnsureFind _ now =>
      (* lines 247-267, 1014-1025 *)
      match res with
      | FoundRound None =>
          match currentGameState m with
          | Some g => (m, Await (EnsureInsert (newRound (currentRound g) now)))
          | None => afterEnsureFailed m
          end
      | FoundRound (Some existingRound) =>
          match variant with
          | First =>
              if decide (status existingRound ≠ voting)
              then (m, Await (EnsureReset (roundNumber existingRound) now))
              else (startTimer m, Finish None)
          | Second => (startTimer m, Finish None)
          end
      | _ => afterEnsureFailed m
      end
  | EnsureInsert _ | EnsureReset _ _ =>
      match res with
      | Saved => (startTimer m, Finish None)
      | _ => afterEnsureFailed m
      end
  | EndFind _ u =>
      (* lines 278-284, 1070-1076 *)
      match res with
      | FoundRound (Some currentRound_) =>
          (m, Await (EndSave (roundNumber currentRound_) (chooseColor u)))
      | _ => (m, Finish None)
      end
  | EndSave _ _ => (m, Finish None)
  | SpinFind _ now u =>
      (* lines 303-311, 1109-1119 *)
      match res with
      | FoundRound (Some currentRound_) => (m, Await (SpinVotes currentRound_ now u))
      | _ => (m, Finish None)
      end
  | SpinVotes currentRound_ now u =>
      (* lines 313-323, 1121-1133 *)
      match res with
      | FoundVotes winningVotes =>
          match drawWinner u winningVotes with
          | Some winner_ =>
              (m, Await (SpinSaveRound (roundNumber currentRound_) winner_ now))
          | None => (m, Finish None)
          end
      | _ => (m, Finish None)
      end
  | SpinSaveRound _ winner_ now =>
      (* lines 325-330, 1135-1140 *)
      match res with
      | Saved =>
          match currentGameState m with
          | Some g =>
              let g' := gameStateCompleted now winner_ g in
              match documentId m with
              | Some id =>
                  (withGameState g' m,
                   Await (SpinSaveState id
                            (WriteCompletion winner_ (currentRound g')
                               (totalRoundsPlayed g') now)))
              | None => (withGameState g' m, Finish None)
              end
          | None => (m, Finish None)
          end
      | _ => (m, Finish None)
      end
  | SpinSaveState _ _ => (m, Finish None)
  | VerifyBalance w _ now =>
      (* lines 413-439, 1199-1225 *)
      match res with
      | Balance tokenBalance =>
          if decide (tokenBalance < MIN_TOKEN_BALANCE CONFIG)
          then (m, answer (AnswerVerify (VerifyInsufficient tokenBalance)))
          else (m, Await (VerifyUpsert w tokenBalance now))
      | _ => (m, answer VerifyServerError)
      end
  | VerifyUpsert _ tokenBalance _ =>
      match res with
      | Saved => (m, answer (AnswerVerify (VerifyOk tokenBalance)))
      | _ => (m, answer VerifyServerError)
      end
  | VoteParticipant w c now =>
      (* lines 476-487, 1274-1285 *)
      match res with
      | FoundParticipant (Some _) =>
          match currentGameState m with
          | Some g => (m, Await (VoteExisting w c now (currentRound g)))
          | None => (m, answer (AnswerVote VoteServerError))
          end
      | FoundParticipant None => (m, answer (AnswerVote VoteNotVerified))
      | _ => (m, answer (AnswerVote VoteServerError))
      end
  | VoteExisting w c now _ =>
      (* lines 489-501, 1287-1299 *)
      match res with
      | FoundVote (Some existingVote) =>
          (m, answer (AnswerVote (VoteAlreadyVoted (color existingVote))))
      | FoundVote None =>
          match currentGameState m with
          | Some g => (m, Await (VoteRound w c now (currentRound g)))
          | None => (m, answer (AnswerVote VoteServerError))
          end
      | _ => (m, answer (AnswerVote VoteServerError))
      end
  | VoteRound w c now _ =>
      (* lines 503-516, 1301-1314 *)
      match res with
      | FoundRound (Some currentRound_) =>
          match currentGameState m with
          | Some g =>
              (m, Await (VoteInsert w c currentRound_ (mkVote w (currentRound g) c now)))
          | None => (m, answer (AnswerVote VoteServerError))
          end
      | FoundRound None => (m, answer (AnswerVote VoteNotActive))
      | _ => (m, answer (AnswerVote VoteServerError))
      end
  | VoteInsert w c currentRound_ _ =>
      (* lines 518-523, 1316-1321 *)
      match res with
      | Saved =>
          (m, Await (VoteSave c (applyRoundWrite (voteWrite w c currentRound_) currentRound_)
                       (voteWrite w c currentRound_)))
      | _ => (m, answer (AnswerVote VoteServerError))
      end
  | VoteSave c currentRound_ _ =>
      (* lines 530-540, 1324-1335 *)
      match res with
      | Saved =>
          match currentGameState m with
          | Some g =>
              (m, answer (AnswerVote (VoteOk c (currentRound g) (votes currentRound_)
                                        (length (participants currentRound_)))))
          | None => (m, answer (AnswerVote VoteServerError))
          end
      | _ => (m, answer (AnswerVote VoteServerError))
      end
  | PrizeFind _ p =>
      (* lines 565-579, 1360-1374 *)
      match res with
      | FoundRound (Some currentRound_) => (m, Await (PrizeSave (roundNumber currentRound_) p))
      | FoundRound None => (m, answer (AnswerAdmin AdminNotFound))
      | _ => (m, answer (AnswerAdmin AdminServerError))
      end
  | PrizeSave _ _ =>
      match res with
      | Saved =>
          match currentGameState m with
          | Some _ => (m, answer (AnswerAdmin AdminOk))
          | None => (m, answer (AnswerAdmin AdminServerError))
          end
      | _ => (m, answer (AnswerAdmin AdminServerError))
      end
  | PaidFind _ =>
      (* lines 593-603, 1388-1398 *)
      match res with
      | FoundRound (Some round) =>
          if noWinner (winner round) then (m, answer (AnswerAdmin AdminNotFound))
          else
            match currentGameState m with
            | Some g =>
                let g' := gameStatePaid (prizeAmount round) g in
                match documentId m with
                | Some id =>
                    (withGameState g' m,
                     Await (PaidSave id (WritePaid (totalPrizesGiven g') (lastPrizeAmount g'))))
                | None => (withGameState g' m, answer (AnswerAdmin AdminServerError))
                end
            | None => (m, answer (AnswerAdmin AdminServerError))
            end
      | FoundRound None => (m, answer (AnswerAdmin AdminNotFound))
      | _ => (m, answer (AnswerAdmin AdminServerError))
      end
  | PaidSave _ _ =>
      match res with
      | Saved => (m, answer (AnswerAdmin AdminOk))
      | _ => (m, answer (AnswerAdmin AdminServerError))
      end
  | Orphan _ => (m, Finish None)
  end.

(** ** The server: the process, the database and the handlers in flight *)

Record World := mkWorld {
  mem : Mem;
  store : Store;
  tasks : gmap nat Task;
  answers : gmap nat Answer;   (* the answers sent, by handler *)
  nextId : nat
}.

(** What happens next: a request comes in or a timer fires; the database
    executes the call a handler awaits, or fails it; the code after an
    [await] runs; the process is started again. *)
Inductive Action :=
| Arrive (r : Request)
| Exec (i : nat)
| Reject (i : nat)
| Resume (i : nat)
| Reboot (oid now : Z).

(** The handler [i] goes on to its next [await], or ends. *)
Definition place (i : nat) (nx : Next) (m : Mem) (W : World) : World :=
  match nx with
  | Await s => mkWorld m (store W) (<[i := Pending s]> (tasks W)) (answers W) (nextId W)
  | Finish None => mkWorld m (store W) (delete i (tasks W)) (answers W) (nextId W)
  | Finish (Some a) =>
      mkWorld m (store W) (delete i (tasks W)) (<[i := a]> (answers W)) (nextId W)
  end.

(** What a restart leaves of a handler: the call it had sent, if any *)
Definition orphan (t : Task) : option Task :=
  match t with
  | Pending s => Some (Pending (Orphan (opOf s)))
  | Ready _ _ => None
  end.

Definition step (a : Action) (W : World) : World :=
  match a with
  | Arrive r =>
      let '(m, nx) := arrive r (mem W) in
      place (nextId W) nx m
            (mkWorld (mem W) (store W) (tasks W) (answers W) (S (nextId W)))
  | Exec i =>
      match tasks W !! i with
      | Some (Pending s) =>
          let '(st, res) := exec (opOf s) (store W) in
          mkWorld (mem W) st (<[i := Ready res s]> (tasks W)) (answers W) (nextId W)
      | _ => W
      end
  | Reject i =>
      match tasks W !! i with
      | Some (Pending s) =>
          mkWorld (mem W) (store W) (<[i := Ready (failure (opOf s)) s]> (tasks W))
                  (answers W) (nextId W)
      | _ => W
      end
  | Resume i =>
      match tasks W !! i with
      | Some (Ready res s) => let '(m, nx) := resume s res (mem W) in place i nx m W
      | _ => W
      end
  | Reboot oid now =>
      (* [server.listen] runs [initializeGameState()] (lines 695-704, 1492-1501) *)
      mkWorld initialMem (store W)
              (<[nextId W := Pending (InitFind oid now)]> (omap orphan (tasks W)))
              (answers W) (S (nextId W))
  end.

Definition run (acts : list Action) (W : World) : World :=
  foldl (λ W a, step a W) W acts.

(** The process started on a database [st] *)
Definition boot (oid now : Z) (st : Store) : World :=
  mkWorld initialMem st {[ 0%nat := Pending (InitFind oid now) ]} ∅ 1.

(** The draws of an action are results of [Math.random()]. *)
Definition goodAction (a : Action) : Prop :=
  match a with
  | Arrive (TimerTick u) | Arrive (SelectWinnerTimeout _ u) => goodFloat u
  | _ => True
  end.

(** Worlds of a server first started on an empty database *)
Inductive reachable : World → Prop :=
| reachable_boot oid now : reachable (boot oid now emptyStore)
| reachable_step a W : reachable W → goodAction a → reachable (step a W).

(** The handler [i] served to its end with nothing in between *)
Fixpoint settle (fuel : nat) (i : nat) (W : World) : World :=
  match fuel with
  | O => W
  | S fuel' =>
      match tasks W !! i with
      | Some (Pending _) => settle fuel' i (step (Exec i) W)
      | Some (Ready _ _) => settle fuel' i (step (Resume i) W)
      | None => W
      end
  end.

(** A request served from start to end with nothing in between, as [V1]
    and [V2] take every request *)
Definition handle (r : Request) (W : World) : World :=
  settle 12 (nextId W) (step (Arrive r) W).

(** Requests served one after the other *)
Definition serve (rs : list Request) (W : World) : World :=
  foldl (λ W r, handle r W) W rs.

(** ** What is in flight for a round *)

(** A handler of [/api/vote] holds the document of round [k] and has
    still to save its tally, or that save is on its way. *)
Definition voteInFlight (k : Z) (t : Task) : bool :=
  match t with
  | Pending s =>
      match s with
      | VoteInsert _ _ r _ => bool_decide (roundNumber r = k)
      | _ =>
          match opOf s with
          | SaveRound n (WriteVote _ _ _) => bool_decide (n = k)
          | _ => false
          end
      end
  | Ready res s =>
      match s, res with
      | VoteRound _ _ _ _, FoundRound (Some r) => bool_decide (roundNumber r = k)
      | VoteInsert _ _ r _, _ => bool_decide (roundNumber r = k)
      | _, _ => false
      end
  end.

(** The reset of round [k] by [ensureCurrentRound] of the first variant
    is on its way, or about to be sent. *)
Definition resetInFlight (k : Z) (t : Task) : bool :=
  match t with
  | Pending s =>
      match opOf s with
      | SaveRound n (WriteReset _) => bool_decide (n = k)
      | _ => false
      end
  | Ready res s =>
      match variant, s, res with
      | First, EnsureFind _ _, FoundRound (Some r) =>
          bool_decide (roundNumber r = k ∧ status r ≠ voting)
      | _, _, _ => false
      end
  end.

(** Round [k] is stored out of voting and nothing in flight is going to
    write its tally. *)
Definition settled (k : Z) (W : World) : Prop :=
  (∃ r, roundDocs (store W) !! k = Some r ∧ status r ≠ voting)
  ∧ ∀ i t, tasks W !! i = Some t → voteInFlight k t = false ∧ resetInFlight k t = false.

(** The action is the lookup of round [k] by [ensureCurrentRound]. *)
Definition ensureLooksUp (k : Z) (a : Action) (W : World) : Prop :=
  ∃ i now, a = Exec i ∧ tasks W !! i = Some (Pending (EnsureFind k now)).

(** The actions that let the handler [i] go on: the process is not
    started again and the database does not fail the calls of [i]. *)
Definition spares (i : nat) (a : Action) : Prop :=
  match a with
  | Reject j => j ≠ i
  | Reboot _ _ => False
  | _ => True
  end.

(** The worlds a list of actions goes through, the first and the last
    included *)
Fixpoint worlds (acts : list Action) (W : World) : list World :=
  W :: match acts with
       | [] => []
       | a :: l => worlds l (step a W)
       end.

(** [currentGameState.currentRound], if the aggregate is loaded *)
Definition currentRoundOf (W : World) : option Z :=
  currentRound <$> currentGameState (mem W).

(** The task a handler is left as *)
Definition taskOf (nx : Next) : option Task :=
  match nx with
  | Await s => Some (Pending s)
  | Finish _ => None
  end.

(** ** What holds in every world the server reaches *)

(** The number of a stored round is its key. *)
Definition Keyed (st : Store) : Prop :=
  ∀ n r, roundDocs st !! n = Some r → roundNumber r = n.

(** The wallet a handler of [/api/vote] has found verified, from the
    answer of the lookup of line 471 on *)
Definition foundVerified (t : Task) : option string :=
  match t with
  | Pending s =>
      match s with
      | VoteExisting w _ _ _ | VoteRound w _ _ _ => Some w
      | _ =>
          match opOf s with
          | InsertVote v => Some (walletAddress v)
          | _ => None
          end
      end
  | Ready res s =>
      match s with
      | VoteParticipant w _ _ =>
          match res with
          | FoundParticipant (Some _) => Some w
          | _ => None
          end
      | VoteExisting w _ _ _ | VoteRound w _ _ _ => Some w
      | _ => None
      end
  end.

Record Sane (W : World) : Prop := mkSane {
  sane_keyed : Keyed (store W);
  (* a recorded vote is of a verified wallet *)
  sane_voters :
    ∀ v, v ∈ voteDocs (store W) →
         verified (walletAddress v) (participantDocs (store W)) = true;
  sane_tasks :
    ∀ i t w, tasks W !! i = Some t → foundVerified t = Some w →
             verified w (participantDocs (store W)) = true;
  (* the participants are written as verified *)
  sane_upserts :
    ∀ i s w p, tasks W !! i = Some (Pending s) → opOf s = UpsertParticipant w p →
               isVerified p = true;
  (* the handlers are numbered below [nextId] *)
  sane_fresh :
    ∀ i, is_Some (tasks W !! i) ∨ is_Some (answers W !! i) → (i < nextId W)%nat;
  (* the second variant resets no round *)
  sane_reset :
    variant = Second →
    ∀ i s n now, tasks W !! i = Some (Pending s) → opOf s ≠ SaveRound n (WriteReset now)
}.

(** The second vote of a wallet on its way through [/api/vote]: the
    handler [i] awaits the lookup of the participant or of the vote of the
    wallet for round [n], or has the answer of one of them, or has answered
    that the wallet has voted, with the colour of [v]. *)
Definition onDuplicatePath (i : nat) (w : string) (col : Color) (now n : Z) (v : Vote)
    (W : World) : Prop :=
  (answers W !! i = None
   ∧ (tasks W !! i = Some (Pending (VoteParticipant w col now))
      ∨ (∃ p, tasks W !! i = Some (Ready (FoundParticipant (Some p))
                                         (VoteParticipant w col now)))
      ∨ tasks W !! i = Some (Pending (VoteExisting w col now n))
      ∨ tasks W !! i = Some (Ready (FoundVote (Some v)) (VoteExisting w col now n))))
  ∨ (tasks W !! i = None
     ∧ answers W !! i = Some (AnswerVote (VoteAlreadyVoted (color v)))).

End WithConfig.

End Live.
(** ** Example runs *)

(** A voting window of two seconds *)
Definition exampleConfig : Config := mkConfig 1000000 2000.

(** A window of -4 s: [parseInt(process.env.ROUND_DURATION) || 30000]
    keeps a negative number (line 71). *)
Definition negativeConfig : Config := mkConfig 1000000 (-4000).

(** The first variant started with that window *)
Definition exampleNegative : V1.State :=
  V1.step negativeConfig (V1.ServerStart 0) V1.initial.

(** A run of the first variant: start on an empty database, two wallets
    verified, one vote for each colour, a prize of 5, and the two ticks of
    a 2 s round, the second of which ends the voting. *)
Definition exampleTrace : list V1.Event :=
  [V1.ServerStart 0;
   V1.VerifyWallet "alice" true 2000000 1;
   V1.VerifyWallet "bob" true 3000000 2;
   V1.CastVote "alice" "red" 3;
   V1.CastVote "bob" "black" 4;
   V1.SetPrize (Qc_of_Z 5);
   V1.TimerTick (1 # 4);
   V1.TimerTick (1 # 4)].

Definition exampleSpinning : V1.State := V1.run exampleConfig exampleTrace V1.initial.

(** The first variant in the middle of the voting of round 1: one of the
    two seconds is left. *)
Definition exampleVoting : V1.State :=
  V1.run exampleConfig (take 7 exampleTrace) V1.initial.

(** The voting of round 1 with the vote of alice only, in each variant *)
Definition exampleOneVote : V1.State :=
  V1.run exampleConfig (take 4 exampleTrace) V1.initial.

(** The first variant at the end of a voting without any vote *)
Definition exampleNoVotes : V1.State :=
  V1.run exampleConfig [V1.ServerStart 0; V1.TimerTick (3 # 4); V1.TimerTick (3 # 4)]
         V1.initial.

(** The first variant after round 1 of [exampleTrace] is completed, with
    alice as winner and a prize of 5 *)
Definition exampleCompleted : V1.State := V1.selectWinner 99 (1 # 4) exampleSpinning.

(** The same run on the second variant, cut before the end of the voting *)
Definition exampleTrace2 : list V2.Event :=
  [V2.ServerStart 0;
   V2.VerifyWallet "alice" true 2000000 1;
   V2.VerifyWallet "bob" true 3000000 2;
   V2.CastVote "alice" "red" 3;
   V2.CastVote "bob" "black" 4;
   V2.SetPrize (Qc_of_Z 5);
   V2.VotingTick (1 # 4)].

Definition exampleVoting2 : V2.State := V2.run exampleConfig exampleTrace2 V2.initial.

(** The second variant at the end of the 300 s of voting of round 1 *)
Definition exampleSpinning2 : V2.State :=
  V2.run exampleConfig (exampleTrace2 ++ replicate 299 (V2.VotingTick (1 # 4))) V2.initial.

(** The second variant in the other states of the first *)
Definition exampleOneVote2 : V2.State :=
  V2.run exampleConfig (take 4 exampleTrace2) V2.initial.

Definition exampleNoVotes2 : V2.State :=
  V2.run exampleConfig (V2.ServerStart 0 :: replicate 300 (V2.VotingTick (3 # 4)))
         V2.initial.

Definition exampleCompleted2 : V2.State := V2.performAutomaticSpin 99 (1 # 4) exampleSpinning2.

(** ** Example runs, await by await *)

(** The server started on an empty database with [initializeGameState] run
    to its end; 7 stands for the [_id] of the aggregate. *)
Definition liveStarted (variant : Live.Variant) : Live.World :=
  Live.settle variant exampleConfig 12 0 (Live.boot variant 7 0 Live.emptyStore).

(** Alice is verified and votes red in round 1; the prize is put to 0.1
    (the double next to it). *)
Definition liveOneVote (variant : Live.Variant) : Live.World :=
  Live.serve variant exampleConfig
    [Live.VerifyWallet "alice" true 2000000 1;
     Live.CastVote "alice" "red" 3;
     Live.SetPrize 0x1.999999999999ap-4]
    (liveStarted variant).

(** The ticks of a whole voting: 2 for the window of [exampleConfig] in
    the first variant, 300 in the second *)
Definition closingTicks (variant : Live.Variant) : list Live.Request :=
  match variant with
  | Live.First => replicate 2 (Live.TimerTick 0.25)
  | Live.Second => replicate 300 (Live.TimerTick 0.25)
  end.

(** Round 1 in spinning, with red as winning colour *)
Definition liveSpinning (variant : Live.Variant) : Live.World :=
  Live.serve variant exampleConfig (closingTicks variant) (liveOneVote variant).

(** Round 1 completed, with alice as winner *)
Definition liveCompleted (variant : Live.Variant) : Live.World :=
  Live.serve variant exampleConfig [Live.SelectWinnerTimeout 99 0.25] (liveSpinning variant).


(** Round 1 marked as paid ten times over *)
Definition livePaidTen : Live.World :=
  Nat.iter 10 (Live.handle Live.First exampleConfig (Live.MarkPaid 1))
           (liveCompleted Live.First).

(** The process started again after round 1, [initializeGameState] still
    waiting for the aggregate *)
Definition liveRestarted : Live.World :=
  Live.step Live.First exampleConfig (Live.Reboot 8 100) (liveCompleted Live.First).

(** What happens after alice asks for a second vote in round 1: her
    request and a verification of bob go on in turns, and the handler of
    alice is left with its second lookup executed. *)
Definition secondVoteActions : list Live.Action :=
  [Live.Exec 4;
   Live.Arrive (Live.VerifyWallet "bob" true 3000000 6);
   Live.Resume 4;
   Live.Exec 5;
   Live.Exec 4;
   Live.Resume 5].

(** *** Requests in flight together *)

(** Alice, bob and carol verified after the start *)
Definition liveVerified (variant : Live.Variant) : Live.World :=
  Live.serve variant exampleConfig
    [Live.VerifyWallet "alice" true 2000000 1;
     Live.VerifyWallet "bob" true 3000000 1;
     Live.VerifyWallet "carol" true 4000000 1]
    (liveStarted variant).

(** The handler [i] taken through its next [k] awaits *)
Definition advance (i k : nat) : list Live.Action :=
  concat (replicate k [Live.Exec i; Live.Resume i]).

(** The handlers [i] and [j] taken through their next [k] awaits side by
    side *)
Definition inTurns (i j k : nat) : list Live.Action :=
  concat (replicate k [Live.Exec i; Live.Exec j; Live.Resume i; Live.Resume j]).

(** Alice sends her vote twice, and the two requests go on side by
    side. *)
Definition doubleVoteActions : list Live.Action :=
  [Live.Arrive (Live.CastVote "alice" "red" 3);
   Live.Arrive (Live.CastVote "alice" "red" 4)] ++ inTurns 4 5 5.

Definition liveDoubleVote (variant : Live.Variant) : Live.World :=
  Live.run variant exampleConfig doubleVoteActions (liveVerified variant).

(** Alice votes; her handler has read the round when the last tick of the
    voting comes, and [endVotingPhase] runs to its end. *)
Definition voteThenClose (variant : Live.Variant) : list Live.Action :=
  [Live.Arrive (Live.CastVote "alice" "red" 3)] ++ advance 4 3
  ++ (Live.Arrive <$> closingTicks variant)
  ++ advance (4 + length (closingTicks variant)) 2.

Definition liveClosedOnVote (variant : Live.Variant) : Live.World :=
  Live.run variant exampleConfig (voteThenClose variant) (liveVerified variant).

(** Then her handler goes on to its end. *)
Definition liveLateVote (variant : Live.Variant) : Live.World :=
  Live.run variant exampleConfig (advance 4 2) (liveClosedOnVote variant).

(** Alice votes; her handler has read the round when bob and carol vote,
    each request served to its end. *)
Definition voteThenOthers : list Live.Action :=
  [Live.Arrive (Live.CastVote "alice" "red" 3)] ++ advance 4 3
  ++ [Live.Arrive (Live.CastVote "bob" "red" 4)] ++ advance 5 5
  ++ [Live.Arrive (Live.CastVote "carol" "red" 5)] ++ advance 6 5.

Definition liveOthersVoted (variant : Live.Variant) : Live.World :=
  Live.run variant exampleConfig voteThenOthers (liveVerified variant).

(** Then her handler goes on to its end. *)
Definition liveStaleVote (variant : Live.Variant) : Live.World :=
  Live.run variant exampleConfig (advance 4 2) (liveOthersVoted variant).

(** The vote of alice is recorded, then the save of the round fails. *)
Definition voteThenFailure : list Live.Action :=
  [Live.Arrive (Live.CastVote "alice" "red" 3)] ++ advance 4 4
  ++ [Live.Reject 4; Live.Resume 4].

Definition liveFailedVote (variant : Live.Variant) : Live.World :=
  Live.run variant exampleConfig voteThenFailure (liveVerified variant).

(** The winner of round 1 is drawn and the round is saved as completed;
    the handler [i] of the timer has not gone on yet. *)
Definition completeUpToSave (i : nat) : list Live.Action :=
  [Live.Arrive (Live.SelectWinnerTimeout 99 0.25)] ++ advance i 2 ++ [Live.Exec i].

Definition liveRoundSaved (variant : Live.Variant) : Live.World :=
  Live.run variant exampleConfig (completeUpToSave (Live.nextId (liveSpinning variant)))
           (liveSpinning variant).

(** A prize of 0.5 is set at that moment, and both handlers go on to
    their ends. *)
Definition prizeAtRollover (i : nat) : list Live.Action :=
  [Live.Arrive (Live.SetPrize 0.5)] ++ advance (S i) 2
  ++ [Live.Resume i] ++ advance i 1.

Definition livePrizeAtRollover (variant : Live.Variant) : Live.World :=
  Live.run variant exampleConfig (prizeAtRollover (Live.nextId (liveSpinning variant)))
           (liveRoundSaved variant).

(** Six votes for red in round 1, of the wallets a to f *)
Definition sixRedVotes : list Vote :=
  (λ w, mkVote w 1 Red 3) <$> ["a"; "b"; "c"; "d"; "e"; "f"]%string.

(** The double next below 5/6, and the rational it is *)
Definition belowFiveSixths : float := 0x1.aaaaaaaaaaaaap-1.

Definition belowFiveSixthsQ : Q := 7505999378950826 # 9007199254740992.
(** * Properties *)

(** ** The random index and the draw *)

Lemma randomIndex_range (u : Q) (n : nat) :
  goodDraw u → (0 < n)%nat → 0 ≤ randomIndex u n < Z.of_nat n.
Proof.
  intros [Hu0 Hu1] Hn. unfold randomIndex.
  set (k := inject_Z (Z.of_nat n)).
  assert (Hk : (0 < k)%Q) by (unfold k; rewrite <- (Zlt_Qlt 0); lia).
  split.
  - change 0 with (Qfloor 0). apply Qfloor_resp_le.
    apply Qmult_le_0_compat; [done | by apply Qlt_le_weak].
  - rewrite Zlt_Qlt. fold k.
    apply Qle_lt_trans with (u * k)%Q; [apply Qfloor_le |].
    rewrite <- (Qmult_1_l k) at 2.
    by apply Qmult_lt_compat_r.
Qed.

Lemma nthZ_in_range {A} (l : list A) (i : Z) :
  0 ≤ i < Z.of_nat (length l) → ∃ x, nthZ l i = Some x ∧ x ∈ l.
Proof.
  intros [H0 Hlt]. unfold nthZ. rewrite decide_True by done.
  destruct (lookup_lt_is_Some_2 l (Z.to_nat i)) as [x Hx]; [lia |].
  exists x. split; [done |]. by eapply list_elem_of_lookup_2.
Qed.

Lemma drawWinner_nil (u : Q) : drawWinner u [] = Some None.
Proof. reflexivity. Qed.

Lemma drawWinner_cons (u : Q) (l : list Vote) :
  goodDraw u → l ≠ [] →
  ∃ v, v ∈ l ∧ drawWinner u l = Some (Some (walletAddress v)).
Proof.
  intros Hu Hl. destruct l as [| v0 l']; [done |].
  destruct (nthZ_in_range (v0 :: l') (randomIndex u (length (v0 :: l')))) as (v & Hv & Hin).
  { apply randomIndex_range; [done | simpl; lia]. }
  exists v. split; [done |]. unfold drawWinner. by rewrite Hv.
Qed.

Lemma elem_of_findVotes (v : Vote) rid c (l : list Vote) :
  v ∈ findVotes rid c l ↔ (roundId v = rid ∧ Some (color v) = c) ∧ v ∈ l.
Proof. unfold findVotes. by rewrite list_elem_of_filter. Qed.

(** ** Completing a round *)

Lemma findCurrentRound_Some st d g r :
  findCurrentRound st d = Some (g, r) ↔
  currentGameState d = Some g ∧ roundDocs d !! currentRound g = Some r ∧ status r = st.
Proof.
  unfold findCurrentRound. split.
  - destruct (currentGameState d) as [g' |]; simpl; [| done].
    destruct (roundDocs d !! currentRound g') as [r' |] eqn:Hr; simpl; [| done].
    destruct (decide (status r' = st)); [| done].
    intros [= <- <-]. done.
  - intros (Hg & Hr & Hst). rewrite Hg. simpl. rewrite Hr. simpl.
    by rewrite decide_True.
Qed.

Lemma completeRound_spec now u d g r :
  goodDraw u → findCurrentRound spinning d = Some (g, r) →
  ∃ w, drawWinner u (findVotes (roundNumber r) (winningColor r) (voteDocs d)) = Some w
     ∧ completeRound now u d =
         mkDb (<[currentRound g := setRoundCompleted now w r]> (roundDocs d))
              (voteDocs d) (participantDocs d) (Some (gameStateCompleted now w g)).
Proof.
  intros Hu Hf. unfold completeRound. rewrite Hf.
  destruct (findVotes (roundNumber r) (winningColor r) (voteDocs d)) as [| v l] eqn:E.
  - exists None. by rewrite drawWinner_nil.
  - destruct (drawWinner_cons u (v :: l) Hu) as (x & _ & Hx); [done |].
    exists (Some (walletAddress x)). by rewrite Hx.
Qed.


(** ** The invariant is kept *)

Lemma Inv_empty : Inv emptyDb.
Proof.
  split; simpl; intros *.
  - by rewrite lookup_empty.
  - by rewrite lookup_empty.
  - by intros ?%elem_of_nil.
  - by intros ?%elem_of_nil.
  - by rewrite lookup_empty.
Qed.

Lemma Inv_loadGameState now d : Inv d → Inv (loadGameState now d).
Proof.
  intros HI. unfold loadGameState.
  destruct (currentGameState d) as [g |] eqn:Hg; [done |].
  destruct HI as [Hk Hb Hv Hu Hw]. split; simpl; try done.
  intros k r Hr. destruct (Hb k r Hr) as (g & Hg' & _). congruence.
Qed.

(** Storing, under the current number, a round that keeps number and winner *)
Lemma Inv_update_current d g r r' :
  Inv d → currentGameState d = Some g → roundDocs d !! currentRound g = Some r →
  roundNumber r' = roundNumber r → winner r' = winner r →
  Inv (withRounds (<[currentRound g := r']> (roundDocs d)) d).
Proof.
  intros [Hk Hb Hv Hu Hw] Hg Hr Hn Hwin. split; simpl; try done.
  - intros k x. rewrite lookup_insert. case_decide; [| by intros Hx; apply (Hk _ _ Hx)].
    intros [= <-]. subst k. rewrite Hn. by apply (Hk _ _ Hr).
  - intros k x. rewrite lookup_insert. case_decide; [| by intros Hx; apply (Hb _ _ Hx)].
    intros _. subst k. exists g. split; [done | lia].
  - intros k x w. rewrite lookup_insert. case_decide; [| by intros Hx; apply (Hw _ _ _ Hx)].
    intros [= <-]. rewrite Hwin. by apply (Hw _ _ _ Hr).
Qed.

Lemma Inv_create_current now d g :
  Inv d → currentGameState d = Some g → roundDocs d !! currentRound g = None →
  Inv (withRounds (<[currentRound g := newRound (currentRound g) now]> (roundDocs d)) d).
Proof.
  intros [Hk Hb Hv Hu Hw] Hg Hr. split; simpl; try done.
  - intros k x. rewrite lookup_insert. case_decide; [| by intros Hx; apply (Hk _ _ Hx)].
    by intros [= <-].
  - intros k x. rewrite lookup_insert. case_decide; [| by intros Hx; apply (Hb _ _ Hx)].
    intros _. subst k. exists g. split; [done | lia].
  - intros k x w. rewrite lookup_insert. case_decide; [| by intros Hx; apply (Hw _ _ _ Hx)].
    by intros [= <-].
Qed.

Lemma Inv_V1_ensureCurrentRound now d : Inv d → Inv (V1.ensureCurrentRound now d).
Proof.
  intros HI. unfold V1.ensureCurrentRound.
  destruct (currentGameState d) as [g |] eqn:Hg; [| done].
  destruct (roundDocs d !! currentRound g) as [r |] eqn:Hr.
  - case_decide; [| done]. by eapply Inv_update_current.
  - by apply Inv_create_current.
Qed.

Lemma Inv_V2_ensureCurrentRound now d : Inv d → Inv (V2.ensureCurrentRound now d).
Proof.
  intros HI. unfold V2.ensureCurrentRound.
  destruct (currentGameState d) as [g |] eqn:Hg; [| done].
  destruct (roundDocs d !! currentRound g) as [r |] eqn:Hr; [done |].
  by apply Inv_create_current.
Qed.

Lemma Inv_closeVoting u d : Inv d → Inv (closeVoting u d).
Proof.
  intros HI. unfold closeVoting.
  destruct (findCurrentRound voting d) as [[g r] |] eqn:Hf; [| done].
  apply findCurrentRound_Some in Hf as (Hg & Hr & _).
  by eapply Inv_update_current.
Qed.

Lemma drawWinner_elem_of u (l : list Vote) w :
  drawWinner u l = Some (Some w) → ∃ v, v ∈ l ∧ walletAddress v = w.
Proof.
  destruct l as [| v0 l']; [done |]. unfold drawWinner, nthZ.
  case_decide; [| done].
  destruct ((v0 :: l') !! _) as [v |] eqn:Hv; [| done].
  simpl. intros [= <-]. exists v. split; [| done].
  by eapply list_elem_of_lookup_2.
Qed.

Lemma Inv_completeRound now u d : Inv d → Inv (completeRound now u d).
Proof.
  intros HI. unfold completeRound.
  destruct (findCurrentRound spinning d) as [[g r] |] eqn:Hf; [| done].
  apply findCurrentRound_Some in Hf as (Hg & Hr & _).
  destruct (drawWinner u _) as [w |] eqn:Hd; [| done].
  destruct HI as [Hk Hb Hv Hu Hw]. split; simpl; try done.
  - intros k x. rewrite lookup_insert. case_decide; [| by intros Hx; apply (Hk _ _ Hx)].
    intros [= <-]. subst k. simpl. by apply (Hk _ _ Hr).
  - intros k x. rewrite lookup_insert. case_decide.
    + intros _. subst k. eexists. split; [done |]. simpl. lia.
    + intros Hx. destruct (Hb k x Hx) as (g' & Hg' & Hle).
      eexists. split; [done |]. simpl. assert (g' = g) by congruence. subst. lia.
  - intros k x a. rewrite lookup_insert. case_decide; [| by intros Hx; apply (Hw _ _ _ Hx)].
    intros [= <-]. simpl. intros ->.
    apply drawWinner_elem_of in Hd as (v & Hin & Hv').
    apply elem_of_findVotes in Hin as [_ Hin]. by exists v.
Qed.

Lemma verified_insert w p (ps : gmap string Participant) a :
  isVerified p = true → verified a ps = true → verified a (<[w := p]> ps) = true.
Proof.
  intros Hp. unfold verified. rewrite lookup_insert. by case_decide.
Qed.

Lemma Inv_verifyWallet m w valid balance now d :
  Inv d → Inv (snd (verifyWallet m w valid balance now d)).
Proof.
  intros HI. unfold verifyWallet. repeat case_decide; try done.
  destruct HI as [Hk Hb Hv Hu Hw]. split; simpl; try done.
  intros v Hin. destruct (Hv v Hin) as [? ?]. split; [done |].
  by apply verified_insert.
Qed.

Lemma findVote_None w rid (l : list Vote) :
  findVote w rid l = None ↔ ∀ v, v ∈ l → ¬ (walletAddress v = w ∧ roundId v = rid).
Proof.
  unfold findVote. rewrite fmap_None, list_find_None, Forall_forall. done.
Qed.

Lemma Inv_castVote w c now d : Inv d → Inv (snd (castVote w c now d)).
Proof.
  intros HI. unfold castVote.
  case_decide as Hw0; [done |].
  destruct (parseColor c) as [col |]; [| done].
  destruct (verified w (participantDocs d)) eqn:Hver; [| done]. simpl.
  destruct (currentGameState d) as [g |] eqn:Hg; [| done].
  destruct (findVote w (currentRound g) (voteDocs d)) as [ev |] eqn:Hfv; [done |].
  destruct (findCurrentRound voting d) as [[g' r] |] eqn:Hf; [| done].
  apply findCurrentRound_Some in Hf as (Hg' & Hr & _).
  assert (g' = g) by congruence. subst g'.
  rewrite findVote_None in Hfv.
  destruct HI as [Hk Hb Hv Hu Hw]. split; simpl; try done.
  - intros k x. rewrite lookup_insert. case_decide; [| by intros Hx; apply (Hk _ _ Hx)].
    intros [= <-]. subst k. simpl. by apply (Hk _ _ Hr).
  - intros k x. rewrite lookup_insert. case_decide.
    + intros _. subst k. exists g. split; [done | lia].
    + intros Hx. destruct (Hb _ _ Hx) as (g0 & Hg0 & Hle).
      exists g0. split; [congruence | done].
  - intros v [Hin | ->%list_elem_of_singleton]%elem_of_app; [by apply Hv |].
    done.
  - intros v v' [Hin | ->%list_elem_of_singleton]%elem_of_app
                [Hin' | ->%list_elem_of_singleton]%elem_of_app; simpl.
    + by apply Hu.
    + intros ? ?. by destruct (Hfv v Hin).
    + intros ? ?. by destruct (Hfv v' Hin').
    + done.
  - intros k x a. rewrite lookup_insert. case_decide.
    + intros [= <-]. simpl. intros Hx.
      destruct (Hw _ _ _ Hr Hx) as (v & ? & ?). exists v.
      split; [| done]. apply elem_of_app. by left.
    + intros Hx1 Hx2. destruct (Hw _ _ _ Hx1 Hx2) as (v & ? & ?). exists v.
      split; [| done]. apply elem_of_app. by left.
Qed.

Lemma Inv_setPrize p d : Inv d → Inv (snd (setPrize p d)).
Proof.
  intros HI. unfold setPrize. case_decide; [done |].
  destruct (currentGameState d) as [g |] eqn:Hg; [| done].
  destruct (roundDocs d !! currentRound g) as [r |] eqn:Hr; [| done].
  simpl. by eapply Inv_update_current.
Qed.

Lemma Inv_markPaid n d : Inv d → Inv (snd (markPaid n d)).
Proof.
  intros HI. unfold markPaid.
  destruct (roundDocs d !! n) as [r |] eqn:Hr; [| done].
  destruct (noWinner (winner r)); [done |].
  destruct (currentGameState d) as [g |] eqn:Hg; [| done].
  destruct HI as [Hk Hb Hv Hu Hw]. split; simpl; try done.
  intros k x Hx. destruct (Hb k x Hx) as (g' & Hg' & Hle).
  eexists. split; [done |]. simpl. assert (g' = g) by congruence. by subst.
Qed.

Lemma V1_reachable_Inv CONFIG s : V1.reachable CONFIG s → Inv (V1.db s).
Proof.
  induction 1 as [| e s Hs IH He]; [apply Inv_empty |].
  destruct e; simpl.
  - by apply Inv_V1_ensureCurrentRound, Inv_loadGameState.
  - unfold V1.timerTick. case_decide; simpl; [by apply Inv_closeVoting | done].
  - by apply Inv_completeRound.
  - unfold V1.startNextRound. destruct (currentGameState (V1.db s)); [| done].
    simpl. by apply Inv_V1_ensureCurrentRound.
  - by apply Inv_verifyWallet.
  - unfold V1.apiVote.
    pose proof (Inv_castVote w c now (V1.db s) IH) as HI.
    by destruct (castVote w c now (V1.db s)).
  - by apply Inv_setPrize.
  - by apply Inv_markPaid.
Qed.

Lemma V2_reachable_Inv CONFIG s : V2.reachable CONFIG s → Inv (V2.db s).
Proof.
  induction 1 as [| e s Hs IH He]; [apply Inv_empty |].
  destruct e; simpl.
  - by apply Inv_V2_ensureCurrentRound, Inv_loadGameState.
  - unfold V2.votingTick. case_decide; simpl; [by apply Inv_closeVoting | done].
  - done.
  - by apply Inv_completeRound.
  - by apply Inv_V2_ensureCurrentRound.
  - by apply Inv_verifyWallet.
  - unfold V2.apiVote. case_decide; [done |].
    pose proof (Inv_castVote w c now (V2.db s) IH) as HI.
    by destruct (castVote w c now (V2.db s)).
  - by apply Inv_setPrize.
  - by apply Inv_markPaid.
Qed.

Lemma V1_reachable_run CONFIG es s :
  V1.reachable CONFIG s → Forall V1.goodEvent es → V1.reachable CONFIG (V1.run CONFIG es s).
Proof.
  intros Hs Hes. revert s Hs. induction Hes as [| e es He _ IH]; intros s Hs; [done |].
  simpl. apply IH. by constructor.
Qed.

Lemma V2_reachable_run CONFIG es s :
  V2.reachable CONFIG s → Forall V2.goodEvent es → V2.reachable CONFIG (V2.run CONFIG es s).
Proof.
  intros Hs Hes. revert s Hs. induction Hes as [| e es He _ IH]; intros s Hs; [done |].
  simpl. apply IH. by constructor.
Qed.

(** ** The example runs *)

Lemma goodDraw_dec_true u : (Qle_bool 0 u && negb (Qle_bool 1 u)) = true → goodDraw u.
Proof.
  intros [H0 H1]%andb_prop. split.
  - by apply Qle_bool_iff.
  - apply Qnot_le_lt. intros Hle%Qle_bool_iff. by rewrite Hle in H1.
Qed.

Lemma goodDraw_quarter : goodDraw (1 # 4).
Proof. split; [by vm_compute | reflexivity]. Qed.

Lemma exampleVoting_reachable : V1.reachable exampleConfig exampleVoting.
Proof.
  apply V1_reachable_run; [constructor |].
  repeat constructor; by apply goodDraw_dec_true.
Qed.

Lemma exampleSpinning_reachable : V1.reachable exampleConfig exampleSpinning.
Proof.
  apply V1_reachable_run; [constructor |].
  repeat constructor; by apply goodDraw_dec_true.
Qed.

Lemma exampleCompleted_reachable : V1.reachable exampleConfig exampleCompleted.
Proof.
  apply (V1.reachable_step exampleConfig (V1.SelectWinnerTimeout 99 (1 # 4))).
  - apply exampleSpinning_reachable.
  - apply goodDraw_quarter.
Qed.

Lemma exampleNoVotes_reachable : V1.reachable exampleConfig exampleNoVotes.
Proof.
  apply V1_reachable_run; [constructor |].
  repeat constructor; by apply goodDraw_dec_true.
Qed.

Lemma exampleVoting2_reachable : V2.reachable exampleConfig exampleVoting2.
Proof.
  apply V2_reachable_run; [constructor |].
  repeat constructor; by apply goodDraw_dec_true.
Qed.

Lemma exampleSpinning2_reachable : V2.reachable exampleConfig exampleSpinning2.
Proof.
  apply V2_reachable_run; [constructor |].
  apply Forall_app. split.
  - repeat constructor; by apply goodDraw_dec_true.
  - apply Forall_replicate. by apply goodDraw_dec_true.
Qed.

Lemma exampleCompleted2_reachable : V2.reachable exampleConfig exampleCompleted2.
Proof.
  apply (V2.reachable_step exampleConfig (V2.SpinTimeout 99 (1 # 4))).
  - apply exampleSpinning2_reachable.
  - apply goodDraw_quarter.
Qed.

Lemma exampleNoVotes2_reachable : V2.reachable exampleConfig exampleNoVotes2.
Proof.
  apply V2_reachable_run; [constructor |].
  constructor; [done |]. apply Forall_replicate. by apply goodDraw_dec_true.
Qed.

Lemma exampleOneVote_current :
  findCurrentRound voting (V1.db exampleOneVote)
  = Some (mkGameState 1 0%Qc None 0%Qc true 0 0,
          mkRound 1 voting 0 None (mkTally 1 0) ["alice"]%string None None 0%Qc).
Proof. by vm_compute. Qed.

Lemma exampleVoting_current :
  findCurrentRound voting (V1.db exampleVoting)
  = Some (mkGameState 1 0%Qc None 0%Qc true 0 0,
          mkRound 1 voting 0 None (mkTally 1 1) ["alice"; "bob"]%string
                  None None (Qc_of_Z 5)).
Proof. by vm_compute. Qed.


Lemma exampleNoVotes_current :
  findCurrentRound spinning (V1.db exampleNoVotes)
  = Some (mkGameState 1 0%Qc None 0%Qc true 0 0,
          mkRound 1 spinning 0 None (mkTally 0 0) [] (Some Black) None 0%Qc).
Proof. by vm_compute. Qed.

Lemma exampleOneVote2_current :
  findCurrentRound voting (V2.db exampleOneVote2)
  = Some (mkGameState 1 0%Qc None 0%Qc true 0 0,
          mkRound 1 voting 0 None (mkTally 1 0) ["alice"]%string None None 0%Qc).
Proof. by vm_compute. Qed.

Lemma exampleVoting2_current :
  findCurrentRound voting (V2.db exampleVoting2)
  = Some (mkGameState 1 0%Qc None 0%Qc true 0 0,
          mkRound 1 voting 0 None (mkTally 1 1) ["alice"; "bob"]%string
                  None None (Qc_of_Z 5)).
Proof. by vm_compute. Qed.


Lemma exampleNoVotes2_current :
  findCurrentRound spinning (V2.db exampleNoVotes2)
  = Some (mkGameState 1 0%Qc None 0%Qc true 0 0,
          mkRound 1 spinning 0 None (mkTally 0 0) [] (Some Black) None 0%Qc).
Proof. by vm_compute. Qed.

(** ** The order of the checks of a vote *)

Lemma firstFailure_pass (l : list (option VoteResponse)) :
  firstFailure (None :: l) = firstFailure l.
Proof. reflexivity. Qed.

Lemma castVote_first_failure w c now d :
  match firstFailure [checkData w c; checkVerified w d; checkDuplicate w d; checkRound d] with
  | Some r => castVote w c now d = (r, d)
  | None => ∃ col g r,
      parseColor c = Some col ∧ findCurrentRound voting d = Some (g, r)
      ∧ castVote w c now d =
          (VoteOk col (currentRound g) (votes (setRoundVote w col r))
                  (length (participants (setRoundVote w col r))),
           mkDb (<[currentRound g := setRoundVote w col r]> (roundDocs d))
                (voteDocs d ++ [mkVote w (currentRound g) col now])
                (participantDocs d) (currentGameState d))
  end.
Proof.
  unfold castVote, checkData, checkVerified, checkDuplicate, checkRound.
  destruct (decide (w = ""%string)) as [-> | Hw].
  { rewrite decide_True by (by left). done. }
  destruct (parseColor c) as [col |] eqn:Hc.
  2: { rewrite decide_True by (by right). done. }
  rewrite decide_False by (by intros [? | ?]).
  destruct (verified w (participantDocs d)); simpl; [| done].
  destruct (currentGameState d) as [g |] eqn:Hg; simpl; [| done].
  destruct (findVote w (currentRound g) (voteDocs d)) as [v |]; simpl; [done |].
  destruct (findCurrentRound voting d) as [[g' r] |] eqn:Hf; simpl; [| done].
  pose proof Hf as Hf'. apply findCurrentRound_Some in Hf' as (Hg' & _ & _).
  assert (g' = g) by congruence. subst g'.
  by exists col, g, r.
Qed.

(** C2, as the code has it.  The checks of a vote run in a fixed order and
    the first that fails gives the answer, with the state unchanged.  In
    the first variant the order is: body of the request, verified wallet,
    earlier vote of the wallet in the current round, current round in
    voting.  In the second variant the in-memory phase is checked before
    these four.  When no check fails the vote is accepted. *)
Theorem vote_checks_in_order (w c : string) (now : Z) (s1 : V1.State) (s2 : V2.State) :
  match firstFailure (V1_voteChecks w c s1) with
  | Some r => V1.apiVote w c now s1 = (r, s1)
  | None => ∃ col n t k, fst (V1.apiVote w c now s1) = VoteOk col n t k
  end
  ∧
  match firstFailure (V2_voteChecks w c s2) with
  | Some r => V2.apiVote w c now s2 = (r, s2)
  | None => ∃ col n t k, fst (V2.apiVote w c now s2) = VoteOk col n t k
  end.
Proof.
  split.
  - pose proof (castVote_first_failure w c now (V1.db s1)) as H.
    unfold V1_voteChecks, V1.apiVote.
    destruct (firstFailure _) as [r |].
    + rewrite H. by destruct s1.
    + destruct H as (col & g & r & _ & _ & ->). by eexists _, _, _, _.
  - pose proof (castVote_first_failure w c now (V2.db s2)) as H.
    unfold V2_voteChecks, V2.apiVote, checkPhase.
    destruct (decide (V2.currentPhase s2 ≠ V2.phase_voting)); [done |].
    rewrite firstFailure_pass.
    destruct (firstFailure _) as [r |].
    + rewrite H. by destruct s2.
    + destruct H as (col & g & r & _ & _ & ->). by eexists _, _, _, _.
Qed.

(** C2, as the spec states it, fails on the first variant: after
    [exampleTrace], with round 1 in spinning, the stated order rejects for
    the round, and the code rejects a bad colour for the body of the
    request and a second vote as a duplicate. *)
Lemma vote_checks_in_order_counterexample :
  V1.reachable exampleConfig exampleSpinning
  ∧ firstFailure (claimedVoteChecks "alice" "green" (V1.db exampleSpinning))
    = Some VoteNotActive
  ∧ fst (V1.apiVote "alice" "green" 50 exampleSpinning) = VoteInvalidData
  ∧ firstFailure (claimedVoteChecks "alice" "black" (V1.db exampleSpinning))
    = Some VoteNotActive
  ∧ fst (V1.apiVote "alice" "black" 50 exampleSpinning) = VoteAlreadyVoted Red.
Proof. split; [apply exampleSpinning_reachable |]. repeat split; by vm_compute. Qed.

(** ** Completed rounds in every state the server reaches *)

Lemma CompletedOk_rounds_only d rs :
  CompletedOk d →
  (∀ k r, rs !! k = Some r → status r = completed →
          roundDocs d !! k = Some r) →
  CompletedOk (withRounds rs d).
Proof. intros HC Hrs k r Hr Hst. simpl in Hr. apply (HC k r); [by apply Hrs | done]. Qed.

Lemma CompletedOk_insert_open d g r' :
  CompletedOk d → currentGameState d = Some g → status r' ≠ completed →
  CompletedOk (withRounds (<[currentRound g := r']> (roundDocs d)) d).
Proof.
  intros HC Hg Hst. apply CompletedOk_rounds_only; [done |].
  intros k r. rewrite lookup_insert. case_decide; [| done].
  intros [= <-]. done.
Qed.

Lemma CompletedOk_current_open d g r :
  CompletedOk d → currentGameState d = Some g →
  roundDocs d !! currentRound g = Some r → status r ≠ completed.
Proof.
  intros HC Hg Hr Hst. destruct (HC _ _ Hr Hst) as [(g' & Hg' & Hlt) _].
  assert (g' = g) by congruence. subst. lia.
Qed.

Lemma CompletedOk_loadGameState now d : Inv d → CompletedOk d → CompletedOk (loadGameState now d).
Proof.
  intros HI HC. unfold loadGameState.
  destruct (currentGameState d) as [g |] eqn:Hg; [done |].
  intros k r Hr Hst. simpl in Hr.
  destruct (inv_bounded d HI _ _ Hr) as (g & Hg' & _). congruence.
Qed.

Lemma CompletedOk_V1_ensureCurrentRound now d :
  CompletedOk d → CompletedOk (V1.ensureCurrentRound now d).
Proof.
  intros HC. unfold V1.ensureCurrentRound.
  destruct (currentGameState d) as [g |] eqn:Hg; [| done].
  destruct (roundDocs d !! currentRound g) as [r |] eqn:Hr.
  - case_decide; [| done]. by apply CompletedOk_insert_open.
  - by apply CompletedOk_insert_open.
Qed.

Lemma CompletedOk_V2_ensureCurrentRound now d :
  CompletedOk d → CompletedOk (V2.ensureCurrentRound now d).
Proof.
  intros HC. unfold V2.ensureCurrentRound.
  destruct (currentGameState d) as [g |] eqn:Hg; [| done].
  destruct (roundDocs d !! currentRound g) as [r |] eqn:Hr; [done |].
  by apply CompletedOk_insert_open.
Qed.

Lemma CompletedOk_closeVoting u d : CompletedOk d → CompletedOk (closeVoting u d).
Proof.
  intros HC. unfold closeVoting.
  destruct (findCurrentRound voting d) as [[g r] |] eqn:Hf; [| done].
  apply findCurrentRound_Some in Hf as (Hg & _ & _).
  by apply CompletedOk_insert_open.
Qed.

Lemma drawWinner_None_nil u (l : list Vote) : drawWinner u l = Some None → l = [].
Proof.
  destruct l as [| v l']; [done |]. unfold drawWinner.
  by destruct (nthZ _ _).
Qed.

Lemma CompletedOk_completeRound now u d : CompletedOk d → CompletedOk (completeRound now u d).
Proof.
  intros HC. unfold completeRound.
  destruct (findCurrentRound spinning d) as [[g r] |] eqn:Hf; [| done].
  apply findCurrentRound_Some in Hf as (Hg & Hr & _).
  destruct (drawWinner u _) as [w |] eqn:Hd; [| done].
  intros k x. simpl. rewrite lookup_insert. case_decide.
  - intros [= <-] _. subst k. split; [eexists; split; [done | simpl; lia] |].
    unfold winnerOk. simpl. destruct w as [a |].
    + by apply drawWinner_elem_of in Hd.
    + by apply drawWinner_None_nil in Hd.
  - intros Hx Hst. destruct (HC _ _ Hx Hst) as [(g' & Hg' & Hlt) Hw].
    assert (g' = g) by congruence. subst g'.
    split; [eexists; split; [done | simpl; lia] | done].
Qed.

Lemma findVotes_snoc_other rid c (l : list Vote) v :
  roundId v ≠ rid → findVotes rid c (l ++ [v]) = findVotes rid c l.
Proof.
  intros Hne. unfold findVotes. rewrite filter_app, filter_cons_False, filter_nil.
  - by rewrite app_nil_r.
  - by intros [? _].
Qed.

Lemma CompletedOk_castVote w c now d :
  Inv d → CompletedOk d → CompletedOk (snd (castVote w c now d)).
Proof.
  intros HI HC.
  pose proof (castVote_first_failure w c now d) as H.
  destruct (firstFailure _) as [x |]; [by rewrite H |].
  destruct H as (col & g & r & _ & Hf & ->).
  apply findCurrentRound_Some in Hf as (Hg & Hr & Hst).
  intros k x. simpl. rewrite lookup_insert. case_decide.
  - intros [= <-]. simpl. congruence.
  - intros Hx Hc. destruct (HC _ _ Hx Hc) as [(g' & Hg' & Hlt) Hw].
    split; [by exists g' |].
    assert (g' = g) by congruence. subst g'.
    unfold winnerOk in *. rewrite findVotes_snoc_other; [done |].
    simpl. rewrite (inv_keyed d HI _ _ Hx). lia.
Qed.

Lemma CompletedOk_setPrize p d : CompletedOk d → CompletedOk (snd (setPrize p d)).
Proof.
  intros HC. unfold setPrize. case_decide; [done |].
  destruct (currentGameState d) as [g |] eqn:Hg; [| done].
  destruct (roundDocs d !! currentRound g) as [r |] eqn:Hr; [| done].
  simpl. apply CompletedOk_insert_open; [done | done |].
  simpl. by eapply CompletedOk_current_open.
Qed.

Lemma CompletedOk_markPaid n d : CompletedOk d → CompletedOk (snd (markPaid n d)).
Proof.
  intros HC. unfold markPaid.
  destruct (roundDocs d !! n) as [r |] eqn:Hr; [| done].
  destruct (noWinner (winner r)); [done |].
  destruct (currentGameState d) as [g |] eqn:Hg; [| done].
  intros k x Hx Hst. simpl in *.
  destruct (HC _ _ Hx Hst) as [(g' & Hg' & Hlt) Hw].
  assert (g' = g) by congruence. subst g'.
  split; [eexists; split; [done | by simpl] | done].
Qed.

Lemma CompletedOk_verifyWallet m w valid balance now d :
  CompletedOk d → CompletedOk (snd (verifyWallet m w valid balance now d)).
Proof. intros HC. unfold verifyWallet. by repeat case_decide. Qed.

Lemma V1_reachable_CompletedOk CONFIG s : V1.reachable CONFIG s → CompletedOk (V1.db s).
Proof.
  induction 1 as [| e s Hs IH He].
  { intros k r Hr. cbv [V1.initial emptyDb V1.db roundDocs] in Hr.
    by rewrite lookup_empty in Hr. }
  pose proof (V1_reachable_Inv _ _ Hs) as HI.
  destruct e; simpl.
  - by apply CompletedOk_V1_ensureCurrentRound, CompletedOk_loadGameState.
  - unfold V1.timerTick. case_decide; simpl; [by apply CompletedOk_closeVoting | done].
  - by apply CompletedOk_completeRound.
  - unfold V1.startNextRound. destruct (currentGameState (V1.db s)); [| done].
    simpl. by apply CompletedOk_V1_ensureCurrentRound.
  - by apply CompletedOk_verifyWallet.
  - unfold V1.apiVote.
    pose proof (CompletedOk_castVote w c now (V1.db s) HI IH) as HC.
    by destruct (castVote w c now (V1.db s)).
  - by apply CompletedOk_setPrize.
  - by apply CompletedOk_markPaid.
Qed.

Lemma V2_reachable_CompletedOk CONFIG s : V2.reachable CONFIG s → CompletedOk (V2.db s).
Proof.
  induction 1 as [| e s Hs IH He].
  { intros k r Hr. cbv [V2.initial emptyDb V2.db roundDocs] in Hr.
    by rewrite lookup_empty in Hr. }
  pose proof (V2_reachable_Inv _ _ Hs) as HI.
  destruct e; simpl.
  - by apply CompletedOk_V2_ensureCurrentRound, CompletedOk_loadGameState.
  - unfold V2.votingTick. case_decide; simpl; [by apply CompletedOk_closeVoting | done].
  - done.
  - by apply CompletedOk_completeRound.
  - by apply CompletedOk_V2_ensureCurrentRound.
  - by apply CompletedOk_verifyWallet.
  - unfold V2.apiVote. case_decide; [done |].
    pose proof (CompletedOk_castVote w c now (V2.db s) HI IH) as HC.
    by destruct (castVote w c now (V2.db s)).
  - by apply CompletedOk_setPrize.
  - by apply CompletedOk_markPaid.
Qed.

Lemma winnerOk_cases (l : list Vote) (r : Round) :
  winnerOk l r →
  let eligible := findVotes (roundNumber r) (winningColor r) l in
  (eligible = [] → winner r = None)
  ∧ (eligible ≠ [] →
     ∃ v, v ∈ l ∧ roundId v = roundNumber r ∧ Some (color v) = winningColor r
        ∧ winner r = Some (walletAddress v)).
Proof.
  intros Hw eligible. unfold winnerOk in Hw. fold eligible in Hw.
  destruct (winner r) as [w |].
  - destruct Hw as (v & Hv & <-). split.
    + intros He. rewrite He in Hv. by apply elem_of_nil in Hv.
    + intros _. apply elem_of_findVotes in Hv as [[? ?] ?]. by exists v.
  - by split.
Qed.



(** ** The tally of a round over one step *)

(** C3, as the spec states it, fails on the first variant: the run
    [exampleTrace] leaves round 1 in spinning with one vote for each
    colour; a restart of the server then resets its tally to zero. *)
Lemma tally_monotone_and_frozen_counterexample :
  V1.reachable exampleConfig exampleSpinning
  ∧ ∃ r r',
      roundDocs (V1.db exampleSpinning) !! 1 = Some r
      ∧ status r = spinning ∧ votes r = mkTally 1 1
      ∧ roundDocs (V1.db (V1.step exampleConfig (V1.ServerStart 9) exampleSpinning)) !! 1
        = Some r'
      ∧ status r' = voting ∧ votes r' = mkTally 0 0.
Proof.
  split; [apply exampleSpinning_reachable |].
  eexists _, _. split; [by vm_compute |].
  split; [done |]. split; [done |]. split; [by vm_compute |]. done.
Qed.

(** ** Starting the engine *)

Lemma V1_ensureCurrentRound_voting now d g :
  currentGameState d = Some g →
  currentGameState (V1.ensureCurrentRound now d) = Some g
  ∧ ∃ r, roundDocs (V1.ensureCurrentRound now d) !! currentRound g = Some r
       ∧ status r = voting.
Proof.
  intros Hg. unfold V1.ensureCurrentRound. rewrite Hg.
  destruct (roundDocs d !! currentRound g) as [r |] eqn:Hr.
  - case_decide as Hst; simpl.
    + split; [done |]. rewrite lookup_insert_eq. by eexists.
    + split; [done |]. exists r. split; [done |].
      by destruct (decide (status r = voting)).
  - simpl. split; [done |]. rewrite lookup_insert_eq. by eexists.
Qed.

Lemma V1_ensureCurrentRound_fix now d g r :
  currentGameState d = Some g → roundDocs d !! currentRound g = Some r →
  status r = voting → V1.ensureCurrentRound now d = d.
Proof.
  intros Hg Hr Hst. unfold V1.ensureCurrentRound. rewrite Hg, Hr.
  by rewrite decide_False by (by intros ?).
Qed.

Lemma V2_ensureCurrentRound_exists now d g :
  currentGameState d = Some g →
  currentGameState (V2.ensureCurrentRound now d) = Some g
  ∧ is_Some (roundDocs (V2.ensureCurrentRound now d) !! currentRound g).
Proof.
  intros Hg. unfold V2.ensureCurrentRound. rewrite Hg.
  destruct (roundDocs d !! currentRound g) as [r |] eqn:Hr; simpl.
  - split; [done |]. by rewrite Hr.
  - split; [done |]. by rewrite lookup_insert_eq.
Qed.

Lemma V2_ensureCurrentRound_fix now d g r :
  currentGameState d = Some g → roundDocs d !! currentRound g = Some r →
  V2.ensureCurrentRound now d = d.
Proof. intros Hg Hr. unfold V2.ensureCurrentRound. by rewrite Hg, Hr. Qed.

Lemma loadGameState_Some now d :
  ∃ g, currentGameState (loadGameState now d) = Some g
     ∧ (currentGameState d = None → g = newGameState now)
     ∧ (∀ g0, currentGameState d = Some g0 → g = g0).
Proof.
  unfold loadGameState. destruct (currentGameState d) as [g |] eqn:Hg.
  - exists g. repeat split; try done. by intros g0 [= <-].
  - by exists (newGameState now).
Qed.

Lemma loadGameState_fix now d g : currentGameState d = Some g → loadGameState now d = d.
Proof. intros Hg. unfold loadGameState. by rewrite Hg. Qed.

Lemma V1_initialize_twice CONFIG now now' s :
  V1.initializeGameState CONFIG now' (V1.initializeGameState CONFIG now s)
  = V1.initializeGameState CONFIG now s.
Proof.
  unfold V1.initializeGameState, V1.startRoundTimer. simpl.
  destruct (loadGameState_Some now (V1.db s)) as (g & Hg & _).
  destruct (V1_ensureCurrentRound_voting now _ _ Hg) as (Hg' & r & Hr & Hst).
  rewrite (loadGameState_fix now' _ _ Hg').
  by rewrite (V1_ensureCurrentRound_fix now' _ _ _ Hg' Hr Hst).
Qed.

Lemma V2_initialize_twice now now' s :
  V2.initializeGameState now' (V2.initializeGameState now s)
  = V2.initializeGameState now s.
Proof.
  unfold V2.initializeGameState, V2.startVerificationPhase. simpl.
  destruct (loadGameState_Some now (V2.db s)) as (g & Hg & _).
  destruct (V2_ensureCurrentRound_exists now _ _ Hg) as (Hg' & r & Hr).
  rewrite (loadGameState_fix now' _ _ Hg').
  by rewrite (V2_ensureCurrentRound_fix now' _ _ _ Hg' Hr).
Qed.

(** C4, as the code has it.  Starting the engine twice gives the state of
    starting it once.  The start creates the round numbered
    [currentGameState.currentRound], in voting, when no round has that
    number: round 1 on a database without aggregate.  When the round
    exists, the second variant leaves the database as it is, and the first
    leaves it as it is if the round is in voting and else resets the round
    to voting with an empty tally.  In both variants the countdown starts
    again at the full voting window, whatever was left of it. *)
Theorem startEngine_idempotent
    (CONFIG : Config) (now now' : Z) (s1 : V1.State) (s2 : V2.State) :
  let t1 := V1.initializeGameState CONFIG now s1 in
  let t2 := V2.initializeGameState now s2 in
  (V1.initializeGameState CONFIG now' t1 = t1 ∧ V2.initializeGameState now' t2 = t2)
  ∧ (V1.serverTimeLeft t1 = (Qc_of_Z (ROUND_DURATION CONFIG) / Qc_of_Z 1000)%Qc
     ∧ V2.phaseTimeLeft t2 = 300 ∧ V2.currentPhase t2 = V2.phase_voting)
  ∧ (currentGameState (V1.db s1) = None → roundDocs (V1.db s1) !! 1 = None →
     V1.db t1 = mkDb (<[1 := newRound 1 now]> (roundDocs (V1.db s1))) (voteDocs (V1.db s1))
                     (participantDocs (V1.db s1)) (Some (newGameState now)))
  ∧ (currentGameState (V2.db s2) = None → roundDocs (V2.db s2) !! 1 = None →
     V2.db t2 = mkDb (<[1 := newRound 1 now]> (roundDocs (V2.db s2))) (voteDocs (V2.db s2))
                     (participantDocs (V2.db s2)) (Some (newGameState now)))
  ∧ (∀ g, currentGameState (V1.db s1) = Some g →
     match roundDocs (V1.db s1) !! currentRound g with
     | None => V1.db t1 =
         withRounds (<[currentRound g := newRound (currentRound g) now]>
                       (roundDocs (V1.db s1))) (V1.db s1)
     | Some r =>
         if decide (status r = voting) then V1.db t1 = V1.db s1
         else V1.db t1 =
           withRounds (<[currentRound g := setRoundVoting now r]> (roundDocs (V1.db s1)))
                      (V1.db s1)
     end)
  ∧ (∀ g, currentGameState (V2.db s2) = Some g →
     match roundDocs (V2.db s2) !! currentRound g with
     | None => V2.db t2 =
         withRounds (<[currentRound g := newRound (currentRound g) now]>
                       (roundDocs (V2.db s2))) (V2.db s2)
     | Some r => V2.db t2 = V2.db s2
     end).
Proof.
  intros t1 t2. repeat split.
  - apply V1_initialize_twice.
  - apply V2_initialize_twice.
  - intros Hg Hr. subst t1. simpl. unfold loadGameState, V1.ensureCurrentRound.
    rewrite Hg. simpl. by rewrite Hr.
  - intros Hg Hr. subst t2. simpl. unfold loadGameState, V2.ensureCurrentRound.
    rewrite Hg. simpl. by rewrite Hr.
  - intros g Hg. subst t1. simpl. rewrite (loadGameState_fix now _ _ Hg).
    unfold V1.ensureCurrentRound. rewrite Hg.
    destruct (roundDocs (V1.db s1) !! currentRound g) as [r |]; [| done].
    destruct (decide (status r = voting)) as [Hst | Hst].
    + by rewrite decide_False by (by intros ?).
    + by rewrite decide_True.
  - intros g Hg. subst t2. simpl. rewrite (loadGameState_fix now _ _ Hg).
    unfold V2.ensureCurrentRound. rewrite Hg.
    by destruct (roundDocs (V2.db s2) !! currentRound g).
Qed.

(** C4, as the spec states it, fails: the start does not resume the phase
    and the remaining time of an active round.  In the first variant, with
    one of two seconds left in the voting of round 1, the start puts the
    countdown back to two; with round 1 in spinning it puts the round back
    to voting.  In the second variant, with 1 of 300 seconds gone, the
    start puts the countdown back to 300. *)
Lemma startEngine_idempotent_counterexample :
  (V1.reachable exampleConfig exampleVoting
   ∧ V1.serverTimeLeft exampleVoting = Qc_of_Z 1
   ∧ V1.serverTimeLeft (V1.initializeGameState exampleConfig 9 exampleVoting) = Qc_of_Z 2)
  ∧ (∃ r r', roundDocs (V1.db exampleSpinning) !! 1 = Some r ∧ status r = spinning
      ∧ roundDocs (V1.db (V1.initializeGameState exampleConfig 9 exampleSpinning)) !! 1
        = Some r'
      ∧ status r' = voting)
  ∧ (V2.reachable exampleConfig exampleVoting2
     ∧ V2.phaseTimeLeft exampleVoting2 = 299
     ∧ V2.phaseTimeLeft (V2.initializeGameState 9 exampleVoting2) = 300).
Proof.
  split; [| split].
  - split; [| split].
    + apply exampleVoting_reachable.
    + apply Qc_is_canon. by vm_compute.
    + apply Qc_is_canon. by vm_compute.
  - eexists _, _. split; [by vm_compute |]. split; [done |].
    split; [by vm_compute | done].
  - split; [apply exampleVoting2_reachable |]. split; by vm_compute.
Qed.

(** ** The aggregate at the end of a round *)

Lemma Inv_no_next_round d g :
  Inv d → currentGameState d = Some g → roundDocs d !! (currentRound g + 1) = None.
Proof.
  intros HI Hg. destruct (roundDocs d !! (currentRound g + 1)) as [r |] eqn:Hr; [| done].
  destruct (inv_bounded d HI _ _ Hr) as (g' & Hg' & Hle).
  assert (g' = g) by congruence. subst. lia.
Qed.





(** ** The countdown *)

Lemma Qcmax_0_nonneg (x : Qc) : (0 ≤ Qcmax 0 x)%Qc.
Proof. unfold Qcmax. by case_decide. Qed.

Lemma Qcminus_1_le (t : Qc) : (t - 1 ≤ t)%Qc.
Proof.
  rewrite <- (Qcplus_0_r t) at 2. unfold Qcminus.
  apply Qcplus_le_mono_l. vm_compute. discriminate.
Qed.

Lemma Qcmax_0_pred_le (t : Qc) : (0 ≤ t)%Qc → (Qcmax 0 (t - 1) ≤ t)%Qc.
Proof. intros Ht. unfold Qcmax. case_decide; [apply Qcminus_1_le | done]. Qed.

Lemma full_window_nonneg CONFIG :
  0 ≤ ROUND_DURATION CONFIG →
  (0 ≤ Qc_of_Z (ROUND_DURATION CONFIG) / Qc_of_Z 1000)%Qc.
Proof.
  intros HD. apply Qcmult_nonneg_nonneg.
  - apply Z2Qc_inj_le in HD. by rewrite Z2Qc_inj_0 in HD.
  - apply Qclt_le_weak, Qcinv_pos. reflexivity.
Qed.

(** The countdown over one step of the first variant: the tick is
    [max(0, t - 1)], the start of a round puts the full window, nothing
    else writes it. *)
Lemma V1_step_time CONFIG e s :
  V1.serverTimeLeft (V1.step CONFIG e s) =
  match e with
  | V1.TimerTick _ => Qcmax 0 (V1.serverTimeLeft s - 1)%Qc
  | V1.ServerStart _ => (Qc_of_Z (ROUND_DURATION CONFIG) / Qc_of_Z 1000)%Qc
  | V1.NextRoundTimeout _ =>
      match currentGameState (V1.db s) with
      | Some _ => (Qc_of_Z (ROUND_DURATION CONFIG) / Qc_of_Z 1000)%Qc
      | None => V1.serverTimeLeft s
      end
  | _ => V1.serverTimeLeft s
  end.
Proof.
  destruct e; simpl; try done.
  - unfold V1.timerTick. by case_decide.
  - unfold V1.startNextRound. by destruct (currentGameState (V1.db s)).
  - unfold V1.apiVote. by destruct (castVote w c now (V1.db s)).
Qed.

Lemma V1_reachable_time_nonneg CONFIG s :
  0 ≤ ROUND_DURATION CONFIG → V1.reachable CONFIG s → (0 ≤ V1.serverTimeLeft s)%Qc.
Proof.
  intros HD. induction 1 as [| e s Hs IH He]; [vm_compute; discriminate |].
  rewrite V1_step_time. destruct e; try done.
  - by apply full_window_nonneg.
  - apply Qcmax_0_nonneg.
  - destruct (currentGameState (V1.db s)); [by apply full_window_nonneg | done].
Qed.

(** The countdown and the phase over one step of the second variant *)
Lemma V2_step_time CONFIG e s :
  V2.phaseTimeLeft (V2.step CONFIG e s) =
  match e with
  | V2.CountdownTick => Z.max 0 (V2.phaseTimeLeft s - 1)
  | V2.VotingTick _ =>
      if decide (Z.max 0 (V2.phaseTimeLeft s - 1) ≤ 0) then 5
      else Z.max 0 (V2.phaseTimeLeft s - 1)
  | V2.ServerStart _ | V2.NextRoundTimeout _ => 300
  | V2.SpinTimeout _ _ => 10
  | _ => V2.phaseTimeLeft s
  end.
Proof.
  destruct e; simpl; try done.
  - unfold V2.votingTick. simpl. by case_decide.
  - unfold V2.apiVote. case_decide; [done |].
    by destruct (castVote w c now (V2.db s)).
Qed.

Lemma V2_step_phase CONFIG e s :
  V2.currentPhase (V2.step CONFIG e s) =
  match e with
  | V2.VotingTick _ =>
      if decide (Z.max 0 (V2.phaseTimeLeft s - 1) ≤ 0) then V2.phase_spinning
      else V2.currentPhase s
  | V2.ServerStart _ | V2.NextRoundTimeout _ => V2.phase_voting
  | V2.SpinTimeout _ _ => V2.phase_results
  | _ => V2.currentPhase s
  end.
Proof.
  destruct e; simpl; try done.
  - unfold V2.votingTick. simpl. by case_decide.
  - unfold V2.apiVote. case_decide; [done |].
    by destruct (castVote w c now (V2.db s)).
Qed.

Lemma V2_reachable_time_nonneg CONFIG s :
  V2.reachable CONFIG s → 0 ≤ V2.phaseTimeLeft s.
Proof.
  induction 1 as [| e s Hs IH He]; [done |].
  rewrite V2_step_time. destruct e; try case_decide; lia.
Qed.

Lemma negative_window CONFIG :
  ROUND_DURATION CONFIG < 0 → (Qc_of_Z (ROUND_DURATION CONFIG) / Qc_of_Z 1000 < 0)%Qc.
Proof.
  intros HD. unfold Qcdiv.
  apply Qclt_le_trans with (0 * / Qc_of_Z 1000)%Qc;
    [| rewrite Qcmult_0_l; apply Qcle_refl].
  apply Qcmult_lt_compat_r; [apply Qcinv_pos; reflexivity |].
  apply (proj1 (Z2Qc_inj_lt _ _)) in HD. by rewrite Z2Qc_inj_0 in HD.
Qed.

(** C6, as the code has it.  A tick of the countdown puts the remaining
    time to [max(0, t - 1)]: never negative, and not above [t] when [t] is
    not negative.  Nothing else writes the remaining time but the start of
    a phase, which puts the window of that phase, whatever the time was.
    In the second variant the windows are 300, 5 and 10 seconds, and the
    remaining time is never negative.  In the first variant the window is
    [ROUND_DURATION / 1000]: the remaining time is never negative when
    [ROUND_DURATION] is not, and a negative [ROUND_DURATION] gives a
    negative window.  The start of the voting runs at every start of the
    server and at every next-round timeout, whether the round is in voting
    already or not. *)
Theorem remaining_time_by_ticks_and_starts (CONFIG : Config) :
  (∀ e s,
     V1.serverTimeLeft (V1.step CONFIG e s) =
     match e with
     | V1.TimerTick _ => Qcmax 0 (V1.serverTimeLeft s - 1)%Qc
     | V1.ServerStart _ => (Qc_of_Z (ROUND_DURATION CONFIG) / Qc_of_Z 1000)%Qc
     | V1.NextRoundTimeout _ =>
         match currentGameState (V1.db s) with
         | Some _ => (Qc_of_Z (ROUND_DURATION CONFIG) / Qc_of_Z 1000)%Qc
         | None => V1.serverTimeLeft s
         end
     | _ => V1.serverTimeLeft s
     end)
  ∧ (∀ t : Qc, (0 ≤ Qcmax 0 (t - 1))%Qc ∧ ((0 ≤ t)%Qc → (Qcmax 0 (t - 1) ≤ t)%Qc))
  ∧ (0 ≤ ROUND_DURATION CONFIG →
     ∀ s, V1.reachable CONFIG s → (0 ≤ V1.serverTimeLeft s)%Qc)
  ∧ (ROUND_DURATION CONFIG < 0 →
     (Qc_of_Z (ROUND_DURATION CONFIG) / Qc_of_Z 1000 < 0)%Qc)
  ∧ (∀ e s,
       V2.phaseTimeLeft (V2.step CONFIG e s) =
       match e with
       | V2.CountdownTick => Z.max 0 (V2.phaseTimeLeft s - 1)
       | V2.VotingTick _ =>
           if decide (Z.max 0 (V2.phaseTimeLeft s - 1) ≤ 0) then 5
           else Z.max 0 (V2.phaseTimeLeft s - 1)
       | V2.ServerStart _ | V2.NextRoundTimeout _ => 300
       | V2.SpinTimeout _ _ => 10
       | _ => V2.phaseTimeLeft s
       end)
  ∧ (∀ e s,
       V2.currentPhase (V2.step CONFIG e s) =
       match e with
       | V2.VotingTick _ =>
           if decide (Z.max 0 (V2.phaseTimeLeft s - 1) ≤ 0) then V2.phase_spinning
           else V2.currentPhase s
       | V2.ServerStart _ | V2.NextRoundTimeout _ => V2.phase_voting
       | V2.SpinTimeout _ _ => V2.phase_results
       | _ => V2.currentPhase s
       end)
  ∧ (∀ t : Z, 0 ≤ Z.max 0 (t - 1) ∧ (0 ≤ t → Z.max 0 (t - 1) ≤ t))
  ∧ (∀ s, V2.reachable CONFIG s → 0 ≤ V2.phaseTimeLeft s).
Proof.
  split; [apply V1_step_time |].
  split; [intros t; split; [apply Qcmax_0_nonneg | apply Qcmax_0_pred_le] |].
  split; [intros HD s; by apply V1_reachable_time_nonneg |].
  split; [apply negative_window |].
  split; [apply V2_step_time |].
  split; [apply V2_step_phase |].
  split; [intros t; lia |].
  apply V2_reachable_time_nonneg.
Qed.

(** C6, as the spec states it, fails on the first variant.  With
    [ROUND_DURATION = -4000] the start of the server puts the remaining
    time to -4, and the next tick raises it to 0.  And with a window of two
    seconds, a start of the server one second into the voting of round 1
    puts the remaining time from 1 back to 2, the round being in voting
    before and after. *)
Lemma remaining_time_counterexample :
  V1.reachable negativeConfig exampleNegative
  ∧ V1.serverTimeLeft exampleNegative = Qc_of_Z (-4)
  ∧ V1.serverTimeLeft (V1.step negativeConfig (V1.TimerTick (1 # 4)) exampleNegative)
    = Qc_of_Z 0
  ∧ V1.reachable exampleConfig exampleVoting
  ∧ V1.serverTimeLeft exampleVoting = Qc_of_Z 1
  ∧ V1.serverTimeLeft (V1.step exampleConfig (V1.ServerStart 9) exampleVoting) = Qc_of_Z 2
  ∧ ∃ r r',
      roundDocs (V1.db exampleVoting) !! 1 = Some r ∧ status r = voting
      ∧ roundDocs (V1.db (V1.step exampleConfig (V1.ServerStart 9) exampleVoting)) !! 1
        = Some r'
      ∧ status r' = voting.
Proof.
  split; [apply V1.reachable_step; [apply V1.reachable_initial | done] |].
  split; [apply Qc_is_canon; by vm_compute |].
  split; [apply Qc_is_canon; by vm_compute |].
  split; [apply exampleVoting_reachable |].
  split; [apply Qc_is_canon; by vm_compute |].
  split; [apply Qc_is_canon; by vm_compute |].
  eexists _, _. split; [by vm_compute |]. split; [done |].
  split; [by vm_compute | done].
Qed.

(** ** The choice of the colour *)

Lemma chooseColor_Red u : chooseColor u = Red ↔ (u < 1 # 2)%Q.
Proof.
  unfold chooseColor. destruct (Qlt_le_dec u (1 # 2)) as [Hlt | Hle].
  - done.
  - split; [done |]. intros Hlt. by destruct (Qle_not_lt _ _ Hle).
Qed.

Lemma chooseColor_Black u : chooseColor u = Black ↔ (1 # 2 <= u)%Q.
Proof.
  unfold chooseColor. destruct (Qlt_le_dec u (1 # 2)) as [Hlt | Hle].
  - split; [done |]. intros Hle. by destruct (Qle_not_lt _ _ Hle).
  - done.
Qed.

Lemma Zpos_of_nat (m : nat) : (0 < m)%nat → Z.pos (Pos.of_nat m) = Z.of_nat m.
Proof. intros Hm. rewrite <- positive_nat_Z, Nat2Pos.id; [done | lia]. Qed.

Lemma evenDraw_lt_half (n k : nat) :
  (0 < n)%nat → (Z.of_nat k # Pos.of_nat (2 * n) < 1 # 2)%Q ↔ (k < n)%nat.
Proof.
  intros Hn. unfold Qlt. simpl Qnum. simpl Qden.
  rewrite Zpos_of_nat by lia. lia.
Qed.

Lemma evenDraws_good (n : nat) : (0 < n)%nat → Forall goodDraw (evenDraws n).
Proof.
  intros Hn. unfold evenDraws. apply Forall_fmap, Forall_seq. intros k [_ Hk].
  split.
  - unfold Qle. simpl. lia.
  - unfold Qlt. simpl Qnum. simpl Qden. rewrite Zpos_of_nat by lia. lia.
Qed.

Lemma length_filter_fmap {A B} (f : A → B) (P : B → Prop) `{!∀ y, Decision (P y)}
    (l : list A) :
  length (filter P (f <$> l)) = length (filter (λ x, P (f x)) l).
Proof.
  induction l as [| x l IH]; [done |]. rewrite fmap_cons, !filter_cons.
  destruct (decide (P (f x))); simpl; by rewrite IH.
Qed.

Lemma filter_all {A} (P : A → Prop) `{!∀ x, Decision (P x)} (l : list A) :
  Forall P l → filter P l = l.
Proof.
  induction 1 as [| x l Hx _ IH]; [done |]. by rewrite filter_cons_True, IH.
Qed.

Lemma filter_none {A} (P : A → Prop) `{!∀ x, Decision (P x)} (l : list A) :
  Forall (λ x, ¬ P x) l → filter P l = [].
Proof.
  induction 1 as [| x l Hx _ IH]; [done |]. by rewrite filter_cons_False.
Qed.

Lemma evenDraws_half (n : nat) :
  (0 < n)%nat →
  length (filter (λ u, chooseColor u = Red) (evenDraws n)) = n
  ∧ length (filter (λ u, chooseColor u = Black) (evenDraws n)) = n.
Proof.
  intros Hn. unfold evenDraws. rewrite !length_filter_fmap.
  replace (2 * n)%nat with (n + n)%nat by lia.
  rewrite seq_app, !filter_app, !length_app. simpl.
  assert (HR : ∀ k, chooseColor (Z.of_nat k # Pos.of_nat (n + n)) = Red ↔ (k < n)%nat).
  { intros k. rewrite chooseColor_Red. replace (n + n)%nat with (2 * n)%nat by lia.
    by apply evenDraw_lt_half. }
  assert (HB : ∀ k, chooseColor (Z.of_nat k # Pos.of_nat (n + n)) = Black ↔ ¬ (k < n)%nat).
  { intros k. split.
    - intros Hb Hlt. apply HR in Hlt. congruence.
    - intros Hge. destruct (chooseColor _) eqn:E; [| done]. by apply HR in E. }
  split.
  - rewrite filter_all.
    + rewrite filter_none; [rewrite length_seq; simpl; lia |].
      apply Forall_seq. intros k Hk. rewrite HR. lia.
    + apply Forall_seq. intros k Hk. rewrite HR. lia.
  - rewrite filter_none.
    + rewrite filter_all; [rewrite length_seq; simpl; lia |].
      apply Forall_seq. intros k Hk. rewrite HB. lia.
    + apply Forall_seq. intros k Hk. rewrite HB. lia.
Qed.

Lemma closeVoting_color u d g r :
  findCurrentRound voting d = Some (g, r) →
  roundDocs (closeVoting u d) !! currentRound g = Some (setRoundSpinning (chooseColor u) r).
Proof.
  intros Hf. unfold closeVoting. rewrite Hf. simpl. by rewrite lookup_insert_eq.
Qed.

(** C8.  The colour is red for a draw below one half and black from one
    half on, so that of any even number of equally spaced draws of [0, 1)
    one half gives each colour.  The colour stored at the end of the voting
    is that function of the draw alone: two rounds closed with the same
    draw get the same colour, whatever their tallies. *)
Theorem category_choice_uniform_and_tally_independent
    (n : nat) (u : Q) (s1 s1' : V1.State) (s2 s2' : V2.State)
    (g1 g1' g2 g2' : GameState) (r1 r1' r2 r2' : Round) :
  (0 < n)%nat →
  findCurrentRound voting (V1.db s1) = Some (g1, r1) →
  findCurrentRound voting (V1.db s1') = Some (g1', r1') →
  findCurrentRound voting (V2.db s2) = Some (g2, r2) →
  findCurrentRound voting (V2.db s2') = Some (g2', r2') →
  ((chooseColor u = Red ↔ (u < 1 # 2)%Q) ∧ (chooseColor u = Black ↔ (1 # 2 <= u)%Q))
  ∧ (Forall goodDraw (evenDraws n)
     ∧ length (evenDraws n) = (2 * n)%nat
     ∧ length (filter (λ x, chooseColor x = Red) (evenDraws n)) = n
     ∧ length (filter (λ x, chooseColor x = Black) (evenDraws n)) = n)
  ∧ (∃ x x',
       roundDocs (V1.db (V1.endVotingPhase u s1)) !! currentRound g1 = Some x
       ∧ roundDocs (V1.db (V1.endVotingPhase u s1')) !! currentRound g1' = Some x'
       ∧ votes x = votes r1 ∧ votes x' = votes r1'
       ∧ winningColor x = Some (chooseColor u) ∧ winningColor x' = winningColor x)
  ∧ (∃ x x',
       roundDocs (V2.db (V2.endVotingPhase u s2)) !! currentRound g2 = Some x
       ∧ roundDocs (V2.db (V2.endVotingPhase u s2')) !! currentRound g2' = Some x'
       ∧ votes x = votes r2 ∧ votes x' = votes r2'
       ∧ winningColor x = Some (chooseColor u) ∧ winningColor x' = winningColor x).
Proof.
  intros Hn H1 H1' H2 H2'. split; [| split; [| split]].
  - split; [apply chooseColor_Red | apply chooseColor_Black].
  - destruct (evenDraws_half n Hn) as [HR HB].
    split; [by apply evenDraws_good |]. split; [| done].
    unfold evenDraws. by rewrite length_fmap, length_seq.
  - eexists _, _. simpl.
    rewrite (closeVoting_color u _ _ _ H1), (closeVoting_color u _ _ _ H1'). done.
  - eexists _, _. simpl.
    rewrite (closeVoting_color u _ _ _ H2), (closeVoting_color u _ _ _ H2'). done.
Qed.

Lemma category_choice_uniform_and_tally_independent_witness :
  (length (filter (λ x, chooseColor x = Red) (evenDraws 1)) = 1%nat
   ∧ length (filter (λ x, chooseColor x = Black) (evenDraws 1)) = 1%nat)
  ∧ ∃ x x',
      roundDocs (V1.db (V1.endVotingPhase (1 # 4) exampleVoting)) !! 1 = Some x
      ∧ roundDocs (V1.db (V1.endVotingPhase (1 # 4) exampleOneVote)) !! 1 = Some x'
      ∧ votes x = mkTally 1 1 ∧ votes x' = mkTally 1 0
      ∧ winningColor x = Some Red ∧ winningColor x' = winningColor x.
Proof.
  destruct (category_choice_uniform_and_tally_independent 1 (1 # 4)
              exampleVoting exampleOneVote exampleVoting2 exampleOneVote2
              _ _ _ _ _ _ _ _
              (Nat.lt_0_succ 0)
              exampleVoting_current exampleOneVote_current
              exampleVoting2_current exampleOneVote2_current)
    as (_ & (_ & _ & HR & HB) & (x & x' & H) & _).
  split; [by split |]. exists x, x'. exact H.
Defined.

(** ** A round without winner *)

#[local] Instance byNumberDesc_trans : Transitive byNumberDesc.
Proof. intros a b c. unfold byNumberDesc. lia. Qed.

#[local] Instance byNumberDesc_total : Total byNumberDesc.
Proof. intros a b. unfold byNumberDesc. lia. Qed.

Lemma elem_of_completed (rs : gmap Z Round) x :
  x ∈ merge_sort byNumberDesc (filter (λ r, status r = completed) (snd <$> map_to_list rs))
  ↔ status x = completed ∧ ∃ k, rs !! k = Some x.
Proof.
  rewrite merge_sort_Permutation, list_elem_of_filter, list_elem_of_fmap.
  split.
  - intros [Hst ([k r] & -> & Hin)]. split; [done |]. exists k.
    by apply elem_of_map_to_list.
  - intros [Hst [k Hk]]. split; [done |]. exists (k, x). split; [done |].
    by apply elem_of_map_to_list.
Qed.

Lemma elem_of_history (rs : gmap Z Round) x :
  x ∈ history rs → status x = completed ∧ ∃ k, rs !! k = Some x.
Proof.
  unfold history. intros (i & Hi & _)%elem_of_take.
  apply elem_of_completed. by eapply list_elem_of_lookup_2.
Qed.

(** The completed round with the highest number comes first. *)
Lemma history_head (rs : gmap Z Round) n x :
  rs !! n = Some x → status x = completed →
  (∀ k r, rs !! k = Some r → roundNumber r = k ∧ k ≤ n) →
  head (history rs) = Some x.
Proof.
  intros Hx Hst Hall. unfold history.
  set (L := merge_sort byNumberDesc _).
  assert (HxL : x ∈ L) by (apply elem_of_completed; eauto).
  assert (HS : StronglySorted byNumberDesc L)
    by (apply StronglySorted_merge_sort; apply _).
  destruct L as [| h T] eqn:HL; [by apply elem_of_nil in HxL |].
  simpl. f_equal.
  assert (HhL : h ∈ L) by (rewrite HL; apply list_elem_of_here).
  apply elem_of_completed in HhL as [_ [kh Hkh]].
  destruct (Hall _ _ Hkh) as [Hnh Hle].
  destruct (Hall _ _ Hx) as [Hnx _].
  assert (Hge : roundNumber x ≤ roundNumber h).
  { apply elem_of_cons in HxL as [-> | HxT]; [lia |].
    apply StronglySorted_inv in HS as [_ HF].
    rewrite Forall_forall in HF. exact (HF x HxT). }
  assert (kh = n) by lia. subst kh. congruence.
Qed.

Lemma completeRound_no_votes now u d g r :
  findCurrentRound spinning d = Some (g, r) →
  findVotes (roundNumber r) (winningColor r) (voteDocs d) = [] →
  completeRound now u d =
  mkDb (<[currentRound g := setRoundCompleted now None r]> (roundDocs d))
       (voteDocs d) (participantDocs d) (Some (gameStateCompleted now None g)).
Proof. intros Hf He. unfold completeRound. by rewrite Hf, He. Qed.

Lemma completeRound_no_winner_reported now u d g r :
  Inv d → findCurrentRound spinning d = Some (g, r) →
  findVotes (roundNumber r) (winningColor r) (voteDocs d) = [] →
  let d' := completeRound now u d in
  roundDocs d' !! currentRound g = Some (setRoundCompleted now None r)
  ∧ winner (setRoundCompleted now None r) = None
  ∧ (∃ g', currentGameState d' = Some g' ∧ lastWinner g' = None
         ∧ roundDocs d' !! currentRound g' = None)
  ∧ head (history (roundDocs d')) = Some (setRoundCompleted now None r)
  ∧ (∀ x, x ∈ history (roundDocs d') → roundNumber x = currentRound g → winner x = None).
Proof.
  intros HI Hf He d'.
  pose proof (Inv_completeRound now u d HI) as HI'. fold d' in HI'.
  subst d'. rewrite (completeRound_no_votes now u d g r Hf He) in *.
  apply findCurrentRound_Some in Hf as (Hg & Hr & _).
  pose proof (Inv_no_next_round d g HI Hg) as Hnext.
  simpl. rewrite lookup_insert_eq. repeat split.
  - eexists. repeat split. simpl. by rewrite lookup_insert_ne by lia.
  - apply (history_head _ (currentRound g)); [by rewrite lookup_insert_eq | done |].
    intros k x Hx. split; [by apply (inv_keyed _ HI') |].
    revert Hx. rewrite lookup_insert. case_decide; [lia |]. intros Hx.
    destruct (inv_bounded d HI _ _ Hx) as (g' & Hg' & Hle).
    assert (g' = g) by congruence. by subst.
  - intros x Hx Hn. apply elem_of_history in Hx as [_ [k Hk]].
    pose proof (inv_keyed _ HI' _ _ Hk) as Hkey. simpl in Hk.
    rewrite lookup_insert in Hk. case_decide; [| congruence].
    by injection Hk as <-.
Qed.

(** C9.  When the round in spinning has no vote of its winning colour and
    is completed, the winner stored in the round and [lastWinner] of the
    aggregate are the absent value [null], which is not the string "none".
    The snapshot gives [lastWinner] so, and its round part, which is that of
    the next round, not yet created, has [winner: null]; the history lists
    the round first, with no winner.  In every state the server reaches the
    history gives no winner for a round without vote of its winning
    colour. *)
Theorem absent_winner_is_null
    (CONFIG : Config) (now now' : Z) (u : Q) (s1 : V1.State) (s2 : V2.State)
    (g1 g2 : GameState) (r1 r2 : Round) :
  V1.reachable CONFIG s1 → findCurrentRound spinning (V1.db s1) = Some (g1, r1) →
  findVotes (roundNumber r1) (winningColor r1) (voteDocs (V1.db s1)) = [] →
  V2.reachable CONFIG s2 → findCurrentRound spinning (V2.db s2) = Some (g2, r2) →
  findVotes (roundNumber r2) (winningColor r2) (voteDocs (V2.db s2)) = [] →
  (let t1 := V1.selectWinner now u s1 in
   (∃ x, roundDocs (V1.db t1) !! currentRound g1 = Some x
       ∧ status x = completed ∧ winner x = None
       ∧ head (history (roundDocs (V1.db t1))) = Some x)
   ∧ (∃ g', currentGameState (V1.db t1) = Some g' ∧ lastWinner g' = None)
   ∧ (∃ gv rd, V1.getCurrentGameData now' t1 = Some (gv, rd)
        ∧ V1.gv_lastWinner gv = None ∧ rd_winner rd = None)
   ∧ (∀ x, x ∈ history (roundDocs (V1.db t1)) → roundNumber x = currentRound g1 →
        winner x = None))
  ∧
  (let t2 := V2.performAutomaticSpin now u s2 in
   (∃ x, roundDocs (V2.db t2) !! currentRound g2 = Some x
       ∧ status x = completed ∧ winner x = None
       ∧ head (history (roundDocs (V2.db t2))) = Some x)
   ∧ (∃ g', currentGameState (V2.db t2) = Some g' ∧ lastWinner g' = None)
   ∧ (∃ gv rd, V2.getCurrentGameData now' t2 = Some (gv, rd)
        ∧ V2.gv_lastWinner gv = None ∧ rd_winner rd = None)
   ∧ (∀ x, x ∈ history (roundDocs (V2.db t2)) → roundNumber x = currentRound g2 →
        winner x = None))
  ∧ (∀ t x, V1.reachable CONFIG t → x ∈ history (roundDocs (V1.db t)) →
       findVotes (roundNumber x) (winningColor x) (voteDocs (V1.db t)) = [] →
       winner x = None)
  ∧ (∀ t x, V2.reachable CONFIG t → x ∈ history (roundDocs (V2.db t)) →
       findVotes (roundNumber x) (winningColor x) (voteDocs (V2.db t)) = [] →
       winner x = None)
  ∧ (None : option string) ≠ Some "none"%string.
Proof.
  intros Hs1 Hf1 He1 Hs2 Hf2 He2. split; [| split; [| split; [| split; [| done]]]].
  3: { intros t x Ht [Hst [k Hk]]%elem_of_history He.
       destruct (V1_reachable_CompletedOk CONFIG t Ht k x Hk Hst) as [_ Hw].
       by apply (winnerOk_cases _ _ Hw). }
  3: { intros t x Ht [Hst [k Hk]]%elem_of_history He.
       destruct (V2_reachable_CompletedOk CONFIG t Ht k x Hk Hst) as [_ Hw].
       by apply (winnerOk_cases _ _ Hw). }
  - destruct (completeRound_no_winner_reported now u _ _ _
                (V1_reachable_Inv _ _ Hs1) Hf1 He1)
      as (Hr & Hw & (g' & Hg' & Hlw & Hnone) & Hhead & Hhist).
    simpl. repeat split.
    + by eexists.
    + by exists g'.
    + unfold V1.getCurrentGameData. simpl. rewrite Hg'. simpl. rewrite Hnone.
      by eexists _, _.
    + done.
  - destruct (completeRound_no_winner_reported now u _ _ _
                (V2_reachable_Inv _ _ Hs2) Hf2 He2)
      as (Hr & Hw & (g' & Hg' & Hlw & Hnone) & Hhead & Hhist).
    simpl. repeat split.
    + by eexists.
    + by exists g'.
    + unfold V2.getCurrentGameData. simpl. rewrite Hg'. simpl. rewrite Hnone.
      by eexists _, _.
    + done.
Qed.

Lemma absent_winner_is_null_witness :
  (∃ x, roundDocs (V1.db (V1.selectWinner 99 (1 # 4) exampleNoVotes)) !! 1 = Some x
      ∧ status x = completed ∧ winner x = None
      ∧ head (history (roundDocs (V1.db (V1.selectWinner 99 (1 # 4) exampleNoVotes))))
        = Some x)
  ∧ (∃ g', currentGameState (V2.db (V2.performAutomaticSpin 99 (1 # 4) exampleNoVotes2))
           = Some g'
         ∧ lastWinner g' = None).
Proof.
  destruct (absent_winner_is_null exampleConfig 99 100 (1 # 4)
              exampleNoVotes exampleNoVotes2 _ _ _ _
              exampleNoVotes_reachable exampleNoVotes_current eq_refl
              exampleNoVotes2_reachable exampleNoVotes2_current eq_refl)
    as ((Hx & _) & (_ & Hg & _) & _).
  split; [exact Hx | exact Hg].
Defined.


(** * Further properties *)

(** ** Every handler writes by the listed writes *)

Lemma dbMove_reset d d' : dbMove false d d' → dbMove true d d'.
Proof. intros H. destruct H; try done; by econstructor. Qed.

Lemma loadGameState_move b now d :
  loadGameState now d = d ∨ (currentGameState d = None ∧ dbMove b d (loadGameState now d)).
Proof.
  unfold loadGameState. destruct (currentGameState d) eqn:Hg; [by left |].
  right. split; [done |]. by constructor.
Qed.

Lemma V1_ensureCurrentRound_move now d : dbMove01 true d (V1.ensureCurrentRound now d).
Proof.
  unfold V1.ensureCurrentRound, dbMove01.
  destruct (currentGameState d) as [g |] eqn:Hg; [| by left].
  destruct (roundDocs d !! currentRound g) as [r |] eqn:Hr.
  - case_decide; [| by left]. right. by apply move_reset.
  - right. by apply move_create.
Qed.

Lemma V2_ensureCurrentRound_move b now d : dbMove01 b d (V2.ensureCurrentRound now d).
Proof.
  unfold V2.ensureCurrentRound, dbMove01.
  destruct (currentGameState d) as [g |] eqn:Hg; [| by left].
  destruct (roundDocs d !! currentRound g) as [r |] eqn:Hr; [by left |].
  right. by apply move_create.
Qed.

Lemma closeVoting_move b u d : dbMove01 b d (closeVoting u d).
Proof.
  unfold closeVoting, dbMove01.
  destruct (findCurrentRound voting d) as [[g r] |] eqn:Hf; [| by left].
  right. by apply move_close.
Qed.

Lemma completeRound_move b now u d : dbMove01 b d (completeRound now u d).
Proof.
  unfold completeRound, dbMove01.
  destruct (findCurrentRound spinning d) as [[g r] |] eqn:Hf; [| by left].
  destruct (drawWinner u _) as [w |] eqn:Hd; [| by left].
  right. apply move_complete; [done |]. unfold winnerOk. simpl.
  destruct w as [a |].
  - by apply drawWinner_elem_of in Hd.
  - by apply drawWinner_None_nil in Hd.
Qed.

Lemma castVote_move b w c now d : dbMove01 b d (snd (castVote w c now d)).
Proof.
  unfold castVote, dbMove01.
  case_decide as Hw; [by left |].
  destruct (parseColor c) as [col |]; [| by left].
  destruct (verified w (participantDocs d)) eqn:Hver; [| by left]. simpl.
  destruct (currentGameState d) as [g |] eqn:Hg; [| by left].
  destruct (findVote w (currentRound g) (voteDocs d)) eqn:Hfv; [by left |].
  destruct (findCurrentRound voting d) as [[g' r] |] eqn:Hf; [| by left].
  pose proof Hf as Hf'. apply findCurrentRound_Some in Hf' as (Hg' & _ & _).
  assert (g' = g) by congruence. subst g'.
  right. simpl. rewrite <- Hg. by apply move_vote.
Qed.

Lemma setPrize_move b p d : dbMove01 b d (snd (setPrize p d)).
Proof.
  unfold setPrize, dbMove01. case_decide as Hp; [by left |].
  destruct (currentGameState d) as [g |] eqn:Hg; [| by left].
  destruct (roundDocs d !! currentRound g) as [r |] eqn:Hr; [| by left].
  right. simpl. apply move_prize; [| done | done]. by apply Qclt_nge.
Qed.

Lemma markPaid_move b n d : dbMove01 b d (snd (markPaid n d)).
Proof.
  unfold markPaid, dbMove01.
  destruct (roundDocs d !! n) as [r |] eqn:Hr; [| by left].
  destruct (noWinner (winner r)) eqn:Hw; [by left |].
  destruct (currentGameState d) as [g |] eqn:Hg; [| by left].
  right. simpl. by eapply move_paid.
Qed.

Lemma verifyWallet_move b m w valid balance now d :
  dbMove01 b d (snd (verifyWallet m w valid balance now d)).
Proof.
  unfold verifyWallet, dbMove01. case_decide as Hw; [by left |].
  case_decide; [by left |]. right. simpl. apply move_verify.
  intros ->. apply Hw. by left.
Qed.

(** A step of either variant is no write, one write, or the creation of
    the aggregate followed by at most one write. *)
Lemma V1_step_moves CONFIG e s :
  dbMove01 true (V1.db s) (V1.db (V1.step CONFIG e s))
  ∨ ∃ now, currentGameState (V1.db s) = None
         ∧ dbMove true (V1.db s) (loadGameState now (V1.db s))
         ∧ dbMove01 true (loadGameState now (V1.db s)) (V1.db (V1.step CONFIG e s)).
Proof.
  destruct e; simpl.
  - destruct (loadGameState_move true now (V1.db s)) as [-> | [Hg Hm]].
    + left. apply V1_ensureCurrentRound_move.
    + right. exists now. repeat split; [done | done |]. apply V1_ensureCurrentRound_move.
  - left. unfold V1.timerTick. case_decide; simpl; [apply closeVoting_move | by left].
  - left. apply completeRound_move.
  - left. unfold V1.startNextRound. destruct (currentGameState (V1.db s)); [| by left].
    simpl. apply V1_ensureCurrentRound_move.
  - left. apply verifyWallet_move.
  - left. unfold V1.apiVote. pose proof (castVote_move true w c now (V1.db s)) as Hm.
    by destruct (castVote w c now (V1.db s)).
  - left. apply setPrize_move.
  - left. apply markPaid_move.
Qed.

Lemma V2_step_moves CONFIG e s :
  dbMove01 false (V2.db s) (V2.db (V2.step CONFIG e s))
  ∨ ∃ now, currentGameState (V2.db s) = None
         ∧ dbMove false (V2.db s) (loadGameState now (V2.db s))
         ∧ dbMove01 false (loadGameState now (V2.db s)) (V2.db (V2.step CONFIG e s)).
Proof.
  destruct e; simpl.
  - destruct (loadGameState_move false now (V2.db s)) as [-> | [Hg Hm]].
    + left. apply V2_ensureCurrentRound_move.
    + right. exists now. repeat split; [done | done |]. apply V2_ensureCurrentRound_move.
  - left. unfold V2.votingTick. case_decide; simpl; [apply closeVoting_move | by left].
  - by left; left.
  - left. apply completeRound_move.
  - left. apply V2_ensureCurrentRound_move.
  - left. apply verifyWallet_move.
  - left. unfold V2.apiVote. case_decide; [by left |].
    pose proof (castVote_move false w c now (V2.db s)) as Hm.
    by destruct (castVote w c now (V2.db s)).
  - left. apply setPrize_move.
  - left. apply markPaid_move.
Qed.

Lemma V1_reachable_Sound CONFIG s : V1.reachable CONFIG s → Sound (V1.db s).
Proof. intros Hs. split; [by eapply V1_reachable_Inv | by eapply V1_reachable_CompletedOk]. Qed.

Lemma V2_reachable_Sound CONFIG s : V2.reachable CONFIG s → Sound (V2.db s).
Proof. intros Hs. split; [by eapply V2_reachable_Inv | by eapply V2_reachable_CompletedOk]. Qed.

Lemma Sound_loadGameState now d : Sound d → Sound (loadGameState now d).
Proof.
  intros [HI HC]. split; [by apply Inv_loadGameState | by apply CompletedOk_loadGameState].
Qed.

(** A property of the database kept by every write holds in every state
    the server reaches. *)
Lemma V1_reachable_kept CONFIG (Q : Db → Prop) :
  Q emptyDb →
  (∀ d d', Sound d → Q d → dbMove true d d' → Q d') →
  ∀ s, V1.reachable CONFIG s → Q (V1.db s).
Proof.
  intros H0 Hmove s. induction 1 as [| e s Hs IH He]; [done |].
  pose proof (V1_reachable_Sound _ _ Hs) as HS.
  destruct (V1_step_moves CONFIG e s) as [[-> | Hm] | (now & _ & Hm1 & [-> | Hm2])].
  - done.
  - by eapply Hmove.
  - by eapply Hmove.
  - eapply Hmove; [| | exact Hm2].
    + by apply Sound_loadGameState.
    + by eapply Hmove.
Qed.

Lemma V2_reachable_kept CONFIG (Q : Db → Prop) :
  Q emptyDb →
  (∀ d d', Sound d → Q d → dbMove false d d' → Q d') →
  ∀ s, V2.reachable CONFIG s → Q (V2.db s).
Proof.
  intros H0 Hmove s. induction 1 as [| e s Hs IH He]; [done |].
  pose proof (V2_reachable_Sound _ _ Hs) as HS.
  destruct (V2_step_moves CONFIG e s) as [[-> | Hm] | (now & _ & Hm1 & [-> | Hm2])].
  - done.
  - by eapply Hmove.
  - by eapply Hmove.
  - eapply Hmove; [| | exact Hm2].
    + by apply Sound_loadGameState.
    + by eapply Hmove.
Qed.

(** ** The numbering of the rounds is kept *)

Lemma lookup_insert_is_Some_mono (rs : gmap Z Round) k r j :
  is_Some (rs !! j) → is_Some (<[k := r]> rs !! j).
Proof. intros H. rewrite lookup_insert. by case_decide. Qed.

Lemma Numbered_empty : Numbered emptyDb.
Proof.
  split; simpl; try done.
  all: try (intros k r; by rewrite lookup_empty).
  all: intros v; by intros ?%elem_of_nil.
Qed.

Lemma Numbered_insert_current d g r' :
  Numbered d → currentGameState d = Some g →
  Numbered (withRounds (<[currentRound g := r']> (roundDocs d)) d).
Proof.
  intros [Hf Hp Hk Hb Hl Hv] Hg. destruct (Hp g Hg) as [Hpos _].
  split; simpl; try done.
  - intros k r. rewrite lookup_insert. case_decide; [intros _; lia | apply Hk].
  - intros g0 k Hg0 Hlt. assert (g0 = g) by congruence. subst g0.
    rewrite lookup_insert_ne by lia. by apply (Hb g).
  - intros g0 Hg0. assert (g0 = g) by congruence. subst g0.
    specialize (Hl g Hg). case_decide; [done |].
    by rewrite lookup_insert_ne by lia.
  - intros v Hin. by apply lookup_insert_is_Some_mono, Hv.
Qed.

Lemma Numbered_move b d d' : Sound d → Numbered d → dbMove b d d' → Numbered d'.
Proof.
  intros [HI HC] HN Hm.
  destruct Hm as [now d Hg | now d g Hg Hr | now d g r _ Hg Hr Hst | c d g r Hf
                 | now w d g r Hf Hw | w col now d g r Hw Hver Hfv Hf
                 | p d g r Hp Hg Hr | n d g r Hr Hw Hg | w balance now d Hw].
  - destruct HN as [Hf Hp Hk Hb Hl Hv]. split; simpl; try done.
    + intros g [= <-]. done.
    + intros g k [= <-]. simpl. lia.
    + intros g [= <-]. done.
  - by apply Numbered_insert_current.
  - by apply Numbered_insert_current.
  - apply findCurrentRound_Some in Hf as (Hg & _ & _). by apply Numbered_insert_current.
  - apply findCurrentRound_Some in Hf as (Hg & Hr & _).
    destruct HN as [Hf Hp Hk Hb Hl Hv]. destruct (Hp g Hg) as [Hpos Hplayed].
    split; simpl; try done.
    + intros g' [= <-]. simpl. lia.
    + intros k x. rewrite lookup_insert. case_decide; [intros _; lia | apply Hk].
    + intros g' k [= <-]. simpl. intros Hlt. rewrite lookup_insert. case_decide.
      * by eexists.
      * apply (Hb g); [done | lia].
    + intros g' [= <-]. simpl. rewrite decide_False by lia.
      replace (currentRound g + 1 - 1) with (currentRound g) by lia.
      rewrite lookup_insert_eq. by eexists.
    + intros v Hin. by apply lookup_insert_is_Some_mono, Hv.
  - apply findCurrentRound_Some in Hf as (Hg & Hr & _).
    pose proof (Numbered_insert_current d g (setRoundVote w col r) HN Hg) as HN'.
    destruct HN' as [Hf' Hp' Hk' Hb' Hl' Hv']. simpl in *.
    split; simpl; try done.
    + by rewrite Hg.
    + intros v [Hin | ->%list_elem_of_singleton]%elem_of_app; [by apply Hv' |].
      simpl. by rewrite lookup_insert_eq.
  - by apply Numbered_insert_current.
  - destruct HN as [Hf Hp Hk Hb Hl Hv]. split; simpl; try done.
    + intros g' [= <-]. simpl. by apply Hp.
    + intros g' k [= <-]. simpl. by apply Hb.
    + intros g' [= <-]. simpl. by apply Hl.
  - by destruct HN.
Qed.

Lemma V1_reachable_Numbered CONFIG s : V1.reachable CONFIG s → Numbered (V1.db s).
Proof.
  apply (V1_reachable_kept CONFIG Numbered); [apply Numbered_empty |].
  intros d d' HS HN Hm. by eapply Numbered_move.
Qed.

Lemma V2_reachable_Numbered CONFIG s : V2.reachable CONFIG s → Numbered (V2.db s).
Proof.
  apply (V2_reachable_kept CONFIG Numbered); [apply Numbered_empty |].
  intros d d' HS HN Hm. by eapply Numbered_move.
Qed.

(** ** The tally and the participants are kept in line with the votes *)

Lemma countVotes_nonneg k c l : 0 ≤ countVotes k c l.
Proof. unfold countVotes. lia. Qed.

Lemma countVotes_snoc k c l v :
  countVotes k c (l ++ [v])
  = countVotes k c l + (if decide (roundId v = k ∧ color v = c) then 1 else 0).
Proof.
  unfold countVotes, findVotes. rewrite filter_app, length_app, filter_cons, filter_nil.
  destruct (decide (roundId v = k ∧ color v = c)) as [[H1 H2] | Hn].
  - rewrite decide_True by (by rewrite H2). simpl. lia.
  - rewrite decide_False; [simpl; lia |]. intros [H1 [= H2]]. by apply Hn.
Qed.

Lemma roundLedger_snoc k l r v : roundLedger k l r → roundLedger k (l ++ [v]) r.
Proof.
  intros (Hr & Hb & Hnd & Hsz & Hvo & Hp). repeat split; try done; try lia.
  - rewrite countVotes_snoc. case_decide; lia.
  - rewrite countVotes_snoc. case_decide; lia.
  - intros w Hw. destruct (Hvo w Hw) as (x & Hx & ? & ?). exists x.
    split; [| done]. apply elem_of_app. by left.
Qed.

Lemma roundLedger_zero k l r :
  votes r = mkTally 0 0 → participants r = [] → (0 ≤ prizeAmount r)%Qc →
  roundLedger k l r.
Proof.
  intros Hv Hp Hprize. unfold roundLedger. rewrite Hv, Hp. simpl.
  pose proof (countVotes_nonneg k Red l). pose proof (countVotes_nonneg k Black l).
  repeat split; try done; try lia.
  - constructor.
  - by intros w ?%elem_of_nil.
Qed.

Lemma roundLedger_same k l r r' :
  votes r' = votes r → participants r' = participants r → (0 ≤ prizeAmount r')%Qc →
  roundLedger k l r → roundLedger k l r'.
Proof.
  intros Hv Hp Hprize (Hr & Hb & Hnd & Hsz & Hvo & _). unfold roundLedger.
  by rewrite Hv, Hp.
Qed.

Lemma Ledger_insert d k r' :
  Ledger d → roundLedger k (voteDocs d) r' →
  Ledger (withRounds (<[k := r']> (roundDocs d)) d).
Proof.
  intros [Hr Ht] Hk. split; simpl; [| done].
  intros j x. rewrite lookup_insert. case_decide; [| apply Hr].
  intros [= <-]. by subst.
Qed.

Lemma Qc_zero_le_zero : (0 ≤ 0)%Qc.
Proof. apply Qcle_refl. Qed.

Lemma Ledger_empty : Ledger emptyDb.
Proof. split; simpl; [| done]. intros k r. by rewrite lookup_empty. Qed.

Lemma Ledger_move b d d' : Sound d → Ledger d → dbMove b d d' → Ledger d'.
Proof.
  intros [HI HC] HL Hm.
  destruct Hm as [now d Hg | now d g Hg Hr | now d g r _ Hg Hr Hst | c d g r Hf
                 | now w d g r Hf Hw | w col now d g r Hw Hver Hfv Hf
                 | p d g r Hp Hg Hr | n d g r Hr Hw Hg | w balance now d Hw].
  - destruct HL as [Hr Ht]. split; simpl; [done |].
    intros g [= <-]. simpl. split; apply Qc_zero_le_zero.
  - apply Ledger_insert; [done |]. by apply roundLedger_zero.
  - apply Ledger_insert; [done |]. apply roundLedger_zero; try done.
    simpl. by destruct (led_rounds d HL _ _ Hr) as (_ & _ & _ & _ & _ & ?).
  - apply findCurrentRound_Some in Hf as (Hg & Hr & _).
    apply Ledger_insert; [done |]. pose proof (led_rounds d HL _ _ Hr) as Hl.
    apply (roundLedger_same _ _ r); try done. by destruct Hl as (_ & _ & _ & _ & _ & ?).
  - apply findCurrentRound_Some in Hf as (Hg & Hr & _).
    pose proof (led_rounds d HL _ _ Hr) as Hl.
    pose proof (Ledger_insert d (currentRound g) (setRoundCompleted now w r) HL) as HL'.
    destruct HL' as [Hr' Ht'].
    { apply (roundLedger_same _ _ r); try done. by destruct Hl as (_ & _ & _ & _ & _ & ?). }
    split; simpl; [done |]. intros g' [= <-]. simpl. by apply (led_total d HL).
  - apply findCurrentRound_Some in Hf as (Hg & Hr & Hst).
    pose proof (led_rounds d HL _ _ Hr) as (Hred & Hblack & Hnd & Hsz & Hvo & Hprize).
    rewrite findVote_None in Hfv.
    assert (Hnew : w ∉ participants r).
    { intros Hin. destruct (Hvo w Hin) as (v & Hv & Hvw & Hvr). by destruct (Hfv v Hv). }
    split; simpl; [| by apply (led_total d HL)].
    intros k x. rewrite lookup_insert. case_decide as Hk.
    + intros [= <-]. subst k. unfold roundLedger. simpl.
      unfold pushParticipant. rewrite decide_False by done.
      rewrite !countVotes_snoc. simpl.
      repeat split.
      * destruct col; simpl; lia.
      * destruct col; simpl; [rewrite decide_True by done | rewrite decide_False by (by intros [_ ?])];
          lia.
      * destruct col; simpl; lia.
      * destruct col; simpl; [rewrite decide_False by (by intros [_ ?]) | rewrite decide_True by done];
          lia.
      * apply NoDup_app. repeat split; [done | | apply NoDup_singleton].
        intros y Hy ->%list_elem_of_singleton. done.
      * rewrite length_app. simpl. destruct col; simpl; lia.
      * intros y [Hy | ->%list_elem_of_singleton]%elem_of_app.
        -- destruct (Hvo y Hy) as (v & Hv & ? & ?). exists v.
           split; [| done]. apply elem_of_app. by left.
        -- eexists. split; [apply elem_of_app; right; apply list_elem_of_here |]. done.
      * done.
    + intros Hx. apply roundLedger_snoc. by apply (led_rounds d HL).
  - apply Ledger_insert; [done |]. pose proof (led_rounds d HL _ _ Hr) as Hl.
    apply (roundLedger_same _ _ r); try done. simpl. by apply Qclt_le_weak.
  - destruct HL as [Hrs Ht]. split; simpl; [done |].
    intros g' [= <-]. simpl. destruct (Ht g Hg) as [Htot _].
    destruct (Hrs _ _ Hr) as (_ & _ & _ & _ & _ & Hprize).
    split; [by apply Qcplus_nonneg_nonneg | done].
  - by destruct HL.
Qed.

Lemma V1_reachable_Ledger CONFIG s : V1.reachable CONFIG s → Ledger (V1.db s).
Proof.
  apply (V1_reachable_kept CONFIG Ledger); [apply Ledger_empty |].
  intros d d' HS HN Hm. by eapply Ledger_move.
Qed.

Lemma V2_reachable_Ledger CONFIG s : V2.reachable CONFIG s → Ledger (V2.db s).
Proof.
  apply (V2_reachable_kept CONFIG Ledger); [apply Ledger_empty |].
  intros d d' HS HN Hm. by eapply Ledger_move.
Qed.







(** ** All the invariants in every state the server reaches *)

Lemma UniqueKeys_move b d d' :
  NoDup (voteKey <$> voteDocs d) → dbMove b d d' → NoDup (voteKey <$> voteDocs d').
Proof.
  intros HU Hm. destruct Hm; try done. simpl.
  rewrite fmap_app. apply NoDup_app. repeat split; [done | | apply NoDup_singleton].
  intros key Hin ->%list_elem_of_singleton.
  apply list_elem_of_fmap in Hin as (v & Hkey & Hv).
  match goal with H : findVote _ _ _ = None |- _ => rewrite findVote_None in H;
    apply (H v Hv) end.
  unfold voteKey in Hkey. simpl in Hkey. by injection Hkey as <- <-.
Qed.


Lemma V1_reachable_Healthy CONFIG s : V1.reachable CONFIG s → Healthy (V1.db s).
Proof.
  intros Hs. split; [by eapply V1_reachable_Sound |].
  split; [by eapply V1_reachable_Numbered |]. split; [by eapply V1_reachable_Ledger |].
  revert s Hs. apply (V1_reachable_kept CONFIG (λ d, NoDup (voteKey <$> voteDocs d))).
  - constructor.
  - intros d d' _. apply UniqueKeys_move.
Qed.

Lemma V2_reachable_Healthy CONFIG s : V2.reachable CONFIG s → Healthy (V2.db s).
Proof.
  intros Hs. split; [by eapply V2_reachable_Sound |].
  split; [by eapply V2_reachable_Numbered |]. split; [by eapply V2_reachable_Ledger |].
  revert s Hs. apply (V2_reachable_kept CONFIG (λ d, NoDup (voteKey <$> voteDocs d))).
  - constructor.
  - intros d d' _. apply UniqueKeys_move.
Qed.





(** ** Votes *)



Lemma verified_move b d d' w :
  dbMove b d d' → verified w (participantDocs d) = true →
  verified w (participantDocs d') = true.
Proof.
  intros Hm Hv. destruct Hm; try done. simpl. by apply verified_insert.
Qed.

(** X3.  A verified wallet stays verified over every step of the server,
    from any state: no handler removes a participant or clears
    [isVerified], and a later verification that fails writes nothing. *)
Theorem verification_is_never_revoked
    (CONFIG : Config) (e1 : V1.Event) (e2 : V2.Event) (s1 : V1.State) (s2 : V2.State)
    (w : string) :
  verified w (participantDocs (V1.db s1)) = true →
  verified w (participantDocs (V2.db s2)) = true →
  verified w (participantDocs (V1.db (V1.step CONFIG e1 s1))) = true
  ∧ verified w (participantDocs (V2.db (V2.step CONFIG e2 s2))) = true.
Proof.
  intros H1 H2. split.
  - destruct (V1_step_moves CONFIG e1 s1) as [[-> | Hm] | (now & _ & Hm1 & [-> | Hm2])];
      eauto using verified_move.
  - destruct (V2_step_moves CONFIG e2 s2) as [[-> | Hm] | (now & _ & Hm1 & [-> | Hm2])];
      eauto using verified_move.
Qed.

Lemma verification_is_never_revoked_witness :
  verified "alice"
    (participantDocs (V1.db (V1.step exampleConfig (V1.VerifyWallet "alice" true 5 50)
                               exampleVoting))) = true
  ∧ verified "alice"
      (participantDocs (V2.db (V2.step exampleConfig (V2.VerifyWallet "alice" false 0 50)
                                 exampleVoting2))) = true.
Proof.
  apply (verification_is_never_revoked exampleConfig
           (V1.VerifyWallet "alice" true 5 50) (V2.VerifyWallet "alice" false 0 50)
           exampleVoting exampleVoting2 "alice"); by vm_compute.
Defined.

(** ** Rounds *)



(** X5.  In every state the server reaches, [lastWinner] is the winner
    stored in the round before the current one, which is completed; while
    the current round is round 1 there is no last winner. *)
Theorem last_winner_is_of_previous_round
    (CONFIG : Config) (s1 : V1.State) (s2 : V2.State) (g1 g2 : GameState) :
  V1.reachable CONFIG s1 → currentGameState (V1.db s1) = Some g1 →
  V2.reachable CONFIG s2 → currentGameState (V2.db s2) = Some g2 →
  ((currentRound g1 = 1 → lastWinner g1 = None)
   ∧ (currentRound g1 ≠ 1 →
      ∃ r, roundDocs (V1.db s1) !! (currentRound g1 - 1) = Some r
         ∧ status r = completed ∧ lastWinner g1 = winner r))
  ∧
  ((currentRound g2 = 1 → lastWinner g2 = None)
   ∧ (currentRound g2 ≠ 1 →
      ∃ r, roundDocs (V2.db s2) !! (currentRound g2 - 1) = Some r
         ∧ status r = completed ∧ lastWinner g2 = winner r)).
Proof.
  assert (Hall : ∀ d g, Healthy d → currentGameState d = Some g →
    (currentRound g = 1 → lastWinner g = None)
    ∧ (currentRound g ≠ 1 →
       ∃ r, roundDocs d !! (currentRound g - 1) = Some r
          ∧ status r = completed ∧ lastWinner g = winner r)).
  { intros d g (_ & HN & _ & _) Hg. pose proof (num_last _ HN g Hg) as Hl.
    destruct (num_pos _ HN g Hg) as [Hpos _].
    destruct (decide (currentRound g = 1)) as [H1 | H1]; split; try done.
    intros _. destruct Hl as (r & Hr & Hw). exists r. repeat split; try done.
    destruct (num_below _ HN g (currentRound g - 1) Hg) as (r' & Hr' & Hst); [lia |].
    congruence. }
  intros Hs1 Hg1 Hs2 Hg2. split.
  - apply Hall; [by eapply V1_reachable_Healthy | done].
  - apply Hall; [by eapply V2_reachable_Healthy | done].
Qed.

Lemma last_winner_is_of_previous_round_witness :
  ∃ r, roundDocs (V1.db exampleCompleted) !! (2 - 1) = Some r
     ∧ status r = completed ∧ Some "alice"%string = winner r.
Proof.
  destruct (last_winner_is_of_previous_round exampleConfig exampleCompleted exampleCompleted2
              (mkGameState 2 0%Qc (Some "alice"%string) 0%Qc true 1 99)
              (mkGameState 2 0%Qc (Some "alice"%string) 0%Qc true 1 99))
    as [(_ & H1) _].
  - apply exampleCompleted_reachable.
  - by vm_compute.
  - apply exampleCompleted2_reachable.
  - by vm_compute.
  - apply H1. discriminate.
Defined.

(** ** The tally, the participants and the amounts *)







Lemma PaidWithin_move b d d' :
  Ledger d → PaidWithin d → dbMove b d d' → PaidWithin d'.
Proof.
  intros HL HP Hm.
  destruct Hm as [now d0 Hg | now d0 g Hg Hnone | now d0 g r0 _ Hg Hr0 _
                 | c d0 g r0 Hf | now w d0 g r0 Hf _ | w col now d0 g r0 _ _ _ Hf
                 | p d0 g r0 _ Hg Hr0 | n d0 g r0 Hr0 _ Hg | w bal now d0 _];
    try done.
  - intros g [= <-]. simpl. apply Qc_zero_le_zero.
  - apply findCurrentRound_Some in Hf as (Hg & _ & _).
    intros g' [= <-]. simpl. by apply HP.
  - intros g' [= <-]. simpl.
    destruct (led_total _ HL g Hg) as [Ht _].
    trans (0 + prizeAmount r0)%Qc; [by rewrite Qcplus_0_l |].
    by apply Qcplus_le_mono_r.
Qed.

Lemma V1_reachable_PaidWithin CONFIG s : V1.reachable CONFIG s → PaidWithin (V1.db s).
Proof.
  intros Hs.
  apply (V1_reachable_kept CONFIG (λ d, Ledger d ∧ PaidWithin d)); [| | done].
  - split; [apply Ledger_empty | done].
  - intros d d' HS [HL HP] Hm. split; [by eapply Ledger_move | by eapply PaidWithin_move].
Qed.

Lemma V2_reachable_PaidWithin CONFIG s : V2.reachable CONFIG s → PaidWithin (V2.db s).
Proof.
  intros Hs.
  apply (V2_reachable_kept CONFIG (λ d, Ledger d ∧ PaidWithin d)); [| | done].
  - split; [apply Ledger_empty | done].
  - intros d d' HS [HL HP] Hm. split; [by eapply Ledger_move | by eapply PaidWithin_move].
Qed.

(** X11.  In every state the server reaches no amount is negative: the
    prize of every stored round is 0 or more, and in the aggregate
    [lastPrizeAmount] lies between 0 and [totalPrizesGiven]. *)
Theorem amounts_are_never_negative
    (CONFIG : Config) (s1 : V1.State) (s2 : V2.State) :
  V1.reachable CONFIG s1 → V2.reachable CONFIG s2 →
  ((∀ k r, roundDocs (V1.db s1) !! k = Some r → (0 ≤ prizeAmount r)%Qc)
   ∧ (∀ g, currentGameState (V1.db s1) = Some g →
        (0 ≤ lastPrizeAmount g)%Qc ∧ (lastPrizeAmount g ≤ totalPrizesGiven g)%Qc))
  ∧
  ((∀ k r, roundDocs (V2.db s2) !! k = Some r → (0 ≤ prizeAmount r)%Qc)
   ∧ (∀ g, currentGameState (V2.db s2) = Some g →
        (0 ≤ lastPrizeAmount g)%Qc ∧ (lastPrizeAmount g ≤ totalPrizesGiven g)%Qc)).
Proof.
  assert (Hall : ∀ d, Healthy d → PaidWithin d →
    (∀ k r, roundDocs d !! k = Some r → (0 ≤ prizeAmount r)%Qc)
    ∧ (∀ g, currentGameState d = Some g →
         (0 ≤ lastPrizeAmount g)%Qc ∧ (lastPrizeAmount g ≤ totalPrizesGiven g)%Qc)).
  { intros d (_ & _ & HL & _) HP. split.
    - intros k r Hr. by destruct (led_rounds _ HL _ _ Hr) as (_ & _ & _ & _ & _ & Hp).
    - intros g Hg. split; [by destruct (led_total _ HL g Hg) | by apply HP]. }
  intros Hs1 Hs2. split.
  - apply Hall; [by eapply V1_reachable_Healthy | by eapply V1_reachable_PaidWithin].
  - apply Hall; [by eapply V2_reachable_Healthy | by eapply V2_reachable_PaidWithin].
Qed.

Lemma amounts_are_never_negative_witness :
  (∀ k r, roundDocs (V1.db exampleCompleted) !! k = Some r → (0 ≤ prizeAmount r)%Qc)
  ∧ (∀ g, currentGameState (V2.db exampleCompleted2) = Some g →
       (0 ≤ lastPrizeAmount g)%Qc ∧ (lastPrizeAmount g ≤ totalPrizesGiven g)%Qc).
Proof.
  destruct (amounts_are_never_negative exampleConfig exampleCompleted exampleCompleted2)
    as [[H1 _] [_ H2]].
  - apply exampleCompleted_reachable.
  - apply exampleCompleted2_reachable.
  - split; [exact H1 | exact H2].
Defined.

(** ** The fields of a round follow its status *)











(** ** The countdown of the voting *)

Lemma Qc_of_nat_nonneg (n : nat) : (0 ≤ Qc_of_Z (Z.of_nat n))%Qc.
Proof. rewrite <- Z2Qc_inj_0. apply (proj1 (Z2Qc_inj_le 0 (Z.of_nat n))). lia. Qed.

Lemma Qc_of_nat_succ (n : nat) :
  Qc_of_Z (Z.of_nat (S n)) = (Qc_of_Z (Z.of_nat n) + 1)%Qc.
Proof. by rewrite Nat2Z.inj_succ, <- Z.add_1_r, Z2Qc_inj_add, Z2Qc_inj_1. Qed.

Lemma Qc_thousand_pos : (0 < / Qc_of_Z 1000)%Qc.
Proof. reflexivity. Qed.

Lemma Qc_thousandth (a : Z) : (Qc_of_Z (1000 * a) / Qc_of_Z 1000)%Qc = Qc_of_Z a.
Proof.
  rewrite Z2Qc_inj_mul. unfold Qcdiv.
  rewrite (Qcmult_comm (Qc_of_Z 1000)), <- Qcmult_assoc.
  replace (Qc_of_Z 1000 * / Qc_of_Z 1000)%Qc with 1%Qc; [by rewrite Qcmult_1_r |].
  apply Qc_is_canon. by vm_compute.
Qed.

Lemma Qc_thousandth_lt (a D : Z) :
  1000 * a < D → (Qc_of_Z a < Qc_of_Z D / Qc_of_Z 1000)%Qc.
Proof.
  intros H. rewrite <- (Qc_thousandth a). unfold Qcdiv.
  apply Qcmult_lt_mono_pos_r; [apply Qc_thousand_pos | by apply (proj1 (Z2Qc_inj_lt _ _))].
Qed.

Lemma Qc_thousandth_le (a D : Z) :
  D ≤ 1000 * a → (Qc_of_Z D / Qc_of_Z 1000 ≤ Qc_of_Z a)%Qc.
Proof.
  intros H. rewrite <- (Qc_thousandth a). unfold Qcdiv.
  apply Qcmult_le_mono_pos_r; [apply Qc_thousand_pos | by apply (proj1 (Z2Qc_inj_le _ _))].
Qed.

(** A tick with more than a second left only counts down. *)
Lemma V1_tick_counts u s :
  (1 < V1.serverTimeLeft s)%Qc →
  V1.timerTick u s = V1.mkState (V1.db s) (V1.serverTimeLeft s - 1)%Qc.
Proof.
  intros Ht. unfold V1.timerTick.
  assert (Hpos : (0 < V1.serverTimeLeft s - 1)%Qc).
  { apply (Qcplus_lt_mono_r _ _ 1%Qc).
    replace (V1.serverTimeLeft s - 1 + 1)%Qc with (V1.serverTimeLeft s) by ring.
    by rewrite Qcplus_0_l. }
  assert (Hmax : Qcmax 0 (V1.serverTimeLeft s - 1)%Qc = (V1.serverTimeLeft s - 1)%Qc).
  { unfold Qcmax. case_decide as Hle; [done |]. destruct Hle. by apply Qclt_le_weak. }
  cbn [V1.serverTimeLeft V1.db]. rewrite Hmax.
  case_decide as Hle; [| done]. by apply Qclt_nge in Hpos.
Qed.

(** The tick with a second or less left ends the voting. *)
Lemma V1_tick_closes u s :
  (V1.serverTimeLeft s ≤ 1)%Qc →
  V1.timerTick u s = V1.mkState (closeVoting u (V1.db s)) 0%Qc.
Proof.
  intros Ht. unfold V1.timerTick.
  assert (Hle : (V1.serverTimeLeft s - 1 ≤ 0)%Qc).
  { apply (Qcplus_le_mono_r _ _ 1%Qc).
    replace (V1.serverTimeLeft s - 1 + 1)%Qc with (V1.serverTimeLeft s) by ring.
    by rewrite Qcplus_0_l. }
  assert (Hmax : Qcmax 0 (V1.serverTimeLeft s - 1)%Qc = 0%Qc).
  { unfold Qcmax. case_decide as Hge; [| done]. by apply (anti_symm Qcle). }
  cbn [V1.serverTimeLeft V1.db]. rewrite Hmax.
  case_decide as Hz; [done |]. by destruct Hz.
Qed.

Lemma V1_ticks_before CONFIG (us : list Q) s :
  us = [] ∨ (Qc_of_Z (Z.of_nat (length us)) < V1.serverTimeLeft s)%Qc →
  V1.run CONFIG (V1.TimerTick <$> us) s
  = V1.mkState (V1.db s) (V1.serverTimeLeft s - Qc_of_Z (Z.of_nat (length us)))%Qc.
Proof.
  revert s. induction us as [| u us IH]; intros s Hlt.
  - destruct s as [d t]. unfold V1.run. cbn [fmap list_fmap foldl length V1.db V1.serverTimeLeft].
    f_equal. change (Z.of_nat 0) with 0. rewrite Z2Qc_inj_0. ring.
  - destruct Hlt as [? | Hlt]; [done |].
    change (V1.run CONFIG (V1.TimerTick <$> u :: us) s)
      with (V1.run CONFIG (V1.TimerTick <$> us) (V1.timerTick u s)).
    cbn [length] in *. rewrite Qc_of_nat_succ in Hlt |- *.
    pose proof (Qc_of_nat_nonneg (length us)) as Hn.
    assert (H1 : (1 < V1.serverTimeLeft s)%Qc).
    { apply Qcle_lt_trans with (Qc_of_Z (Z.of_nat (length us)) + 1)%Qc; [| done].
      rewrite <- (Qcplus_0_l 1%Qc) at 1. by apply Qcplus_le_mono_r. }
    rewrite (V1_tick_counts u s H1), IH.
    + cbn [V1.db V1.serverTimeLeft]. f_equal. ring.
    + right. cbn [V1.serverTimeLeft].
      apply (Qcplus_lt_mono_r _ _ 1%Qc).
      by replace (V1.serverTimeLeft s - 1 + 1)%Qc with (V1.serverTimeLeft s) by ring.
Qed.

Lemma V2_ticks_before CONFIG (us : list Q) s :
  Z.of_nat (length us) < V2.phaseTimeLeft s →
  V2.run CONFIG (V2.VotingTick <$> us) s
  = V2.mkState (V2.db s) (V2.currentPhase s) (V2.phaseTimeLeft s - Z.of_nat (length us)).
Proof.
  revert s. induction us as [| u us IH]; intros s Hlt.
  - destruct s as [d ph t]. unfold V2.run. simpl. f_equal. lia.
  - change (V2.run CONFIG (V2.VotingTick <$> u :: us) s)
      with (V2.run CONFIG (V2.VotingTick <$> us) (V2.votingTick u s)).
    cbn [length] in *.
    assert (Htick : V2.votingTick u s
                    = V2.mkState (V2.db s) (V2.currentPhase s) (V2.phaseTimeLeft s - 1)).
    { unfold V2.votingTick, V2.countdownTick. cbn [V2.phaseTimeLeft].
      rewrite Z.max_r by lia. case_decide; [lia | done]. }
    rewrite Htick, IH; cbn [V2.db V2.currentPhase V2.phaseTimeLeft]; [f_equal; lia | lia].
Qed.

Lemma V2_tick_closes u s :
  V2.phaseTimeLeft s ≤ 1 →
  V2.votingTick u s = V2.mkState (closeVoting u (V2.db s)) V2.phase_spinning 5.
Proof.
  intros Ht. unfold V2.votingTick, V2.countdownTick. cbn [V2.phaseTimeLeft].
  rewrite Z.max_l by lia. by rewrite decide_True.
Qed.

Lemma V1_run_app CONFIG l k s :
  V1.run CONFIG (l ++ k) s = V1.run CONFIG k (V1.run CONFIG l s).
Proof. apply foldl_app. Qed.

Lemma V2_run_app CONFIG l k s :
  V2.run CONFIG (l ++ k) s = V2.run CONFIG k (V2.run CONFIG l s).
Proof. apply foldl_app. Qed.

(** X15.  The voting is closed by the last tick of its window and by none
    before.  In the first variant, with a window of [ROUND_DURATION]
    milliseconds that takes [n + 1] ticks (the duration is at most
    [1000 * (n + 1)], and above [1000 * n] unless [n] is 0), the ticks up
    to the [n]-th after [startRoundTimer] only count the seconds down and
    leave the database as it is, and the next tick ends the voting of the
    round and leaves the countdown at 0.  In the second variant the first
    299 ticks after [startVerificationPhase] only count down from 300 and
    the 300th ends the voting and starts the spinning phase of 5 seconds. *)
Theorem voting_closes_at_the_last_tick
    (CONFIG : Config) (n : nat) (us1 vs1 us2 vs2 : list Q) (u1 u2 : Q)
    (s1 : V1.State) (s2 : V2.State) :
  ROUND_DURATION CONFIG ≤ 1000 * (Z.of_nat n + 1) →
  n = 0%nat ∨ 1000 * Z.of_nat n < ROUND_DURATION CONFIG →
  (length us1 ≤ n)%nat → length vs1 = n →
  (length us2 ≤ 299)%nat → length vs2 = 299%nat →
  (V1.run CONFIG (V1.TimerTick <$> us1) (V1.startRoundTimer CONFIG s1)
   = V1.mkState (V1.db s1)
       (Qc_of_Z (ROUND_DURATION CONFIG) / Qc_of_Z 1000 - Qc_of_Z (Z.of_nat (length us1)))%Qc
   ∧ V1.run CONFIG (V1.TimerTick <$> (vs1 ++ [u1])) (V1.startRoundTimer CONFIG s1)
     = V1.mkState (closeVoting u1 (V1.db s1)) 0%Qc)
  ∧
  (V2.run CONFIG (V2.VotingTick <$> us2) (V2.startVerificationPhase s2)
   = V2.mkState (V2.db s2) V2.phase_voting (300 - Z.of_nat (length us2))
   ∧ V2.run CONFIG (V2.VotingTick <$> (vs2 ++ [u2])) (V2.startVerificationPhase s2)
     = V2.mkState (closeVoting u2 (V2.db s2)) V2.phase_spinning 5).
Proof.
  intros Hup Hlow Hus1 Hvs1 Hus2 Hvs2.
  assert (Hbefore : ∀ us : list Q, (length us ≤ n)%nat →
            us = [] ∨ (Qc_of_Z (Z.of_nat (length us))
                       < V1.serverTimeLeft (V1.startRoundTimer CONFIG s1))%Qc).
  { intros us Hlen. destruct us as [| u us]; [by left | right].
    destruct Hlow as [-> | Hlow]; [simpl in Hlen; lia |].
    cbn [V1.startRoundTimer V1.serverTimeLeft].
    apply Qc_thousandth_lt. lia. }
  split; split.
  - by rewrite (V1_ticks_before CONFIG us1 _ (Hbefore us1 Hus1)).
  - rewrite fmap_app, V1_run_app.
    rewrite (V1_ticks_before CONFIG vs1 _ (Hbefore vs1 ltac:(lia))).
    change (V1.run CONFIG (V1.TimerTick <$> [u1]) ?s) with (V1.timerTick u1 s).
    rewrite V1_tick_closes; [done |].
    cbn [V1.startRoundTimer V1.serverTimeLeft V1.db]. rewrite Hvs1.
    apply (Qcplus_le_mono_r _ _ (Qc_of_Z (Z.of_nat n))).
    replace (Qc_of_Z (ROUND_DURATION CONFIG) / Qc_of_Z 1000 - Qc_of_Z (Z.of_nat n)
             + Qc_of_Z (Z.of_nat n))%Qc
      with (Qc_of_Z (ROUND_DURATION CONFIG) / Qc_of_Z 1000)%Qc by ring.
    rewrite (Qcplus_comm 1), <- Z2Qc_inj_1, <- Z2Qc_inj_add.
    by apply Qc_thousandth_le.
  - rewrite V2_ticks_before; [done |].
    cbn [V2.startVerificationPhase V2.phaseTimeLeft]. lia.
  - rewrite fmap_app, V2_run_app.
    rewrite (V2_ticks_before CONFIG vs2)
      by (cbn [V2.startVerificationPhase V2.phaseTimeLeft]; lia).
    change (V2.run CONFIG (V2.VotingTick <$> [u2]) ?s) with (V2.votingTick u2 s).
    rewrite V2_tick_closes; [done |].
    cbn [V2.startVerificationPhase V2.phaseTimeLeft]. lia.
Qed.

Lemma voting_closes_at_the_last_tick_witness :
  V1.run exampleConfig (V1.TimerTick <$> ([1 # 4] ++ [3 # 4]))
    (V1.startRoundTimer exampleConfig exampleOneVote)
  = V1.mkState (closeVoting (3 # 4) (V1.db exampleOneVote)) 0%Qc
  ∧ V2.run exampleConfig (V2.VotingTick <$> (replicate 299 (1 # 4) ++ [3 # 4]))
      (V2.startVerificationPhase exampleOneVote2)
    = V2.mkState (closeVoting (3 # 4) (V2.db exampleOneVote2)) V2.phase_spinning 5.
Proof.
  destruct (voting_closes_at_the_last_tick exampleConfig 1 [] [1 # 4] []
              (replicate 299 (1 # 4)) (3 # 4) (3 # 4) exampleOneVote exampleOneVote2)
    as [[_ H1] [_ H2]].
  - vm_compute. discriminate.
  - right. reflexivity.
  - simpl. lia.
  - reflexivity.
  - simpl. lia.
  - reflexivity.
  - split; [exact H1 | exact H2].
Defined.

(** ** The history of the rounds *)






(** ** The phases of the second variant *)

(** X20.  In every state the second variant reaches, the time left of the
    phase is between 0 and the seconds the phase starts with: 300 for
    voting, 5 for spinning, 10 for results. *)
Theorem V2_time_left_within_phase (CONFIG : Config) (s : V2.State) :
  V2.reachable CONFIG s →
  0 ≤ V2.phaseTimeLeft s ≤ phaseWindow (V2.currentPhase s).
Proof.
  induction 1 as [| e s Hs IH He]; [simpl; lia |].
  rewrite V2_step_time, V2_step_phase.
  destruct e; try case_decide; simpl; try lia;
    destruct (V2.currentPhase s); simpl in *; lia.
Qed.

Lemma V2_time_left_within_phase_witness :
  0 ≤ V2.phaseTimeLeft exampleSpinning2 ≤ phaseWindow (V2.currentPhase exampleSpinning2).
Proof. exact (V2_time_left_within_phase exampleConfig exampleSpinning2 exampleSpinning2_reachable). Defined.

(** ** Verification, votes and the start of a round together *)

Lemma verified_step_V1 CONFIG e s w :
  verified w (participantDocs (V1.db s)) = true →
  verified w (participantDocs (V1.db (V1.step CONFIG e s))) = true.
Proof.
  intros Hv.
  destruct (V1_step_moves CONFIG e s) as [[-> | Hm] | (now & _ & Hm1 & [-> | Hm2])];
    eauto using verified_move.
Qed.

Lemma verified_step_V2 CONFIG e s w :
  verified w (participantDocs (V2.db s)) = true →
  verified w (participantDocs (V2.db (V2.step CONFIG e s))) = true.
Proof.
  intros Hv.
  destruct (V2_step_moves CONFIG e s) as [[-> | Hm] | (now & _ & Hm1 & [-> | Hm2])];
    eauto using verified_move.
Qed.

Lemma verified_run_V1 CONFIG es s w :
  verified w (participantDocs (V1.db s)) = true →
  verified w (participantDocs (V1.db (V1.run CONFIG es s))) = true.
Proof.
  revert s. induction es as [| e es IH]; intros s Hv; [done |].
  apply (IH (V1.step CONFIG e s)). by apply verified_step_V1.
Qed.

Lemma verified_run_V2 CONFIG es s w :
  verified w (participantDocs (V2.db s)) = true →
  verified w (participantDocs (V2.db (V2.run CONFIG es s))) = true.
Proof.
  revert s. induction es as [| e es IH]; intros s Hv; [done |].
  apply (IH (V2.step CONFIG e s)). by apply verified_step_V2.
Qed.

Lemma verifyWallet_ok m w valid balance now d b :
  fst (verifyWallet m w valid balance now d) = VerifyOk b →
  verified w (participantDocs (snd (verifyWallet m w valid balance now d))) = true.
Proof.
  unfold verifyWallet. repeat case_decide; try done. intros _. simpl.
  unfold verified. by rewrite lookup_insert_eq.
Qed.

Lemma castVote_not_unverified w c now d :
  verified w (participantDocs d) = true → fst (castVote w c now d) ≠ VoteNotVerified.
Proof.
  intros Hv. unfold castVote. rewrite Hv.
  case_decide; [done |]. destruct (parseColor c); [| done]. simpl.
  destruct (currentGameState d) as [g |]; [| done].
  destruct (findVote w (currentRound g) (voteDocs d)); [done |].
  by destruct (findCurrentRound voting d) as [[? ?] |].
Qed.

(** X21.  Once [/api/verify-wallet] has answered with success for a
    wallet, the wallet is verified in every later state, whatever happens
    in between, and [/api/vote] never answers it "Wallet not verified": the
    balance is checked at verification only. *)
Theorem verified_wallet_is_never_refused
    (CONFIG : Config) (w c : string) (valid : bool) (balance now now' b1 b2 : Z)
    (es1 : list V1.Event) (es2 : list V2.Event) (s1 : V1.State) (s2 : V2.State) :
  fst (verifyWallet (MIN_TOKEN_BALANCE CONFIG) w valid balance now (V1.db s1)) = VerifyOk b1 →
  fst (verifyWallet (MIN_TOKEN_BALANCE CONFIG) w valid balance now (V2.db s2)) = VerifyOk b2 →
  (verified w (participantDocs
                 (V1.db (V1.run CONFIG (V1.VerifyWallet w valid balance now :: es1) s1))) = true
   ∧ fst (V1.apiVote w c now'
            (V1.run CONFIG (V1.VerifyWallet w valid balance now :: es1) s1))
     ≠ VoteNotVerified)
  ∧
  (verified w (participantDocs
                 (V2.db (V2.run CONFIG (V2.VerifyWallet w valid balance now :: es2) s2))) = true
   ∧ fst (V2.apiVote w c now'
            (V2.run CONFIG (V2.VerifyWallet w valid balance now :: es2) s2))
     ≠ VoteNotVerified).
Proof.
  intros H1 H2.
  assert (Hv1 : verified w (participantDocs
             (V1.db (V1.run CONFIG (V1.VerifyWallet w valid balance now :: es1) s1))) = true).
  { change (V1.run CONFIG (V1.VerifyWallet w valid balance now :: es1) s1)
      with (V1.run CONFIG es1 (V1.step CONFIG (V1.VerifyWallet w valid balance now) s1)).
    apply verified_run_V1. simpl. by eapply verifyWallet_ok. }
  assert (Hv2 : verified w (participantDocs
             (V2.db (V2.run CONFIG (V2.VerifyWallet w valid balance now :: es2) s2))) = true).
  { change (V2.run CONFIG (V2.VerifyWallet w valid balance now :: es2) s2)
      with (V2.run CONFIG es2 (V2.step CONFIG (V2.VerifyWallet w valid balance now) s2)).
    apply verified_run_V2. simpl. by eapply verifyWallet_ok. }
  split; (split; [done |]).
  - unfold V1.apiVote.
    pose proof (castVote_not_unverified w c now' _ Hv1) as Hn.
    by destruct (castVote w c now' _).
  - unfold V2.apiVote. case_decide; [done |].
    pose proof (castVote_not_unverified w c now' _ Hv2) as Hn.
    by destruct (castVote w c now' _).
Qed.

Lemma verified_wallet_is_never_refused_witness :
  verified "carol"
    (participantDocs
       (V1.db (V1.run exampleConfig
                 [V1.VerifyWallet "carol" true 1000000 5; V1.VerifyWallet "carol" true 0 6;
                  V1.TimerTick (1 # 4)]
                 exampleVoting))) = true
  ∧ verified "carol"
      (participantDocs
         (V2.db (V2.run exampleConfig
                   [V2.VerifyWallet "carol" true 1000000 5; V2.VerifyWallet "carol" false 0 6]
                   exampleVoting2))) = true.
Proof.
  destruct (verified_wallet_is_never_refused exampleConfig "carol" "red" true 1000000 5 7
              1000000 1000000
              [V1.VerifyWallet "carol" true 0 6; V1.TimerTick (1 # 4)]
              [V2.VerifyWallet "carol" false 0 6] exampleVoting exampleVoting2)
    as [[H1 _] [H2 _]].
  - reflexivity.
  - reflexivity.
  - split; [exact H1 | exact H2].
Defined.






(** ** Timers that fire twice *)

Lemma closeVoting_twice u u' d : closeVoting u' (closeVoting u d) = closeVoting u d.
Proof.
  unfold closeVoting at 2 3.
  destruct (findCurrentRound voting d) as [[g r] |] eqn:Hf.
  - apply findCurrentRound_Some in Hf as (Hg & Hr & Hst).
    unfold closeVoting, findCurrentRound. simpl. rewrite Hg. simpl.
    by rewrite lookup_insert_eq.
  - unfold closeVoting. by rewrite Hf.
Qed.

Lemma completeRound_twice now now' u u' d :
  Inv d → goodDraw u →
  completeRound now' u' (completeRound now u d) = completeRound now u d.
Proof.
  intros HI Hu.
  destruct (findCurrentRound spinning d) as [[g r] |] eqn:Hf.
  - destruct (completeRound_spec now u d g r Hu Hf) as (w & _ & ->).
    apply findCurrentRound_Some in Hf as (Hg & Hr & Hst).
    unfold completeRound at 1. unfold findCurrentRound. simpl.
    rewrite lookup_insert_ne by lia.
    by rewrite (Inv_no_next_round d g HI Hg).
  - assert (Hd : completeRound now u d = d) by (unfold completeRound; by rewrite Hf).
    rewrite Hd. unfold completeRound. by rewrite Hf.
Qed.

(** X24.  A timer of the round that fires twice in a row has the effect of
    firing once: a second [endVotingPhase] right after the first leaves the
    state as the first left it (the round is no longer in voting, so no
    second colour is drawn), and from a state the server reaches so does a
    second [selectWinner] or [performAutomaticSpin] (the current round has
    moved on, so no second winner is drawn and the counters are not
    advanced again). *)
Theorem round_timers_fire_once
    (CONFIG : Config) (now now' : Z) (u u' : Q) (s1 : V1.State) (s2 : V2.State) :
  V1.reachable CONFIG s1 → V2.reachable CONFIG s2 → goodDraw u →
  (V1.endVotingPhase u' (V1.endVotingPhase u s1) = V1.endVotingPhase u s1
   ∧ V1.selectWinner now' u' (V1.selectWinner now u s1) = V1.selectWinner now u s1)
  ∧
  (V2.endVotingPhase u' (V2.endVotingPhase u s2) = V2.endVotingPhase u s2
   ∧ V2.performAutomaticSpin now' u' (V2.performAutomaticSpin now u s2)
     = V2.performAutomaticSpin now u s2).
Proof.
  intros Hs1 Hs2 Hu.
  destruct (V1_reachable_Sound _ _ Hs1) as [HI1 _].
  destruct (V2_reachable_Sound _ _ Hs2) as [HI2 _].
  split; split.
  - unfold V1.endVotingPhase. simpl. by rewrite closeVoting_twice.
  - unfold V1.selectWinner. simpl. by rewrite completeRound_twice.
  - unfold V2.endVotingPhase. simpl. by rewrite closeVoting_twice.
  - unfold V2.performAutomaticSpin. simpl. by rewrite completeRound_twice.
Qed.

Lemma round_timers_fire_once_witness :
  V1.selectWinner 120 (3 # 4) (V1.selectWinner 99 (1 # 4) exampleSpinning)
  = V1.selectWinner 99 (1 # 4) exampleSpinning
  ∧ V2.performAutomaticSpin 120 (3 # 4) (V2.performAutomaticSpin 99 (1 # 4) exampleSpinning2)
    = V2.performAutomaticSpin 99 (1 # 4) exampleSpinning2.
Proof.
  destruct (round_timers_fire_once exampleConfig 99 120 (1 # 4) (3 # 4)
              exampleSpinning exampleSpinning2)
    as [[_ H1] [_ H2]].
  - apply exampleSpinning_reachable.
  - apply exampleSpinning2_reachable.
  - apply goodDraw_quarter.
  - split; [exact H1 | exact H2].
Defined.

(** * The handlers await by await: properties *)

Section LiveProperties.

Import Live.

(** ** One step of the server *)

Lemma place_store i nx m W : store (place i nx m W) = store W.
Proof. by destruct nx as [s | [a |]]. Qed.

Lemma place_mem i nx m W : mem (place i nx m W) = m.
Proof. by destruct nx as [s | [a |]]. Qed.

Lemma place_nextId i nx m W : nextId (place i nx m W) = nextId W.
Proof. by destruct nx as [s | [a |]]. Qed.

Lemma place_tasks i nx m W j :
  tasks (place i nx m W) !! j = if decide (i = j) then taskOf nx else tasks W !! j.
Proof.
  destruct nx as [s | [a |]]; simpl.
  - by rewrite lookup_insert.
  - by rewrite lookup_delete.
  - by rewrite lookup_delete.
Qed.

Lemma place_answers i nx m W j :
  answers (place i nx m W) !! j =
  match nx with
  | Finish (Some a) => if decide (i = j) then Some a else answers W !! j
  | _ => answers W !! j
  end.
Proof. destruct nx as [s | [a |]]; simpl; [done | | done]. by rewrite lookup_insert. Qed.

Lemma step_Arrive variant CONFIG r W :
  step variant CONFIG (Arrive r) W =
  place (nextId W) (arrive variant CONFIG r (mem W)).2 (arrive variant CONFIG r (mem W)).1
        (mkWorld (mem W) (store W) (tasks W) (answers W) (S (nextId W))).
Proof. simpl. by destruct (arrive variant CONFIG r (mem W)). Qed.

Lemma step_Exec variant CONFIG i s W :
  tasks W !! i = Some (Pending s) →
  step variant CONFIG (Exec i) W =
  mkWorld (mem W) (exec (opOf variant s) (store W)).1
          (<[i := Ready (exec (opOf variant s) (store W)).2 s]> (tasks W))
          (answers W) (nextId W).
Proof. intros Ht. simpl. rewrite Ht. by destruct (exec (opOf variant s) (store W)). Qed.

Lemma step_Reject variant CONFIG i s W :
  tasks W !! i = Some (Pending s) →
  step variant CONFIG (Reject i) W =
  mkWorld (mem W) (store W) (<[i := Ready (failure (opOf variant s)) s]> (tasks W))
          (answers W) (nextId W).
Proof. intros Ht. simpl. by rewrite Ht. Qed.

Lemma step_Resume variant CONFIG i res s W :
  tasks W !! i = Some (Ready res s) →
  step variant CONFIG (Resume i) W =
  place i (resume variant CONFIG s res (mem W)).2 (resume variant CONFIG s res (mem W)).1 W.
Proof. intros Ht. simpl. rewrite Ht. by destruct (resume variant CONFIG s res (mem W)). Qed.

(** A step that finds no call to execute, or no result to take up, does
    nothing. *)
Lemma step_Exec_idle variant CONFIG i W :
  (∀ s, tasks W !! i ≠ Some (Pending s)) → step variant CONFIG (Exec i) W = W.
Proof.
  intros Ht. simpl.
  destruct (tasks W !! i) as [[s | res s] |] eqn:E; [by destruct (Ht s) | done ..].
Qed.

Lemma step_Reject_idle variant CONFIG i W :
  (∀ s, tasks W !! i ≠ Some (Pending s)) → step variant CONFIG (Reject i) W = W.
Proof.
  intros Ht. simpl.
  destruct (tasks W !! i) as [[s | res s] |] eqn:E; [by destruct (Ht s) | done ..].
Qed.

Lemma step_Resume_idle variant CONFIG i W :
  (∀ res s, tasks W !! i ≠ Some (Ready res s)) → step variant CONFIG (Resume i) W = W.
Proof.
  intros Ht. simpl.
  destruct (tasks W !! i) as [[s | res s] |] eqn:E; [done | by destruct (Ht res s) | done].
Qed.

(** The database is written by the execution of a call and by nothing
    else. *)
Lemma step_store variant CONFIG a W :
  store (step variant CONFIG a W) = store W
  ∨ ∃ i s, a = Exec i ∧ tasks W !! i = Some (Pending s)
           ∧ store (step variant CONFIG a W) = (exec (opOf variant s) (store W)).1.
Proof.
  destruct a as [r | i | i | i | oid now].
  - left. rewrite step_Arrive. by rewrite place_store.
  - destruct (tasks W !! i) as [[s | res s] |] eqn:Ht.
    + right. exists i, s. by rewrite (step_Exec _ _ _ s).
    + left. rewrite step_Exec_idle; [done | congruence].
    + left. rewrite step_Exec_idle; [done | congruence].
  - left. simpl. by destruct (tasks W !! i) as [[s | res s] |].
  - left. destruct (tasks W !! i) as [[s | res s] |] eqn:Ht.
    + rewrite step_Resume_idle; [done | congruence].
    + rewrite (step_Resume _ _ _ res s) by done. by rewrite place_store.
    + rewrite step_Resume_idle; [done | congruence].
  - by left.
Qed.


Lemma run_cons variant CONFIG a l W :
  run variant CONFIG (a :: l) W = run variant CONFIG l (step variant CONFIG a W).
Proof. done. Qed.

(** ** The database over one call *)

Lemma exec_Keyed op st : Keyed st → Keyed (exec op st).1.
Proof.
  intros HK. destruct op; simpl; try done.
  - destruct (roundDocs st !! roundNumber r) eqn:Hr; [done |].
    intros n r0. simpl. rewrite lookup_insert. case_decide; [| apply HK].
    intros [= <-]. done.
  - intros k r0. simpl. rewrite lookup_alter. case_decide; [| apply HK].
    subst k. destruct (roundDocs st !! n) as [r1 |] eqn:Hr; [| done].
    intros [= <-]. apply HK in Hr. by destruct w.
Qed.

(** A verified wallet stays verified, the participants being written as
    verified. *)
Lemma exec_verified op st w :
  (∀ w' p, op = UpsertParticipant w' p → isVerified p = true) →
  verified w (participantDocs st) = true →
  verified w (participantDocs (exec op st).1) = true.
Proof.
  intros Hup Hw. destruct op; simpl; try done.
  - by destruct (roundDocs st !! roundNumber r).
  - unfold verified. rewrite lookup_insert. case_decide; [| done].
    by apply (Hup w0).
Qed.

(** The votes are appended and never touched again. *)
Lemma exec_votes op st :
  voteDocs (exec op st).1 =
  voteDocs st ++ match op with InsertVote v => [v] | _ => [] end.
Proof.
  destruct op; simpl; rewrite ?app_nil_r; try done.
  by destruct (roundDocs st !! roundNumber r).
Qed.

Lemma findVote_app w n l k v : findVote w n l = Some v → findVote w n (l ++ k) = Some v.
Proof.
  unfold findVote. intros H.
  destruct (list_find _ l) as [[i x] |] eqn:Hf; [| done].
  by rewrite (list_find_app_l _ _ _ _ _ Hf).
Qed.

Lemma exec_findVote op st w n v :
  findVote w n (voteDocs st) = Some v → findVote w n (voteDocs (exec op st).1) = Some v.
Proof. intros H. rewrite exec_votes. by apply findVote_app. Qed.

Lemma findVote_elem w n l v :
  findVote w n l = Some v → v ∈ l ∧ walletAddress v = w ∧ roundId v = n.
Proof.
  unfold findVote. intros H.
  destruct (list_find _ l) as [[i x] |] eqn:Hf; [| done].
  injection H as <-. apply list_find_Some in Hf as (Hl & [Hw Hn] & _).
  split; [by eapply list_elem_of_lookup_2 | done].
Qed.

(** ** What every world the server reaches satisfies *)

(** The handlers start with a lookup, or with the call to the node. *)
Lemma arrive_Await variant CONFIG r m m' s :
  arrive variant CONFIG r m = (m', Await s) →
  foundVerified variant (Pending s) = None
  ∧ (∀ w p, opOf variant s ≠ UpsertParticipant w p)
  ∧ (∀ n wr, opOf variant s ≠ SaveRound n wr)
  ∧ (∀ r0 c0 w0 v0, s ≠ VoteInsert w0 c0 r0 v0).
Proof.
  intros H. destruct r; simpl in H;
    unfold endVotingPhase, ensureCurrentRound, afterEnsureFailed, answer in H;
    repeat case_match; simplify_eq; done.
Qed.

(** What the code after an [await] goes on to *)
Lemma resume_Await variant CONFIG s res m m' s' :
  resume variant CONFIG s res m = (m', Await s') →
  (∀ w, foundVerified variant (Pending s') = Some w →
        foundVerified variant (Ready res s) = Some w)
  ∧ (∀ w p, opOf variant s' = UpsertParticipant w p → isVerified p = true)
  ∧ (variant = Second → ∀ n now, opOf variant s' ≠ SaveRound n (WriteReset now)).
Proof.
  intros H. destruct s, res; simpl in H;
    unfold ensureCurrentRound, afterEnsureFailed, afterInitFailed, answer in H;
    repeat case_match; simplify_eq;
    (split; [| split]); simpl; intros; simplify_eq; done.
Qed.

Lemma opOf_InsertVote variant s v :
  opOf variant s = InsertVote v → foundVerified variant (Pending s) = Some (walletAddress v).
Proof. destruct s; simpl; intros; simplify_eq; done. Qed.


Lemma Sane_boot variant oid now : Sane variant (boot variant oid now emptyStore).
Proof.
  split; simpl.
  - intros n r Hr. simpl in Hr. by rewrite lookup_empty in Hr.
  - intros v Hv. by apply elem_of_nil in Hv.
  - intros i t w Ht. apply lookup_singleton_Some in Ht as [_ <-]. done.
  - intros i s w p Ht. apply lookup_singleton_Some in Ht as [_ [= <-]]. done.
  - intros i [[t Ht] | [a Ha]].
    + apply lookup_singleton_Some in Ht as [<- _]. lia.
    + by rewrite lookup_empty in Ha.
  - intros _ i s n now' Ht. apply lookup_singleton_Some in Ht as [_ [= <-]]. done.
Qed.

Lemma Sane_Arrive variant CONFIG r W :
  Sane variant W → Sane variant (step variant CONFIG (Arrive r) W).
Proof.
  intros [HK HV HT HU HF HR]. rewrite step_Arrive.
  destruct (arrive variant CONFIG r (mem W)) as [m nx] eqn:Ha. simpl.
  split; rewrite ?place_store, ?place_nextId; simpl; try done.
  - intros i t w. rewrite place_tasks. simpl. case_decide; [| apply HT].
    destruct nx as [s |]; [| done]. intros [= <-].
    destruct (arrive_Await _ _ _ _ _ _ Ha) as (Hn & _). by rewrite Hn.
  - intros i s w p. rewrite place_tasks. simpl. case_decide; [| apply HU].
    destruct nx as [s0 |]; [| done]. intros [= <-] Hop.
    destruct (arrive_Await _ _ _ _ _ _ Ha) as (_ & Hn & _). by destruct (Hn w p).
  - intros i. rewrite place_tasks. simpl. case_decide; [lia |].
    intros [Ht | Ha'].
    + assert (i < nextId W)%nat; [apply HF; by left | lia].
    + rewrite place_answers in Ha'. simpl in Ha'.
      destruct nx as [s | [a |]]; try case_decide; try lia.
      all: assert (i < nextId W)%nat; [apply HF; by right | lia].
  - intros Hv i s n now. rewrite place_tasks. simpl. case_decide; [| by apply HR].
    destruct nx as [s0 |]; [| done]. intros [= <-].
    destruct (arrive_Await _ _ _ _ _ _ Ha) as (_ & _ & Hn & _). apply Hn.
Qed.

Lemma Sane_Exec variant CONFIG i W :
  Sane variant W → Sane variant (step variant CONFIG (Exec i) W).
Proof.
  intros HS. destruct (tasks W !! i) as [[s | res s] |] eqn:Hi;
    [| rewrite step_Exec_idle; [done | congruence] ..].
  destruct HS as [HK HV HT HU HF HR].
  rewrite (step_Exec _ _ _ s) by done.
  assert (Hstable : ∀ w, verified w (participantDocs (store W)) = true →
            verified w (participantDocs (exec (opOf variant s) (store W)).1) = true).
  { intros w. apply exec_verified. intros w' p Hop. by apply (HU i s w' p). }
  split; simpl.
  - by apply exec_Keyed.
  - intros v. rewrite exec_votes. intros [Hv | Hv]%elem_of_app.
    + by apply Hstable, HV.
    + destruct (opOf variant s) eqn:Hop; try by apply elem_of_nil in Hv.
      apply list_elem_of_singleton in Hv as ->.
      apply Hstable, (HT i (Pending s)); [done |]. by apply opOf_InsertVote.
  - intros j t w. rewrite lookup_insert.
    case_decide; [| intros; eapply Hstable, HT; done].
    subst j. intros [= <-] Hf.
    destruct s; simpl in Hf; simplify_eq; try (eapply Hstable, (HT i); [done | done]).
    simpl. destruct (participantDocs (store W) !! w0) as [p |] eqn:Hp; simpl in Hf; [| done].
    destruct (isVerified p) eqn:Hv; simplify_eq. unfold verified. by rewrite Hp.
  - intros j s0 w p. rewrite lookup_insert. case_decide; [done | apply HU].
  - intros j. rewrite lookup_insert. case_decide; [| apply HF].
    subst j. intros _. apply HF. left. by rewrite Hi.
  - intros Hv j s0 n now. rewrite lookup_insert. case_decide; [done | by apply HR].
Qed.

Lemma Sane_Reject variant CONFIG i W :
  Sane variant W → Sane variant (step variant CONFIG (Reject i) W).
Proof.
  intros HS. destruct (tasks W !! i) as [[s | res s] |] eqn:Hi;
    [| rewrite step_Reject_idle; [done | congruence] ..].
  destruct HS as [HK HV HT HU HF HR].
  rewrite (step_Reject _ _ _ s) by done.
  split; simpl; try done.
  - intros j t w. rewrite lookup_insert. case_decide; [| apply HT].
    subst j. intros [= <-] Hf.
    destruct s; simpl in Hf; simplify_eq; by eapply (HT i).
  - intros j s0 w p. rewrite lookup_insert. case_decide; [done | apply HU].
  - intros j. rewrite lookup_insert. case_decide; [| apply HF].
    subst j. intros _. apply HF. left. by rewrite Hi.
  - intros Hv j s0 n now. rewrite lookup_insert. case_decide; [done | by apply HR].
Qed.

Lemma Sane_Resume variant CONFIG i W :
  Sane variant W → Sane variant (step variant CONFIG (Resume i) W).
Proof.
  intros HS. destruct (tasks W !! i) as [[s | res s] |] eqn:Hi;
    [rewrite step_Resume_idle; [done | congruence] | |
     rewrite step_Resume_idle; [done | congruence]].
  destruct HS as [HK HV HT HU HF HR].
  rewrite (step_Resume _ _ _ res s) by done.
  destruct (resume variant CONFIG s res (mem W)) as [m nx] eqn:Hres. simpl.
  split; rewrite ?place_store, ?place_nextId; try done.
  - intros j t w. rewrite place_tasks. case_decide; [| apply HT].
    destruct nx as [s' |]; [| done]. intros [= <-] Hf.
    destruct (resume_Await _ _ _ _ _ _ _ Hres) as (Hn & _).
    by apply (HT i (Ready res s)), Hn.
  - intros j s0 w p. rewrite place_tasks. case_decide; [| apply HU].
    destruct nx as [s' |]; [| done]. intros [= <-].
    destruct (resume_Await _ _ _ _ _ _ _ Hres) as (_ & Hn & _). apply Hn.
  - intros j. rewrite place_tasks. case_decide.
    + subst j. intros _. apply HF. left. by rewrite Hi.
    + intros [Ht | Ha]; [apply HF; by left |].
      rewrite place_answers in Ha. apply HF. right.
      destruct nx as [s' | [a |]]; try done. by rewrite decide_False in Ha.
  - intros Hv j s0 n now. rewrite place_tasks. case_decide; [| by apply HR].
    destruct nx as [s' |]; [| done]. intros [= <-].
    destruct (resume_Await _ _ _ _ _ _ _ Hres) as (_ & _ & Hn). by apply Hn.
Qed.

Lemma Sane_Reboot variant CONFIG oid now W :
  Sane variant W → Sane variant (step variant CONFIG (Reboot oid now) W).
Proof.
  intros [HK HV HT HU HF HR]. split; simpl; try done.
  - intros j t w. rewrite lookup_insert. case_decide; [by intros [= <-] |].
    intros (t0 & Ho & Ht0)%lookup_omap_Some Hf.
    destruct t0 as [s0 | res0 s0]; simpl in Ho; simplify_eq. simpl in Hf.
    destruct (opOf variant s0) eqn:Hop; simplify_eq.
    apply (HT j (Pending s0)); [done |]. by apply opOf_InsertVote.
  - intros j s w p. rewrite lookup_insert. case_decide; [by intros [= <-] |].
    intros (t0 & Ho & Ht0)%lookup_omap_Some.
    destruct t0 as [s0 | res0 s0]; simpl in Ho; simplify_eq. simpl. by apply (HU j).
  - intros j. rewrite lookup_insert. case_decide; [lia |].
    intros [[t (t0 & _ & Ht0)%lookup_omap_Some] | Ha].
    + assert (j < nextId W)%nat; [apply HF; left; by rewrite Ht0 | lia].
    + assert (j < nextId W)%nat; [apply HF; by right | lia].
  - intros Hv j s n now'. rewrite lookup_insert. case_decide; [by intros [= <-] |].
    intros (t0 & Ho & Ht0)%lookup_omap_Some.
    destruct t0 as [s0 | res0 s0]; simpl in Ho; simplify_eq. simpl. by apply (HR eq_refl j).
Qed.

Lemma Sane_step variant CONFIG a W :
  Sane variant W → Sane variant (step variant CONFIG a W).
Proof.
  destruct a.
  - apply Sane_Arrive.
  - apply Sane_Exec.
  - apply Sane_Reject.
  - apply Sane_Resume.
  - apply Sane_Reboot.
Qed.


Lemma reachable_Sane variant CONFIG W : reachable variant CONFIG W → Sane variant W.
Proof.
  induction 1 as [oid now | a W HW IH Ha]; [apply Sane_boot | by apply Sane_step].
Qed.

Lemma reachable_run variant CONFIG acts W :
  reachable variant CONFIG W → Forall goodAction acts →
  reachable variant CONFIG (run variant CONFIG acts W).
Proof.
  revert W. induction acts as [| a acts IH]; intros W HW Hacts; [done |].
  apply Forall_cons in Hacts as [Ha Hacts].
  rewrite run_cons. apply IH; [by apply reachable_step | done].
Qed.

Lemma settle_S variant CONFIG fuel i W :
  settle variant CONFIG (S fuel) i W =
  match tasks W !! i with
  | Some (Pending _) => settle variant CONFIG fuel i (step variant CONFIG (Exec i) W)
  | Some (Ready _ _) => settle variant CONFIG fuel i (step variant CONFIG (Resume i) W)
  | None => W
  end.
Proof. done. Qed.

Lemma reachable_settle variant CONFIG fuel i W :
  reachable variant CONFIG W → reachable variant CONFIG (settle variant CONFIG fuel i W).
Proof.
  revert W. induction fuel as [| fuel IH]; intros W HW; [done |].
  rewrite settle_S. destruct (tasks W !! i) as [[s | res s] |]; [| | done].
  - apply IH. by apply (reachable_step _ _ (Exec i)).
  - apply IH. by apply (reachable_step _ _ (Resume i)).
Qed.

Lemma reachable_handle variant CONFIG r W :
  reachable variant CONFIG W → goodAction (Arrive r) →
  reachable variant CONFIG (handle variant CONFIG r W).
Proof. intros HW Hr. by apply reachable_settle, reachable_step. Qed.

Lemma reachable_serve variant CONFIG rs W :
  reachable variant CONFIG W → Forall (λ r, goodAction (Arrive r)) rs →
  reachable variant CONFIG (serve variant CONFIG rs W).
Proof.
  revert W. induction rs as [| r rs IH]; intros W HW Hrs; [done |].
  apply Forall_cons in Hrs as [Hr Hrs].
  apply IH; [by apply reachable_handle | done].
Qed.

(** ** The parts of a world over the steps of one handler *)

Lemma step_Exec_parts variant CONFIG i s W :
  tasks W !! i = Some (Pending s) →
  let W' := step variant CONFIG (Exec i) W in
  mem W' = mem W
  ∧ store W' = (exec (opOf variant s) (store W)).1
  ∧ tasks W' !! i = Some (Ready (exec (opOf variant s) (store W)).2 s)
  ∧ answers W' = answers W
  ∧ nextId W' = nextId W
  ∧ ∀ j, j ≠ i → tasks W' !! j = tasks W !! j.
Proof.
  intros Ht W'. subst W'. rewrite (step_Exec _ _ _ s) by done. simpl.
  repeat split; [by rewrite lookup_insert_eq |].
  intros j Hj. by rewrite lookup_insert_ne.
Qed.

Lemma step_Resume_parts variant CONFIG i res s W :
  tasks W !! i = Some (Ready res s) →
  let W' := step variant CONFIG (Resume i) W in
  let nx := (resume variant CONFIG s res (mem W)).2 in
  mem W' = (resume variant CONFIG s res (mem W)).1
  ∧ store W' = store W
  ∧ tasks W' !! i = taskOf nx
  ∧ answers W' !! i = match nx with
                      | Finish (Some a) => Some a
                      | _ => answers W !! i
                      end
  ∧ nextId W' = nextId W
  ∧ ∀ j, j ≠ i → tasks W' !! j = tasks W !! j ∧ answers W' !! j = answers W !! j.
Proof.
  intros Ht W' nx. subst W' nx. rewrite (step_Resume _ _ _ res s) by done.
  rewrite place_mem, place_store, place_tasks, place_answers, place_nextId.
  rewrite decide_True by done.
  repeat split.
  - destruct (resume variant CONFIG s res (mem W)).2 as [s' | [a |]]; try done.
    by rewrite decide_True.
  - rewrite place_tasks. by rewrite decide_False.
  - rewrite place_answers.
    destruct (resume variant CONFIG s res (mem W)).2 as [s' | [a |]]; try done.
    by rewrite decide_False.
Qed.

Lemma step_Arrive_parts variant CONFIG r W :
  let W' := step variant CONFIG (Arrive r) W in
  let nx := (arrive variant CONFIG r (mem W)).2 in
  mem W' = (arrive variant CONFIG r (mem W)).1
  ∧ store W' = store W
  ∧ tasks W' !! nextId W = taskOf nx
  ∧ (answers W !! nextId W = None →
     answers W' !! nextId W = match nx with Finish a => a | _ => None end)
  ∧ nextId W' = S (nextId W)
  ∧ ∀ j, j ≠ nextId W → tasks W' !! j = tasks W !! j ∧ answers W' !! j = answers W !! j.
Proof.
  intros W' nx. subst W' nx. rewrite step_Arrive.
  rewrite place_mem, place_store, place_tasks, place_answers, place_nextId.
  rewrite decide_True by done. simpl.
  repeat split.
  - intros Hn. destruct (arrive variant CONFIG r (mem W)).2 as [s' | [a |]]; try done.
    by rewrite decide_True.
  - rewrite place_tasks. by rewrite decide_False.
  - rewrite place_answers. simpl.
    destruct (arrive variant CONFIG r (mem W)).2 as [s' | [a |]]; try done.
    by rewrite decide_False.
Qed.

Lemma settle_Pending variant CONFIG fuel i s W :
  tasks W !! i = Some (Pending s) →
  settle variant CONFIG (S fuel) i W
  = settle variant CONFIG fuel i (step variant CONFIG (Exec i) W).
Proof. intros Ht. by rewrite settle_S, Ht. Qed.

Lemma settle_Ready variant CONFIG fuel i res s W :
  tasks W !! i = Some (Ready res s) →
  settle variant CONFIG (S fuel) i W
  = settle variant CONFIG fuel i (step variant CONFIG (Resume i) W).
Proof. intros Ht. by rewrite settle_S, Ht. Qed.

Lemma settle_None variant CONFIG fuel i W :
  tasks W !! i = None → settle variant CONFIG fuel i W = W.
Proof. intros Ht. destruct fuel; [done |]. by rewrite settle_S, Ht. Qed.

(** ** Marking a prize as paid, await by await *)

Lemma status_any (r : Round) : status r ∈ [voting; spinning; completed].
Proof. destruct (status r); set_solver. Qed.

(** [Round.findOne({ roundNumber })] finds the round of that number in any
    status. *)
Lemma exec_PaidFind variant n st :
  exec (opOf variant (PaidFind n)) st = (st, FoundRound (roundDocs st !! n)).
Proof.
  simpl. f_equal. f_equal. destruct (roundDocs st !! n) as [r |]; [| done].
  simpl. by rewrite decide_True by apply status_any.
Qed.

(** One call served from start to end, for a round with a winner and with
    the aggregate loaded from the database *)
Lemma handle_MarkPaid variant CONFIG n r g id W :
  roundDocs (store W) !! n = Some r →
  noWinner (winner r) = false →
  currentGameState (mem W) = Some g →
  documentId (mem W) = Some id →
  let W' := handle variant CONFIG (MarkPaid n) W in
  let g' := gameStatePaid (prizeAmount r) g in
  mem W' = withGameState g' (mem W)
  ∧ store W' = (exec (SaveGameState id (WritePaid (totalPrizesGiven g') (lastPrizeAmount g')))
                     (store W)).1
  ∧ nextId W' = S (nextId W)
  ∧ answers W' !! nextId W = Some (AnswerAdmin AdminOk)
  ∧ ∀ j, j ≠ nextId W → answers W' !! j = answers W !! j.
Proof.
  intros Hr Hw Hg Hid W' g'. subst W'. unfold handle.
  destruct (step_Arrive_parts variant CONFIG (MarkPaid n) W)
    as (Hm1 & Hs1 & Ht1 & _ & Hn1 & Ho1).
  remember (step variant CONFIG (Arrive (MarkPaid n)) W) as W1 eqn:EW1 in *. clear EW1.
  simpl in Hm1, Ht1.
  rewrite (settle_Pending _ _ _ _ _ _ Ht1).
  destruct (step_Exec_parts variant CONFIG _ _ _ Ht1) as (Hm2 & Hs2 & Ht2 & Ha2 & Hn2 & Ho2).
  remember (step variant CONFIG (Exec (nextId W)) W1) as W2 eqn:EW2 in *. clear EW2.
  rewrite exec_PaidFind in Hs2, Ht2. simpl in Hs2, Ht2. rewrite Hs1, Hr in Ht2.
  rewrite (settle_Ready _ _ _ _ _ _ _ Ht2).
  destruct (step_Resume_parts variant CONFIG _ _ _ _ Ht2)
    as (Hm3 & Hs3 & Ht3 & Ha3 & Hn3 & Ho3).
  remember (step variant CONFIG (Resume (nextId W)) W2) as W3 eqn:EW3 in *. clear EW3.
  simpl in Hm3, Ht3, Ha3. rewrite Hw, Hm2, Hm1, Hg, Hid in Hm3, Ht3, Ha3.
  simpl in Hm3, Ht3, Ha3.
  rewrite (settle_Pending _ _ _ _ _ _ Ht3).
  destruct (step_Exec_parts variant CONFIG _ _ _ Ht3) as (Hm4 & Hs4 & Ht4 & Ha4 & Hn4 & Ho4).
  remember (step variant CONFIG (Exec (nextId W)) W3) as W4 eqn:EW4 in *. clear EW4.
  rewrite (settle_Ready _ _ _ _ _ _ _ Ht4).
  destruct (step_Resume_parts variant CONFIG _ _ _ _ Ht4)
    as (Hm5 & Hs5 & Ht5 & Ha5 & Hn5 & Ho5).
  remember (step variant CONFIG (Resume (nextId W)) W4) as W5 eqn:EW5 in *. clear EW5.
  simpl in Hm5, Ht5, Ha5.
  rewrite (settle_None _ _ _ _ _ Ht5).
  split; [by rewrite Hm5, Hm4, Hm3 |].
  split; [by rewrite Hs5, Hs4, Hs3, Hs2, Hs1 |].
  split; [by rewrite Hn5, Hn4, Hn3, Hn2, Hn1 |].
  split; [done |].
  intros j Hj.
  rewrite (proj2 (Ho5 j Hj)), Ha4, (proj2 (Ho3 j Hj)), Ha2. apply (Ho1 j Hj).
Qed.

Lemma iter_gameStatePaid_total p (k : nat) g :
  totalPrizesGiven (Nat.iter k (gameStatePaid p) g)
  = Nat.iter k (λ t, (t + p)%float) (totalPrizesGiven g).
Proof. induction k as [| k IH]; [done |]. rewrite !Nat.iter_succ. simpl. by rewrite IH. Qed.

Lemma iter_gameStatePaid_last p (k : nat) g :
  (0 < k)%nat → lastPrizeAmount (Nat.iter k (gameStatePaid p) g) = p.
Proof. destruct k; [lia | done]. Qed.

(** Calls served one after the other *)
Lemma iter_MarkPaid variant CONFIG n r id (k : nat) W g :
  roundDocs (store W) !! n = Some r →
  noWinner (winner r) = false →
  currentGameState (mem W) = Some g →
  documentId (mem W) = Some id →
  let W' := Nat.iter k (handle variant CONFIG (MarkPaid n)) W in
  currentGameState (mem W') = Some (Nat.iter k (gameStatePaid (prizeAmount r)) g)
  ∧ documentId (mem W') = Some id
  ∧ roundDocs (store W') = roundDocs (store W)
  ∧ nextId W' = (nextId W + k)%nat
  ∧ ∀ j, (j < k)%nat → answers W' !! (nextId W + j)%nat = Some (AnswerAdmin AdminOk).
Proof.
  intros Hr Hw Hg Hid. cbv zeta. induction k as [| k IH].
  - simpl. repeat split; try done; intros; lia.
  - destruct IH as (Hg' & Hid' & Hr' & Hn' & Ha').
    rewrite !Nat.iter_succ.
    remember (Nat.iter k (handle variant CONFIG (MarkPaid n)) W) as Wk eqn:EWk.
    clear EWk. rewrite <- Hr' in Hr.
    destruct (handle_MarkPaid variant CONFIG n r _ id Wk Hr Hw Hg' Hid')
      as (Hm & Hs & Hn & Ha & Ho).
    rewrite Hm, Hs, Hn. simpl.
    repeat split; try done; [lia |].
    intros j Hj. destruct (decide (j = k)) as [-> | Hne].
    + by rewrite <- Hn'.
    + rewrite Ho by lia. apply Ha'. lia.
Qed.

(** C10, as the code has it.  A call of mark-paid looks the round up by
    its number, in any status.  With no such round, or with a round that
    has no winner, it answers 404 and nothing is changed.  With a round
    that has a winner it answers 500, nothing changed, as long as the
    aggregate is not loaded; with the aggregate loaded it adds the
    [prizeAmount] of the round to [totalPrizesGiven] in memory, a sum of
    doubles, and overwrites [lastPrizeAmount], at once and without asking
    whether the round was paid before, and then saves the aggregate, the
    stored document, if there is one, getting the two values: the answer
    is 200 when the save succeeds and 500 when it fails, or when the
    aggregate is the object of the demo mode, the sum staying in memory in
    every case.  [k] calls served one after the other for the same
    round are answered 200 and add the prize [k] times. *)
Theorem mark_paid_adds_in_memory (variant : Variant) (CONFIG : Config) :
  (∀ W i n,
     tasks W !! i = Some (Pending (PaidFind n)) →
     let W' := step variant CONFIG (Exec i) W in
     tasks W' !! i = Some (Ready (FoundRound (roundDocs (store W) !! n)) (PaidFind n))
     ∧ mem W' = mem W ∧ store W' = store W ∧ answers W' = answers W)
  ∧ (∀ W i n found,
       tasks W !! i = Some (Ready (FoundRound found) (PaidFind n)) →
       found = None ∨ (∃ r, found = Some r ∧ noWinner (winner r) = true) →
       let W' := step variant CONFIG (Resume i) W in
       answers W' !! i = Some (AnswerAdmin AdminNotFound)
       ∧ tasks W' !! i = None ∧ mem W' = mem W ∧ store W' = store W)
  ∧ (∀ W i n r,
       tasks W !! i = Some (Ready (FoundRound (Some r)) (PaidFind n)) →
       noWinner (winner r) = false →
       currentGameState (mem W) = None →
       let W' := step variant CONFIG (Resume i) W in
       answers W' !! i = Some (AnswerAdmin AdminServerError)
       ∧ tasks W' !! i = None ∧ mem W' = mem W ∧ store W' = store W)
  ∧ (∀ W i n r g,
       tasks W !! i = Some (Ready (FoundRound (Some r)) (PaidFind n)) →
       noWinner (winner r) = false →
       currentGameState (mem W) = Some g →
       let W' := step variant CONFIG (Resume i) W in
       let g' := gameStatePaid (prizeAmount r) g in
       currentGameState (mem W') = Some g'
       ∧ totalPrizesGiven g' = (totalPrizesGiven g + prizeAmount r)%float
       ∧ lastPrizeAmount g' = prizeAmount r
       ∧ store W' = store W
       ∧ match documentId (mem W) with
         | Some id =>
             tasks W' !! i = Some (Pending (PaidSave id (WritePaid (totalPrizesGiven g')
                                                                   (lastPrizeAmount g'))))
             ∧ answers W' !! i = answers W !! i
         | None =>
             tasks W' !! i = None
             ∧ answers W' !! i = Some (AnswerAdmin AdminServerError)
         end)
  ∧ (∀ W i id total last,
       tasks W !! i = Some (Pending (PaidSave id (WritePaid total last))) →
       let W' := step variant CONFIG (Exec i) W in
       let W'' := step variant CONFIG (Reject i) W in
       tasks W' !! i = Some (Ready Saved (PaidSave id (WritePaid total last)))
       ∧ mem W' = mem W
       ∧ (id ∈ (fst <$> gameStateDocs (store W)) →
          gameStateDocs (store W')
          = saveGameStateDoc id (WritePaid total last) <$> gameStateDocs (store W))
       ∧ roundDocs (store W') = roundDocs (store W)
       ∧ tasks W'' !! i = Some (Ready Failed (PaidSave id (WritePaid total last)))
       ∧ mem W'' = mem W ∧ store W'' = store W)
  ∧ (∀ W i id wr res,
       tasks W !! i = Some (Ready res (PaidSave id wr)) →
       let W' := step variant CONFIG (Resume i) W in
       answers W' !! i
       = Some (AnswerAdmin match res with Saved => AdminOk | _ => AdminServerError end)
       ∧ tasks W' !! i = None ∧ mem W' = mem W ∧ store W' = store W)
  ∧ (∀ W n r g id (k : nat),
       roundDocs (store W) !! n = Some r →
       noWinner (winner r) = false →
       currentGameState (mem W) = Some g →
       documentId (mem W) = Some id →
       let W' := Nat.iter k (handle variant CONFIG (MarkPaid n)) W in
       ∃ g', currentGameState (mem W') = Some g'
           ∧ totalPrizesGiven g'
             = Nat.iter k (λ t, (t + prizeAmount r)%float) (totalPrizesGiven g)
           ∧ ((0 < k)%nat → lastPrizeAmount g' = prizeAmount r)
           ∧ ∀ j, (j < k)%nat →
                  answers W' !! (nextId W + j)%nat = Some (AnswerAdmin AdminOk)).
Proof.
  split; [| split; [| split; [| split; [| split; [| split]]]]].
  - intros W i n Ht W'.
    destruct (step_Exec_parts variant CONFIG _ _ _ Ht) as (Hm & Hs & Ht' & Ha & _).
    rewrite exec_PaidFind in Hs, Ht'. done.
  - intros W i n found Ht Hf W'.
    destruct (step_Resume_parts variant CONFIG _ _ _ _ Ht) as (Hm & Hs & Ht' & Ha & _).
    subst W'. rewrite Hm, Hs, Ht', Ha. clear Hm Hs Ht' Ha. simpl.
    destruct Hf as [-> | (r & -> & Hw)]; [done |]. by rewrite Hw.
  - intros W i n r Ht Hw Hg W'.
    destruct (step_Resume_parts variant CONFIG _ _ _ _ Ht) as (Hm & Hs & Ht' & Ha & _).
    subst W'. rewrite Hm, Hs, Ht', Ha. clear Hm Hs Ht' Ha. simpl.
    by rewrite Hw, Hg.
  - intros W i n r g Ht Hw Hg W' g'.
    destruct (step_Resume_parts variant CONFIG _ _ _ _ Ht) as (Hm & Hs & Ht' & Ha & _).
    subst W'. rewrite Hm, Hs, Ht', Ha. clear Hm Hs Ht' Ha. simpl.
    rewrite Hw, Hg. by destruct (documentId (mem W)).
  - intros W i id total last Ht W' W''.
    destruct (step_Exec_parts variant CONFIG _ _ _ Ht) as (Hm & Hs & Ht' & _).
    subst W' W''. rewrite Hm, Hs, Ht', (step_Reject _ _ _ _ _ Ht). simpl.
    by rewrite lookup_insert_eq.
  - intros W i id wr res Ht W'.
    destruct (step_Resume_parts variant CONFIG _ _ _ _ Ht) as (Hm & Hs & Ht' & Ha & _).
    subst W'. rewrite Hm, Hs, Ht', Ha. clear Hm Hs Ht' Ha. simpl.
    by destruct res.
  - intros W n r g id k Hr Hw Hg Hid W'.
    destruct (iter_MarkPaid variant CONFIG n r id k W g Hr Hw Hg Hid)
      as (Hg' & _ & _ & _ & Ha).
    eexists. split; [exact Hg' |]. split; [apply iter_gameStatePaid_total |].
    split; [apply iter_gameStatePaid_last | exact Ha].
Qed.

Lemma liveCompleted_reachable variant :
  reachable variant exampleConfig (liveCompleted variant).
Proof.
  unfold liveCompleted, liveSpinning, liveOneVote, liveStarted.
  repeat apply reachable_serve; try apply reachable_settle; try apply reachable_boot.
  - repeat constructor.
  - unfold closingTicks. destruct variant; apply Forall_replicate; by vm_compute.
  - repeat constructor; by vm_compute.
Qed.

(** C10, as the spec states it, fails.  Round 1 is completed with alice as
    winner and a prize of 0.1.  Ten calls for it, each answered 200, leave
    [totalPrizesGiven] at 0.9999999999999999, which is not ten times the
    prize: [10 * 0.1] is 1.  And a call that comes after the process is
    started again, while the aggregate is not yet read, is answered 500
    with nothing changed, although the round exists and has its winner. *)
Lemma mark_paid_counterexample :
  reachable First exampleConfig (liveCompleted First)
  ∧ (∃ r, roundDocs (store (liveCompleted First)) !! 1 = Some r
        ∧ winner r = Some "alice"%string
        ∧ prizeAmount r = 0x1.999999999999ap-4%float)
  ∧ (totalPrizesGiven <$> currentGameState (mem (liveCompleted First))) = Some 0%float
  ∧ ((λ j, answers livePaidTen !! j) <$> seq 7 10)
    = replicate 10 (Some (AnswerAdmin AdminOk))
  ∧ (totalPrizesGiven <$> currentGameState (mem livePaidTen))
    = Some 0x1.fffffffffffffp-1%float
  ∧ (floatOfNat 10 * 0x1.999999999999ap-4)%float = 1%float
  ∧ PrimFloat.eqb 0x1.fffffffffffffp-1 1 = false
  ∧ reachable First exampleConfig liveRestarted
  ∧ (∃ r, roundDocs (store liveRestarted) !! 1 = Some r ∧ winner r = Some "alice"%string)
  ∧ answers (handle First exampleConfig (MarkPaid 1) liveRestarted) !! nextId liveRestarted
    = Some (AnswerAdmin AdminServerError)
  ∧ mem (handle First exampleConfig (MarkPaid 1) liveRestarted) = mem liveRestarted
  ∧ store (handle First exampleConfig (MarkPaid 1) liveRestarted) = store liveRestarted.
Proof.
  split; [apply liveCompleted_reachable |].
  split; [eexists; split; [by vm_compute |]; split; by vm_compute |].
  split; [by vm_compute |].
  split; [by vm_compute |].
  split; [by vm_compute |].
  split; [by vm_compute |].
  split; [by vm_compute |].
  split; [apply reachable_step; [apply liveCompleted_reachable | done] |].
  split; [eexists; split; by vm_compute |].
  split; [by vm_compute |].
  split; by vm_compute.
Qed.

(** ** The tally of a stored round *)

(** A stored round over one call: only a save of that round changes it,
    by the paths it writes. *)
Lemma exec_round op st k r :
  roundDocs st !! k = Some r →
  ∃ r', roundDocs (exec op st).1 !! k = Some r'
        ∧ match op with
          | SaveRound n w => if decide (n = k) then r' = applyRoundWrite w r else r' = r
          | _ => r' = r
          end.
Proof.
  intros Hr. destruct op; simpl; eauto.
  - destruct (roundDocs st !! roundNumber r0) eqn:Hr0; simpl; [eauto |].
    exists r. split; [| done]. rewrite lookup_insert_ne; [done | congruence].
  - rewrite lookup_alter. case_decide.
    + subst n. rewrite Hr. simpl. eauto.
    + eauto.
Qed.

Lemma step_Keyed variant CONFIG a W :
  Keyed (store W) → Keyed (store (step variant CONFIG a W)).
Proof.
  intros HK. destruct (step_store variant CONFIG a W) as [-> | (i & s & _ & _ & ->)];
    [done | by apply exec_Keyed].
Qed.

(** A handler that starts holds no round yet. *)
Lemma inFlight_first variant k s :
  (∀ n wr, opOf variant s ≠ SaveRound n wr) →
  (∀ r0 c0 w0 v0, s ≠ VoteInsert w0 c0 r0 v0) →
  voteInFlight variant k (Pending s) = false ∧ resetInFlight variant k (Pending s) = false.
Proof.
  intros Hop Hs. destruct s; simpl in *; try done;
    try (exfalso; by eapply Hs); try (exfalso; by eapply Hop).
  destruct op; try done. exfalso. by eapply Hop.
Qed.

(** What a handler holds after an [await] is what it held before. *)
Lemma resume_inFlight variant CONFIG k s res m m' s' :
  resume variant CONFIG s res m = (m', Await s') →
  voteInFlight variant k (Ready res s) = false →
  resetInFlight variant k (Ready res s) = false →
  voteInFlight variant k (Pending s') = false ∧ resetInFlight variant k (Pending s') = false.
Proof.
  intros H. destruct s, res; simpl in H;
    unfold ensureCurrentRound, afterEnsureFailed, afterInitFailed, answer in H;
    repeat case_match; simplify_eq; simpl; try done;
    intros Hv Hr; split; try done;
    repeat case_bool_decide; naive_solver.
Qed.

Lemma orphan_inFlight variant k s :
  voteInFlight variant k (Pending s) = false →
  resetInFlight variant k (Pending s) = false →
  voteInFlight variant k (Pending (Orphan (opOf variant s))) = false
  ∧ resetInFlight variant k (Pending (Orphan (opOf variant s))) = false.
Proof. destruct s; simpl; try done. Qed.

(** A round that is out of voting, with nothing in flight for it, keeps
    its tally over a step and stays so, unless the step is the lookup of
    this round by [ensureCurrentRound] of the first variant. *)
Lemma settled_step variant CONFIG k a W :
  Keyed (store W) →
  settled variant k W →
  (variant = First → ¬ ensureLooksUp k a W) →
  settled variant k (step variant CONFIG a W)
  ∧ ∀ r, roundDocs (store W) !! k = Some r →
         ∃ r', roundDocs (store (step variant CONFIG a W)) !! k = Some r'
               ∧ votes r' = votes r.
Proof.
  intros HK HS Hens.
  assert (Hidle : settled variant k W
            ∧ ∀ r, roundDocs (store W) !! k = Some r →
                   ∃ r', roundDocs (store W) !! k = Some r' ∧ votes r' = votes r)
    by (split; [done | eauto]).
  destruct HS as [(r & Hr & Hst) HT].
  destruct a as [rq | i | i | i | oid now].
  - (* a request comes in *)
    rewrite step_Arrive.
    destruct (arrive variant CONFIG rq (mem W)) as [m nx] eqn:Ha. simpl.
    split; [split |]; rewrite ?place_store; simpl; eauto.
    intros j t. rewrite place_tasks. simpl. case_decide; [| apply HT].
    destruct nx as [s |]; [| done]. intros [= <-].
    destruct (arrive_Await _ _ _ _ _ _ Ha) as (_ & _ & Hop & Hs).
    by apply inFlight_first.
  - (* the database executes a call *)
    destruct (tasks W !! i) as [[s | res s] |] eqn:Hi;
      [| rewrite step_Exec_idle; [done | congruence] ..].
    rewrite (step_Exec _ _ _ s) by done. simpl.
    destruct (HT i _ Hi) as [Hv Hrs].
    destruct (exec_round (opOf variant s) (store W) k r Hr) as (r' & Hr' & Hop).
    assert (Hsame : votes r' = votes r ∧ status r' ≠ voting).
    { destruct (opOf variant s)
        as [ | id0 g0 | id0 w0 | n0 sts | r0 | n0 wr | w0 | w0 p0 | w0 rid | v0 | rid c0 | b0]
        eqn:Hops; try (by subst r').
      case_decide; [| by subst r']. subst n0 r'.
      destruct wr; simpl; try done; exfalso.
      - unfold resetInFlight in Hrs. rewrite Hops in Hrs.
        by rewrite bool_decide_true in Hrs.
      - destruct s; simpl in Hops; simplify_eq; simpl in Hv;
          by rewrite bool_decide_true in Hv. }
    destruct Hsame as [Hvotes Hst'].
    split; [split |].
    + exists r'. done.
    + intros j t. simpl. rewrite lookup_insert. case_decide; [| apply HT].
      subst j. intros [= <-]. split.
      * destruct s; simpl; try done.
        simpl in *. destruct (roundDocs (store W) !! n) as [r1 |] eqn:Hr1; simpl; [| done].
        case_decide; [| done]. apply bool_decide_false. intros Hk.
        pose proof (HK _ _ Hr1) as Hn. assert (n = k) as -> by congruence.
        assert (r1 = r) by congruence. subst r1.
        by apply list_elem_of_singleton in H.
      * destruct variant; [| by destruct s, (exec _ _).2].
        destruct s; simpl; try done.
        simpl in *. destruct (roundDocs (store W) !! n) as [r1 |] eqn:Hr1; simpl; [| done].
        case_decide; [| done]. apply bool_decide_false. intros [Hk Hst1].
        pose proof (HK _ _ Hr1) as Hn. assert (n = k) as -> by congruence.
        apply (Hens eq_refl). exists i, now. done.
    + intros r0 Hr0. assert (r0 = r) by congruence. subst r0. eauto.
  - (* the database fails a call *)
    destruct (tasks W !! i) as [[s | res s] |] eqn:Hi;
      [| rewrite step_Reject_idle; [done | congruence] ..].
    rewrite (step_Reject _ _ _ s) by done. simpl.
    destruct (HT i _ Hi) as [Hv Hrs].
    split; [split |]; simpl; eauto.
    intros j t. rewrite lookup_insert. case_decide; [| apply HT].
    subst j. intros [= <-]. split.
    + by destruct s.
    + destruct variant; by destruct s.
  - (* the code after an [await] runs *)
    destruct (tasks W !! i) as [[s | res s] |] eqn:Hi;
      [rewrite step_Resume_idle; [done | congruence] | |
       rewrite step_Resume_idle; [done | congruence]].
    rewrite (step_Resume _ _ _ res s) by done.
    destruct (resume variant CONFIG s res (mem W)) as [m nx] eqn:Hres. simpl.
    destruct (HT i _ Hi) as [Hv Hrs].
    split; [split |]; rewrite ?place_store; eauto.
    intros j t. rewrite place_tasks. case_decide; [| apply HT].
    destruct nx as [s' |]; [| done]. intros [= <-].
    by eapply resume_inFlight.
  - (* the process is started again *)
    split; [split |]; simpl; eauto.
    intros j t. rewrite lookup_insert. case_decide; [by intros [= <-] |].
    intros (t0 & Ho & Ht0)%lookup_omap_Some.
    destruct t0 as [s0 | res0 s0]; simpl in Ho; simplify_eq.
    destruct (HT j _ Ht0). by apply orphan_inFlight.
Qed.

(** In the second variant this holds for good. *)
Lemma settled_run CONFIG k acts W :
  Keyed (store W) →
  settled Second k W →
  settled Second k (run Second CONFIG acts W)
  ∧ ∀ r, roundDocs (store W) !! k = Some r →
         ∃ r', roundDocs (store (run Second CONFIG acts W)) !! k = Some r'
               ∧ votes r' = votes r.
Proof.
  revert W. induction acts as [| a acts IH]; intros W HK HS; [by eauto |].
  rewrite run_cons.
  destruct (settled_step Second CONFIG k a W HK HS) as [HS' Hv]; [done |].
  destruct (IH _ (step_Keyed _ _ _ _ HK) HS') as [HS'' Hv'].
  split; [done |]. intros r Hr.
  destruct (Hv r Hr) as (r1 & Hr1 & E1). destruct (Hv' r1 Hr1) as (r2 & Hr2 & E2).
  exists r2. split; [done | congruence].
Qed.

(** The tally of a stored round over any step *)
Lemma step_tally variant CONFIG a W k r :
  Sane variant W →
  roundDocs (store W) !! k = Some r →
  ∃ r', roundDocs (store (step variant CONFIG a W)) !! k = Some r'
        ∧ (votes r' = votes r
           ∨ (∃ i s c n push,
                a = Exec i ∧ tasks W !! i = Some (Pending s)
                ∧ opOf variant s = SaveRound k (WriteVote c n push)
                ∧ votes r' = setCount c n (votes r))
           ∨ (∃ i s now,
                variant = First
                ∧ a = Exec i ∧ tasks W !! i = Some (Pending s)
                ∧ opOf variant s = SaveRound k (WriteReset now)
                ∧ votes r' = mkTally 0 0)).
Proof.
  intros HS Hr.
  destruct (step_store variant CONFIG a W) as [-> | (i & s & -> & Hi & ->)]; [by eauto |].
  destruct (exec_round (opOf variant s) (store W) k r Hr) as (r' & Hr' & Hop).
  exists r'. split; [done |].
  destruct (opOf variant s) eqn:Hops; try (left; by subst r').
  case_decide; [| left; by subst r']. subst n r'.
  destruct w; simpl; try by left.
  - right; right. exists i, s, now. repeat split; try done.
    destruct variant; [done |]. by destruct (sane_reset _ _ HS eq_refl i s k now Hi).
  - right; left. exists i, s, c, n, push. done.
Qed.

(** C3, as the code has it.  The tally of a stored round is written by
    two saves only.  The save that ends a handler of [/api/vote] puts the
    count of the voted colour to one more than the count in the document
    that handler read while the round was in voting, whatever the stored
    count is by then: it may land after the round has left voting, and it
    may lower the count.  The save of [ensureCurrentRound] in the first
    variant puts the tally of a round it found out of voting to zero.
    Once a round is out of voting with none of these in flight for it, its
    tally stays as it is over every step and the round stays so, but for
    the step by which [ensureCurrentRound] of the first variant looks the
    round up; in the second variant this holds for good. *)
Theorem tally_is_written_by_saves
    (variant : Variant) (CONFIG : Config) (W : World) (k : Z) (r : Round) :
  reachable variant CONFIG W →
  roundDocs (store W) !! k = Some r →
  (∀ a, ∃ r',
     roundDocs (store (step variant CONFIG a W)) !! k = Some r'
     ∧ (votes r' = votes r
        ∨ (∃ i s c n push,
             a = Exec i ∧ tasks W !! i = Some (Pending s)
             ∧ opOf variant s = SaveRound k (WriteVote c n push)
             ∧ votes r' = setCount c n (votes r))
        ∨ (∃ i s now,
             variant = First
             ∧ a = Exec i ∧ tasks W !! i = Some (Pending s)
             ∧ opOf variant s = SaveRound k (WriteReset now)
             ∧ votes r' = mkTally 0 0)))
  ∧ (∀ i w c r0 v,
       tasks W !! i = Some (Ready Saved (VoteInsert w c r0 v)) →
       tasks (step variant CONFIG (Resume i) W) !! i
       = Some (Pending (VoteSave c (applyRoundWrite (voteWrite w c r0) r0)
                          (WriteVote c (count c (votes r0) + 1)
                             (if decide (w ∈ participants r0) then None else Some w)))))
  ∧ (settled variant k W →
     ∀ a, (variant = First → ¬ ensureLooksUp k a W) →
          settled variant k (step variant CONFIG a W)
          ∧ ∃ r', roundDocs (store (step variant CONFIG a W)) !! k = Some r'
                  ∧ votes r' = votes r)
  ∧ (variant = Second → settled variant k W →
     ∀ acts, settled variant k (run variant CONFIG acts W)
             ∧ ∃ r', roundDocs (store (run variant CONFIG acts W)) !! k = Some r'
                     ∧ votes r' = votes r).
Proof.
  intros HW Hr. pose proof (reachable_Sane _ _ _ HW) as HS.
  split; [intros a; by apply step_tally |].
  split.
  { intros i w c r0 v Ht.
    destruct (step_Resume_parts variant CONFIG _ _ _ _ Ht) as (_ & _ & Ht' & _).
    rewrite Ht'. done. }
  split.
  - intros Hset a Ha.
    destruct (settled_step variant CONFIG k a W (sane_keyed _ _ HS) Hset Ha) as [Hset' Hv].
    split; [done | by apply Hv].
  - intros -> Hset acts.
    destruct (settled_run CONFIG k acts W (sane_keyed _ _ HS) Hset) as [Hset' Hv].
    split; [done | by apply Hv].
Qed.

Lemma liveSpinning_reachable variant :
  reachable variant exampleConfig (liveSpinning variant).
Proof.
  unfold liveSpinning, liveOneVote, liveStarted.
  repeat apply reachable_serve; try apply reachable_settle; try apply reachable_boot.
  - repeat constructor.
  - unfold closingTicks. destruct variant; apply Forall_replicate; by vm_compute.
Qed.

Lemma tally_is_written_by_saves_witness :
  ∃ r', roundDocs (store (run Second exampleConfig
                            [Arrive (SelectWinnerTimeout 99 0.25);
                             Exec 304; Resume 304; Exec 304; Resume 304;
                             Exec 304; Resume 304; Exec 304; Resume 304]
                            (liveSpinning Second))) !! 1 = Some r'
        ∧ status r' = completed
        ∧ votes r' = mkTally 1 0.
Proof.
  destruct (tally_is_written_by_saves Second exampleConfig (liveSpinning Second) 1
              (mkRound 1 spinning 0 None (mkTally 1 0) ["alice"%string] (Some Red) None
                 0x1.999999999999ap-4))
    as (_ & _ & _ & Hforever).
  - apply liveSpinning_reachable.
  - vm_compute. reflexivity.
  - destruct (Hforever eq_refl) with
      (acts := [Arrive (SelectWinnerTimeout 99 0.25);
                Exec 304; Resume 304; Exec 304; Resume 304;
                Exec 304; Resume 304; Exec 304; Resume 304])
      as (_ & r' & Hr' & Hv).
    + split.
      * eexists. split; [vm_compute; reflexivity | discriminate].
      * intros i t Ht. vm_compute in Ht. discriminate.
    + exists r'. split; [exact Hr' |]. split; [| exact Hv].
      vm_compute in Hr'. injection Hr' as <-. reflexivity.
Defined.

(** ** A second vote, await by await *)

Lemma step_nextId variant CONFIG a W :
  (nextId W ≤ nextId (step variant CONFIG a W))%nat.
Proof.
  destruct a as [r | i | i | i | oid now].
  - rewrite step_Arrive, place_nextId. simpl. lia.
  - simpl. destruct (tasks W !! i) as [[s | res s] |]; [| done ..].
    by destruct (exec (opOf variant s) (store W)).
  - simpl. by destruct (tasks W !! i) as [[s | res s] |].
  - simpl. destruct (tasks W !! i) as [[s | res s] |]; [done | | done].
    destruct (resume variant CONFIG s res (mem W)). by rewrite place_nextId.
  - simpl. lia.
Qed.

Lemma step_findVote variant CONFIG a W w n v :
  findVote w n (voteDocs (store W)) = Some v →
  findVote w n (voteDocs (store (step variant CONFIG a W))) = Some v.
Proof.
  intros Hv. destruct (step_store variant CONFIG a W) as [-> | (i & s & _ & _ & ->)];
    [done | by apply exec_findVote].
Qed.

(** The step of another handler leaves the handler [i] where it is. *)
Lemma step_other variant CONFIG a i W :
  (i < nextId W)%nat →
  match a with
  | Arrive _ => True
  | Exec j | Reject j | Resume j => j ≠ i
  | Reboot _ _ => False
  end →
  tasks (step variant CONFIG a W) !! i = tasks W !! i
  ∧ answers (step variant CONFIG a W) !! i = answers W !! i.
Proof.
  intros Hi Ha. destruct a as [r | j | j | j | oid now]; [| | | | done].
  - destruct (step_Arrive_parts variant CONFIG r W) as (_ & _ & _ & _ & _ & Ho).
    apply Ho. lia.
  - destruct (tasks W !! j) as [[s | res s] |] eqn:Hj;
      [| rewrite step_Exec_idle; [done | congruence] ..].
    destruct (step_Exec_parts variant CONFIG _ _ _ Hj) as (_ & _ & _ & -> & _ & Ho).
    split; [apply Ho; congruence | done].
  - destruct (tasks W !! j) as [[s | res s] |] eqn:Hj;
      [| rewrite step_Reject_idle; [done | congruence] ..].
    rewrite (step_Reject _ _ _ _ _ Hj). simpl.
    split; [| done]. rewrite lookup_insert_ne; [done | congruence].
  - destruct (tasks W !! j) as [[s | res s] |] eqn:Hj;
      [rewrite step_Resume_idle; [done | congruence] | |
       rewrite step_Resume_idle; [done | congruence]].
    destruct (step_Resume_parts variant CONFIG _ _ _ _ Hj) as (_ & _ & _ & _ & _ & Ho).
    apply Ho. congruence.
Qed.

Lemma verified_lookup w (ps : gmap string Participant) :
  verified w ps = true → ∃ p, ps !! w = Some p ∧ isVerified p = true.
Proof. unfold verified. destruct (ps !! w) as [p |]; [eauto | done]. Qed.

(** The four steps of the handler [i] on its way to the answer *)
Lemma duplicate_lookup_participant variant CONFIG i w col now n v W :
  Sane variant W →
  findVote w n (voteDocs (store W)) = Some v →
  tasks W !! i = Some (Pending (VoteParticipant w col now)) →
  let W' := step variant CONFIG (Exec i) W in
  (∃ p, tasks W' !! i = Some (Ready (FoundParticipant (Some p)) (VoteParticipant w col now)))
  ∧ answers W' = answers W ∧ store W' = store W ∧ mem W' = mem W.
Proof.
  intros HS Hv Ht W'.
  destruct (step_Exec_parts variant CONFIG _ _ _ Ht) as (Hm & Hs & Ht' & Ha & _).
  apply findVote_elem in Hv as (Hin & Hw & _).
  pose proof (sane_voters _ _ HS v Hin) as Hver. rewrite Hw in Hver.
  apply verified_lookup in Hver as (p & Hp & Hpv).
  subst W'. rewrite Hm, Hs, Ht', Ha. simpl. rewrite Hp. simpl. rewrite Hpv. eauto.
Qed.

Lemma duplicate_read_round variant CONFIG i w col now n p W :
  currentRoundOf W = Some n →
  tasks W !! i = Some (Ready (FoundParticipant (Some p)) (VoteParticipant w col now)) →
  let W' := step variant CONFIG (Resume i) W in
  tasks W' !! i = Some (Pending (VoteExisting w col now n))
  ∧ answers W' !! i = answers W !! i ∧ store W' = store W ∧ mem W' = mem W.
Proof.
  intros Hn Ht W'.
  destruct (step_Resume_parts variant CONFIG _ _ _ _ Ht) as (Hm & Hs & Ht' & Ha & _).
  subst W'. rewrite Hm, Hs, Ht', Ha. clear Hm Hs Ht' Ha. simpl.
  unfold currentRoundOf in Hn.
  destruct (currentGameState (mem W)) as [g |]; simpl in Hn; simplify_eq. done.
Qed.

Lemma duplicate_lookup_vote variant CONFIG i w col now n v W :
  findVote w n (voteDocs (store W)) = Some v →
  tasks W !! i = Some (Pending (VoteExisting w col now n)) →
  let W' := step variant CONFIG (Exec i) W in
  tasks W' !! i = Some (Ready (FoundVote (Some v)) (VoteExisting w col now n))
  ∧ answers W' = answers W ∧ store W' = store W ∧ mem W' = mem W.
Proof.
  intros Hv Ht W'.
  destruct (step_Exec_parts variant CONFIG _ _ _ Ht) as (Hm & Hs & Ht' & Ha & _).
  subst W'. rewrite Hm, Hs, Ht', Ha. simpl. by rewrite Hv.
Qed.

Lemma duplicate_answer variant CONFIG i w col now n v W :
  tasks W !! i = Some (Ready (FoundVote (Some v)) (VoteExisting w col now n)) →
  let W' := step variant CONFIG (Resume i) W in
  tasks W' !! i = None
  ∧ answers W' !! i = Some (AnswerVote (VoteAlreadyVoted (color v)))
  ∧ store W' = store W ∧ mem W' = mem W.
Proof.
  intros Ht W'.
  destruct (step_Resume_parts variant CONFIG _ _ _ _ Ht) as (Hm & Hs & Ht' & Ha & _).
  subst W'. by rewrite Hm, Hs, Ht', Ha.
Qed.

(** The handler stays on its way over any step that spares it. *)
Lemma duplicate_step variant CONFIG i w col now n v a W :
  Sane variant W →
  (i < nextId W)%nat →
  findVote w n (voteDocs (store W)) = Some v →
  currentRoundOf W = Some n →
  spares i a →
  onDuplicatePath i w col now n v W →
  onDuplicatePath i w col now n v (step variant CONFIG a W).
Proof.
  intros HS Hi Hv Hn Ha Hpath.
  assert (Hother : match a with
                   | Arrive _ => True
                   | Exec j | Reject j | Resume j => j ≠ i
                   | Reboot _ _ => False
                   end → onDuplicatePath i w col now n v (step variant CONFIG a W)).
  { intros Ho. destruct (step_other variant CONFIG a i W Hi Ho) as [Ht' Ha'].
    unfold onDuplicatePath. by rewrite Ht', Ha'. }
  destruct a as [r | j | j | j | oid now']; simpl in Ha; try done; try by apply Hother.
  - (* the database executes a call *)
    destruct (decide (j = i)) as [-> | Hne]; [| by apply Hother].
    destruct Hpath as [[Hans [Ht | [[p Ht] | [Ht | Ht]]]] | [Ht Hans]].
    + destruct (duplicate_lookup_participant variant CONFIG i w col now n v W HS Hv Ht)
        as ((p & Ht') & Ha' & _).
      left. rewrite Ha'. eauto 10.
    + rewrite step_Exec_idle by congruence. left. eauto 10.
    + destruct (duplicate_lookup_vote variant CONFIG i w col now n v W Hv Ht)
        as (Ht' & Ha' & _).
      left. rewrite Ha'. eauto 10.
    + rewrite step_Exec_idle by congruence. left. eauto 10.
    + rewrite step_Exec_idle by congruence. by right.
  - (* the code after an [await] runs *)
    destruct (decide (j = i)) as [-> | Hne]; [| by apply Hother].
    destruct Hpath as [[Hans [Ht | [[p Ht] | [Ht | Ht]]]] | [Ht Hans]].
    + rewrite step_Resume_idle by congruence. left. eauto 10.
    + destruct (duplicate_read_round variant CONFIG i w col now n p W Hn Ht)
        as (Ht' & Ha' & _).
      left. rewrite Ha'. eauto 10.
    + rewrite step_Resume_idle by congruence. left. eauto 10.
    + destruct (duplicate_answer variant CONFIG i w col now n v W Ht) as (Ht' & Ha' & _).
      by right.
    + rewrite step_Resume_idle by congruence. by right.
Qed.

(** The steps of the handler itself write nothing. *)
Lemma duplicate_own variant CONFIG i w col now n v a W :
  Sane variant W →
  findVote w n (voteDocs (store W)) = Some v →
  currentRoundOf W = Some n →
  onDuplicatePath i w col now n v W →
  a = Exec i ∨ a = Resume i →
  store (step variant CONFIG a W) = store W ∧ mem (step variant CONFIG a W) = mem W.
Proof.
  intros HS Hv Hn Hpath [-> | ->].
  - destruct Hpath as [[Hans [Ht | [[p Ht] | [Ht | Ht]]]] | [Ht Hans]].
    + by destruct (duplicate_lookup_participant variant CONFIG i w col now n v W HS Hv Ht)
        as (_ & _ & ? & ?).
    + by rewrite step_Exec_idle by congruence.
    + by destruct (duplicate_lookup_vote variant CONFIG i w col now n v W Hv Ht)
        as (_ & _ & ? & ?).
    + by rewrite step_Exec_idle by congruence.
    + by rewrite step_Exec_idle by congruence.
  - destruct Hpath as [[Hans [Ht | [[p Ht] | [Ht | Ht]]]] | [Ht Hans]].
    + by rewrite step_Resume_idle by congruence.
    + by destruct (duplicate_read_round variant CONFIG i w col now n p W Hn Ht)
        as (_ & _ & ? & ?).
    + by rewrite step_Resume_idle by congruence.
    + by destruct (duplicate_answer variant CONFIG i w col now n v W Ht) as (_ & _ & ? & ?).
    + by rewrite step_Resume_idle by congruence.
Qed.

(** Let run to its end, the handler answers that the wallet has voted. *)
Lemma duplicate_settle variant CONFIG i w col now n v W :
  Sane variant W →
  findVote w n (voteDocs (store W)) = Some v →
  currentRoundOf W = Some n →
  onDuplicatePath i w col now n v W →
  answers (settle variant CONFIG 4 i W) !! i = Some (AnswerVote (VoteAlreadyVoted (color v))).
Proof.
  intros HS Hv Hn Hpath.
  assert (H4 : ∀ fuel W4, tasks W4 !! i = Some (Ready (FoundVote (Some v))
                                                 (VoteExisting w col now n)) →
             answers (settle variant CONFIG (S fuel) i W4) !! i
             = Some (AnswerVote (VoteAlreadyVoted (color v)))).
  { intros fuel W4 Ht. rewrite (settle_Ready _ _ _ _ _ _ _ Ht).
    destruct (duplicate_answer variant CONFIG i w col now n v W4 Ht) as (Ht' & Ha' & _).
    by rewrite settle_None. }
  assert (H3 : ∀ fuel W3, findVote w n (voteDocs (store W3)) = Some v →
             tasks W3 !! i = Some (Pending (VoteExisting w col now n)) →
             answers (settle variant CONFIG (S (S fuel)) i W3) !! i
             = Some (AnswerVote (VoteAlreadyVoted (color v)))).
  { intros fuel W3 Hv3 Ht. rewrite (settle_Pending _ _ _ _ _ _ Ht).
    destruct (duplicate_lookup_vote variant CONFIG i w col now n v W3 Hv3 Ht) as (Ht' & _).
    by apply H4. }
  assert (H2 : ∀ fuel W2 p, findVote w n (voteDocs (store W2)) = Some v →
             currentRoundOf W2 = Some n →
             tasks W2 !! i = Some (Ready (FoundParticipant (Some p))
                                     (VoteParticipant w col now)) →
             answers (settle variant CONFIG (S (S (S fuel))) i W2) !! i
             = Some (AnswerVote (VoteAlreadyVoted (color v)))).
  { intros fuel W2 p Hv2 Hn2 Ht. rewrite (settle_Ready _ _ _ _ _ _ _ Ht).
    destruct (duplicate_read_round variant CONFIG i w col now n p W2 Hn2 Ht)
      as (Ht' & _ & Hs' & _).
    apply H3; [by rewrite Hs' | done]. }
  destruct Hpath as [[Hans [Ht | [[p Ht] | [Ht | Ht]]]] | [Ht Hans]].
  - rewrite (settle_Pending _ _ _ _ _ _ Ht).
    destruct (duplicate_lookup_participant variant CONFIG i w col now n v W HS Hv Ht)
      as ((p & Ht') & _ & Hs' & Hm').
    apply (H2 _ _ p); [by rewrite Hs' | | done].
    unfold currentRoundOf. rewrite Hm'. exact Hn.
  - by apply (H2 _ _ p).
  - by apply H3.
  - by apply H4.
  - by rewrite settle_None.
Qed.

Lemma worlds_last variant CONFIG (P : World → Prop) acts W :
  Forall P (worlds variant CONFIG acts W) → P (run variant CONFIG acts W).
Proof.
  revert W. induction acts as [| a acts IH]; intros W H.
  - by apply Forall_cons in H as [H _].
  - simpl in H. apply Forall_cons in H as [_ H]. rewrite run_cons. by apply IH.
Qed.

(** The handler stays on its way over any run that spares it, with the
    round staying current. *)
Lemma duplicate_run variant CONFIG i w col now n v acts W :
  Sane variant W →
  (i < nextId W)%nat →
  findVote w n (voteDocs (store W)) = Some v →
  Forall (spares i) acts →
  Forall (λ W', currentRoundOf W' = Some n) (worlds variant CONFIG acts W) →
  onDuplicatePath i w col now n v W →
  Sane variant (run variant CONFIG acts W)
  ∧ findVote w n (voteDocs (store (run variant CONFIG acts W))) = Some v
  ∧ onDuplicatePath i w col now n v (run variant CONFIG acts W).
Proof.
  revert W. induction acts as [| a acts IH]; intros W HS Hi Hv Hacts Hws Hpath; [done |].
  apply Forall_cons in Hacts as [Ha Hacts].
  simpl in Hws. apply Forall_cons in Hws as [Hn Hws].
  rewrite run_cons. apply IH; try done.
  - by apply Sane_step.
  - pose proof (step_nextId variant CONFIG a W). lia.
  - by apply step_findVote.
  - by apply duplicate_step.
Qed.

(** The start of the handler: the phase is voting when the second variant
    checks it, and the body names a wallet and a colour. *)
Lemma duplicate_arrive variant CONFIG w c col now n v W :
  Sane variant W →
  w ≠ ""%string →
  parseColor c = Some col →
  (variant = Second → currentPhase (mem W) = V2.phase_voting) →
  onDuplicatePath (nextId W) w col now n v (step variant CONFIG (Arrive (CastVote w c now)) W).
Proof.
  intros HS Hw Hc Hph.
  assert (Harr : arrive variant CONFIG (CastVote w c now) (mem W)
                 = (mem W, Await (VoteParticipant w col now))).
  { simpl. rewrite decide_False by (intros [-> Hp]; by apply Hp, Hph).
    by rewrite decide_False, Hc by done. }
  destruct (step_Arrive_parts variant CONFIG (CastVote w c now) W)
    as (_ & _ & Ht & Ha & _).
  assert (Hnone : answers W !! nextId W = None).
  { destruct (answers W !! nextId W) eqn:E; [| done].
    assert (nextId W < nextId W)%nat; [| lia].
    apply (sane_fresh _ _ HS). right. by rewrite E. }
  rewrite Harr in Ht, Ha.
  left. split; [by rewrite (Ha Hnone) |]. left. by rewrite Ht.
Qed.

(** C7.  A wallet has a vote recorded for round [n], and votes again with
    a colour, the second variant being in its voting phase when the
    request comes in.  Whatever else happens in between, as long as round
    [n] stays the current one, the process is not started again and the
    database does not fail the calls of this handler, the handler writes
    nothing, neither in the database nor in the memory, and it answers
    that the wallet has voted, with the colour of the first vote recorded
    for the wallet in the round, and with no other answer before. *)
Theorem duplicate_vote_is_rejected
    (variant : Variant) (CONFIG : Config) (W : World) (w c : string) (col : Color)
    (now n : Z) (v : Vote) (acts : list Action) :
  reachable variant CONFIG W →
  w ≠ ""%string →
  parseColor c = Some col →
  (variant = Second → currentPhase (mem W) = V2.phase_voting) →
  findVote w n (voteDocs (store W)) = Some v →
  Forall (spares (nextId W)) acts →
  Forall (λ W', currentRoundOf W' = Some n)
         (worlds variant CONFIG acts (step variant CONFIG (Arrive (CastVote w c now)) W)) →
  let i := nextId W in
  let W' := run variant CONFIG acts (step variant CONFIG (Arrive (CastVote w c now)) W) in
  onDuplicatePath i w col now n v W'
  ∧ answers (settle variant CONFIG 4 i W') !! i
    = Some (AnswerVote (VoteAlreadyVoted (color v)))
  ∧ (∀ a, a = Exec i ∨ a = Resume i →
          store (step variant CONFIG a W') = store W'
          ∧ mem (step variant CONFIG a W') = mem W').
Proof.
  intros HW Hw Hc Hph Hv Hacts Hws i W'.
  pose proof (reachable_Sane _ _ _ HW) as HS.
  pose proof (worlds_last _ _ _ _ _ Hws) as Hn. simpl in Hn. fold W' in Hn.
  destruct (duplicate_run variant CONFIG i w col now n v acts
              (step variant CONFIG (Arrive (CastVote w c now)) W))
    as (HS' & Hv' & Hpath); try done.
  - by apply Sane_step.
  - rewrite step_Arrive, place_nextId. simpl. lia.
  - by apply step_findVote.
  - by apply duplicate_arrive.
  - fold W' in HS', Hv', Hpath.
    split; [done |]. split; [by eapply duplicate_settle |].
    intros a Ha. by eapply duplicate_own.
Qed.

Lemma liveOneVote_reachable variant :
  reachable variant exampleConfig (liveOneVote variant).
Proof.
  unfold liveOneVote, liveStarted.
  repeat apply reachable_serve; try apply reachable_settle; try apply reachable_boot.
  repeat constructor.
Qed.

Lemma duplicate_vote_is_rejected_witness :
  answers (settle First exampleConfig 4 4
             (run First exampleConfig secondVoteActions
                (step First exampleConfig (Arrive (CastVote "alice" "black" 5))
                   (liveOneVote First)))) !! 4%nat
  = Some (AnswerVote (VoteAlreadyVoted Red)).
Proof.
  destruct (duplicate_vote_is_rejected First exampleConfig (liveOneVote First)
              "alice" "black" Black 5 1 (mkVote "alice" 1 Red 3) secondVoteActions)
    as (_ & Hanswer & _).
  - apply liveOneVote_reachable.
  - discriminate.
  - reflexivity.
  - discriminate.
  - vm_compute. reflexivity.
  - unfold secondVoteActions. repeat constructor.
  - apply (bool_decide_unpack _). vm_compute. exact I.
  - exact Hanswer.
Defined.

(** ** Requests in flight together *)

Ltac good_actions := vm_compute; repeat constructor.

Lemma liveVerified_reachable variant :
  reachable variant exampleConfig (liveVerified variant).
Proof.
  unfold liveVerified, liveStarted.
  repeat apply reachable_serve; try apply reachable_settle; try apply reachable_boot.
  repeat constructor.
Qed.

(** X25.  [/api/vote] does not keep a wallet to one vote a round when two
    of its requests are in flight together: each passes the lookup of the
    earlier vote before the other has recorded its own.  Both are answered
    with success and a tally of one, both votes are recorded, the stored
    tally counts one of them, and the wallet is twice in the list of
    participants. *)
Theorem votes_in_flight_together_are_both_recorded (variant : Variant) :
  reachable variant exampleConfig (liveDoubleVote variant)
  ∧ voteDocs (store (liveDoubleVote variant))
    = [mkVote "alice" 1 Red 3; mkVote "alice" 1 Red 4]
  ∧ answers (liveDoubleVote variant) !! 4%nat
    = Some (AnswerVote (VoteOk Red 1 (mkTally 1 0) 1))
  ∧ answers (liveDoubleVote variant) !! 5%nat
    = Some (AnswerVote (VoteOk Red 1 (mkTally 1 0) 1))
  ∧ ∃ r, roundDocs (store (liveDoubleVote variant)) !! 1 = Some r
         ∧ status r = voting
         ∧ votes r = mkTally 1 0
         ∧ participants r = ["alice"; "alice"]%string.
Proof.
  split.
  { apply reachable_run; [apply liveVerified_reachable | good_actions]. }
  destruct variant.
  all: split; [by vm_compute |]; split; [by vm_compute |]; split; [by vm_compute |].
  all: eexists; split; [by vm_compute |]; done.
Qed.

Lemma liveClosedOnVote_reachable variant :
  reachable variant exampleConfig (liveClosedOnVote variant).
Proof.
  apply reachable_run; [apply liveVerified_reachable |].
  destruct variant; good_actions.
Qed.

(** X26.  The tally of a round can change after the round has left
    voting.  The handler of a vote reads the round while it is in voting;
    the last tick comes and [endVotingPhase] stores the round as spinning,
    with its winning colour; the handler then records the vote and saves
    the tally of the document it holds.  The round is in spinning before
    and after that save, and its tally goes from 0 to 1. *)
Theorem vote_in_flight_lands_after_the_voting (variant : Variant) :
  reachable variant exampleConfig (liveLateVote variant)
  ∧ (∃ r, roundDocs (store (liveClosedOnVote variant)) !! 1 = Some r
          ∧ status r = spinning
          ∧ winningColor r = Some Red
          ∧ votes r = mkTally 0 0)
  ∧ voteDocs (store (liveClosedOnVote variant)) = []
  ∧ (∃ r, roundDocs (store (liveLateVote variant)) !! 1 = Some r
          ∧ status r = spinning
          ∧ votes r = mkTally 1 0
          ∧ participants r = ["alice"%string])
  ∧ voteDocs (store (liveLateVote variant)) = [mkVote "alice" 1 Red 3]
  ∧ answers (liveLateVote variant) !! 4%nat
    = Some (AnswerVote (VoteOk Red 1 (mkTally 1 0) 1)).
Proof.
  split.
  { apply reachable_run; [apply liveClosedOnVote_reachable | good_actions]. }
  destruct variant.
  all: split; [eexists; split; [by vm_compute |]; done |].
  all: split; [by vm_compute |].
  all: split; [eexists; split; [by vm_compute |]; done |].
  all: split; by vm_compute.
Qed.

Lemma liveOthersVoted_reachable variant :
  reachable variant exampleConfig (liveOthersVoted variant).
Proof. apply reachable_run; [apply liveVerified_reachable | good_actions]. Qed.

(** X27.  The save of a vote can lower the stored tally.  The handler of
    alice reads the round with no vote; bob and carol vote, and the tally
    of red is 2; the handler of alice then saves one more than the count
    it read: the tally of red is 1, with three votes for red recorded. *)
Theorem stale_save_lowers_the_tally (variant : Variant) :
  reachable variant exampleConfig (liveStaleVote variant)
  ∧ (∃ r, roundDocs (store (liveOthersVoted variant)) !! 1 = Some r
          ∧ votes r = mkTally 2 0)
  ∧ (∃ r, roundDocs (store (liveStaleVote variant)) !! 1 = Some r
          ∧ status r = voting
          ∧ votes r = mkTally 1 0
          ∧ participants r = ["bob"; "carol"; "alice"]%string)
  ∧ countVotes 1 Red (voteDocs (store (liveStaleVote variant))) = 3
  ∧ answers (liveStaleVote variant) !! 4%nat
    = Some (AnswerVote (VoteOk Red 1 (mkTally 1 0) 1)).
Proof.
  split.
  { apply reachable_run; [apply liveOthersVoted_reachable | good_actions]. }
  destruct variant.
  all: split; [eexists; split; [by vm_compute |]; done |].
  all: split; [eexists; split; [by vm_compute |]; done |].
  all: split; by vm_compute.
Qed.

Lemma liveFailedVote_reachable variant :
  reachable variant exampleConfig (liveFailedVote variant).
Proof. apply reachable_run; [apply liveVerified_reachable | good_actions]. Qed.

(** X28.  [/api/vote] can answer 500 after it has written.  When the vote
    is recorded and the save of the round then fails, the answer is the
    500 of the [catch] block, the vote stays recorded, and the tally and
    the participants of the round do not have it; the wallet that asks
    again is told that it has voted. *)
Theorem failed_save_leaves_the_vote_recorded (variant : Variant) :
  reachable variant exampleConfig (liveFailedVote variant)
  ∧ answers (liveFailedVote variant) !! 4%nat = Some (AnswerVote VoteServerError)
  ∧ voteDocs (store (liveFailedVote variant)) = [mkVote "alice" 1 Red 3]
  ∧ (∃ r, roundDocs (store (liveFailedVote variant)) !! 1 = Some r
          ∧ status r = voting
          ∧ votes r = mkTally 0 0
          ∧ participants r = [])
  ∧ answers (handle variant exampleConfig (CastVote "alice" "red" 9)
               (liveFailedVote variant)) !! 5%nat
    = Some (AnswerVote (VoteAlreadyVoted Red)).
Proof.
  split; [apply liveFailedVote_reachable |].
  destruct variant.
  all: split; [by vm_compute |]; split; [by vm_compute |].
  all: split; [eexists; split; [by vm_compute |]; done |].
  all: by vm_compute.
Qed.

Lemma liveRoundSaved_reachable variant :
  reachable variant exampleConfig (liveRoundSaved variant).
Proof.
  apply reachable_run; [apply liveSpinning_reachable |].
  destruct variant; good_actions.
Qed.

(** X29.  [/api/admin/set-prize] can write the prize of a completed round.
    [selectWinner], or [performAutomaticSpin], saves the round as completed
    before it adds one to [currentRound]; a prize set in between is looked
    up under the old number and saved on the completed round, whose prize
    goes from 0.1 to 0.5, after its winner is drawn. *)
Theorem prize_set_at_rollover_lands_on_the_completed_round (variant : Variant) :
  reachable variant exampleConfig (livePrizeAtRollover variant)
  ∧ currentRoundOf (liveRoundSaved variant) = Some 1
  ∧ (∃ r, roundDocs (store (liveRoundSaved variant)) !! 1 = Some r
          ∧ status r = completed
          ∧ winner r = Some "alice"%string
          ∧ prizeAmount r = 0x1.999999999999ap-4%float)
  ∧ currentRoundOf (livePrizeAtRollover variant) = Some 2
  ∧ (∃ r, roundDocs (store (livePrizeAtRollover variant)) !! 1 = Some r
          ∧ status r = completed
          ∧ winner r = Some "alice"%string
          ∧ prizeAmount r = 0.5%float)
  ∧ roundDocs (store (livePrizeAtRollover variant)) !! 2 = None
  ∧ answers (livePrizeAtRollover variant) !! S (nextId (liveSpinning variant))
    = Some (AnswerAdmin AdminOk).
Proof.
  split.
  { apply reachable_run; [apply liveRoundSaved_reachable |].
    destruct variant; good_actions. }
  destruct variant.
  all: split; [by vm_compute |].
  all: split; [eexists; split; [by vm_compute |]; done |].
  all: split; [by vm_compute |].
  all: split; [eexists; split; [by vm_compute |]; done |].
  all: split; by vm_compute.
Qed.

(** X30.  In every world the server reaches, whatever requests are in
    flight together, a recorded vote is of a wallet that is verified: the
    handler records the vote after its lookup has found the wallet
    verified, and a wallet once verified stays so. *)
Theorem recorded_votes_are_of_verified_wallets
    (variant : Variant) (CONFIG : Config) (W : World) (v : Vote) :
  reachable variant CONFIG W →
  v ∈ voteDocs (store W) →
  verified (walletAddress v) (participantDocs (store W)) = true.
Proof. intros HW Hv. by apply (sane_voters _ _ (reachable_Sane _ _ _ HW)). Qed.

Lemma recorded_votes_are_of_verified_wallets_witness :
  verified "alice" (participantDocs (store (liveDoubleVote First))) = true.
Proof.
  apply (recorded_votes_are_of_verified_wallets First exampleConfig (liveDoubleVote First)
           (mkVote "alice" 1 Red 4)).
  - apply reachable_run; [apply liveVerified_reachable | good_actions].
  - apply (list_elem_of_lookup_2 _ 1%nat). vm_compute. reflexivity.
Defined.

(** X31.  No step of the server takes a record away, whatever is in
    flight: the votes recorded before the step are the first of the votes
    recorded after it, a round that is stored stays stored under its
    number, and a verified wallet stays verified. *)
Theorem no_step_takes_a_record_away
    (variant : Variant) (CONFIG : Config) (W : World) (a : Action) :
  reachable variant CONFIG W →
  voteDocs (store W) `prefix_of` voteDocs (store (step variant CONFIG a W))
  ∧ (∀ k r, roundDocs (store W) !! k = Some r →
            ∃ r', roundDocs (store (step variant CONFIG a W)) !! k = Some r'
                  ∧ roundNumber r' = roundNumber r)
  ∧ (∀ w, verified w (participantDocs (store W)) = true →
          verified w (participantDocs (store (step variant CONFIG a W))) = true).
Proof.
  intros HW. pose proof (reachable_Sane _ _ _ HW) as HS.
  destruct (step_store variant CONFIG a W) as [-> | (i & s & -> & Hi & ->)];
    [by eauto |].
  split; [rewrite exec_votes; by eexists |].
  split.
  - intros k r Hr.
    destruct (exec_round (opOf variant s) (store W) k r Hr) as (r' & Hr' & Hop).
    exists r'. split; [done |].
    destruct (opOf variant s); try (by subst r').
    case_decide; [| by subst r']. subst r'. by destruct w.
  - intros w. apply exec_verified. intros w' p Hop. by apply (sane_upserts _ _ HS i s w' p).
Qed.

Lemma no_step_takes_a_record_away_witness :
  voteDocs (store (liveOneVote First))
  `prefix_of` voteDocs (store (step First exampleConfig (Exec 4)
                                 (step First exampleConfig
                                    (Arrive (CastVote "alice" "black" 5))
                                    (liveOneVote First)))).
Proof.
  destruct (no_step_takes_a_record_away First exampleConfig
              (step First exampleConfig (Arrive (CastVote "alice" "black" 5))
                 (liveOneVote First))
              (Exec 4))
    as (Hvotes & _).
  - apply reachable_step; [apply liveOneVote_reachable | exact I].
  - exact Hvotes.
Defined.

(** X33.  The index of the draw is the floor of a product of doubles, which
    is rounded before the floor is taken.  For the double next below 5/6,
    a result of [Math.random()], and six winning votes, the product is
    rounded to 5 and the sixth voter wins, where the floor of the exact
    product is 4. *)
Theorem draw_index_is_floor_of_rounded_product :
  goodFloat belowFiveSixths
  ∧ Prim2SF belowFiveSixths = S754_finite false 7505999378950826 (-53)
  ∧ (belowFiveSixths * floatOfNat 6)%float = 5%float
  ∧ randomIndex belowFiveSixths (length sixRedVotes) = Some 5
  ∧ drawWinner belowFiveSixths sixRedVotes = Some (Some "f"%string)
  ∧ Qfloor (belowFiveSixthsQ * inject_Z 6) = 4.
Proof. repeat split; by vm_compute. Qed.

(** ** The countdown, await by await *)








End LiveProperties.
